(** * RateLimitX402: token-bucket admission control with paid refills

    A shallow embedding of the Go sources:
    - [pkg/ratelimit/memory]  (in-process token bucket),
    - [pkg/ratelimit/redis]   (Redis-backed bucket, three Lua scripts),
    - [pkg/trust]             (sliding-window trust tracker),
    - [cmd/server]            (settlement queue, admission middleware).

    Conventions.
    - A [time.Time] is the clock reading in nanoseconds, a [Z]; a
      [time.Duration] is a [Z] number of nanoseconds.
    - A [float64] is a rational [Q]: token arithmetic is exact, which is the
      data model the specification gives ([tokens : real]).  Equalities on
      token counts are therefore stated with [==].  Two float64 divisions of
      the Redis limiter are kept as the machine rounds them, as a parameter
      [fdiv]: its clock and the quotient its scripts round up to an expiry.
    - Every [time.Now()] of the source is an explicit [now] argument. *)

From Stdlib Require Import ZArith QArith Qround Qminmax Lqa Lia List Bool String.
From stdpp Require Import gmap strings.
Import ListNotations.

Local Open Scope Z_scope.
Local Open Scope Q_scope.

(** ** Numbers and time *)

(** [x < y] on float64, as a boolean. *)
Definition Qlt_bool (x y : Q) : bool := negb (Qle_bool y x).

(** [Duration.Seconds()]: nanoseconds to (fractional) seconds. *)
Definition Seconds (d : Z) : Q := Qmake d 1000000000.

(** ** pkg/ratelimit/memory: the in-process token bucket *)

Module memory.

(** [type TokenBucket struct]; the mutex is the atomicity of each operation. *)
Record TokenBucket := mkTokenBucket {
  capacity : Q;
  refillRate : Q;        (* tokens per second *)
  tokens : Q;
  lastRefillTime : Z
}.

Definition with_tokens (tb : TokenBucket) (t : Q) : TokenBucket :=
  mkTokenBucket (capacity tb) (refillRate tb) t (lastRefillTime tb).

(** [NewTokenBucket]: starts full, stamped with the construction time. *)
Definition NewTokenBucket (capacity refillRate : Q) (now : Z) : TokenBucket :=
  mkTokenBucket capacity refillRate capacity now.

(** [func (tb *TokenBucket) refill()]. *)
Definition refill (now : Z) (tb : TokenBucket) : TokenBucket :=
  let duration := (now - lastRefillTime tb)%Z in
  let tokensToAdd := Seconds duration * refillRate tb in
  let tokens' :=
    if Qlt_bool (tokens tb) (capacity tb) then
      let t := tokens tb + tokensToAdd in
      if Qlt_bool (capacity tb) t then capacity tb else t
    else tokens tb in
  mkTokenBucket (capacity tb) (refillRate tb) tokens' now.

(** [Allow]: the key is ignored; the error result is always nil. *)
Definition Allow (key : string) (now : Z) (tb : TokenBucket)
  : bool * TokenBucket :=
  let tb := refill now tb in
  if Qle_bool 1 (tokens tb)
  then (true, with_tokens tb (tokens tb - 1))
  else (false, tb).

(** [Available]: refills (and stores the refilled state), returns tokens. *)
Definition Available (now : Z) (tb : TokenBucket) : Q * TokenBucket :=
  let tb := refill now tb in (tokens tb, tb).

(** [Refill]: adds, without a cap and without a natural refill. *)
Definition Refill (key : string) (n : Q) (tb : TokenBucket) : TokenBucket :=
  with_tokens tb (tokens tb + n).

End memory.

(** A Go [(T, error)] result. *)
Inductive result (A : Type) : Type :=
| Ok (a : A)
| Err (e : string).
Arguments Ok {A} a.
Arguments Err {A} e.

(** ** pkg/ratelimit/redis: the Redis-backed token bucket *)

Module redis.

(** The part of the store the scripts touch.  A key holds a hash (field to
    number; Lua numbers written by HSET/HMSET are read back by [tonumber]
    unchanged) and the time it has left to live, in milliseconds, counted
    down by the store's own clock ([elapse]); [None] is a key without an
    expiry. *)
Record entry := mkEntry {
  fields : gmap string Q;
  expiry : option Z
}.

Definition HGET (db : gmap string entry) (key field : string) : option Q :=
  match db !! key with
  | Some e => fields e !! field
  | None => None
  end.

(** HSET creates the key when it is missing; a new key has no expiry, an
    existing one keeps the one it has. *)
Definition HSET (key field : string) (v : Q) (db : gmap string entry)
  : gmap string entry :=
  match db !! key with
  | Some e => <[key := mkEntry (<[field := v]> (fields e)) (expiry e)]> db
  | None => <[key := mkEntry {[field := v]} None]> db
  end.

Fixpoint HMSET (key : string) (fvs : list (string * Q))
  (db : gmap string entry) : gmap string entry :=
  match fvs with
  | [] => db
  | (f, v) :: rest => HMSET key rest (HSET key f v db)
  end.

(** EXPIRE with a whole number of seconds; it only acts on an existing
    key.  A key given no time, or less, is left with nothing to live on and
    is gone at the next tick of the store's clock, however short. *)
Definition EXPIRE (key : string) (secs : Z) (db : gmap string entry)
  : gmap string entry :=
  match db !! key with
  | Some e => <[key := mkEntry (fields e) (Some (secs * 1000)%Z)]> db
  | None => db
  end.

(** The store's own clock advances by [ms] milliseconds: every key with an
    expiry has that much less to live, and a key with nothing left is gone,
    hash and all. *)
Definition elapse (ms : Z) (db : gmap string entry) : gmap string entry :=
  omap (fun e =>
          match expiry e with
          | Some togo =>
              if (togo <=? ms)%Z then None
              else Some (mkEntry (fields e) (Some (togo - ms)%Z))
          | None => Some e
          end) db.

(** The error of [redis.call("EXPIRE", key, x)] when [x] is not a whole
    number. *)
Definition expire_error : string :=
  "ERR value is not an integer or out of range".

(** The reply Redis makes of a Lua number: its integer part (the fraction is
    dropped, towards zero). *)
Definition integer_reply (x : Q) : Z :=
  if Qle_bool 0 x then Qfloor x else Qceiling x.

Section Scripts.

(** Division on float64, [a / b] for [b] other than zero, as the machine
    rounds it.  The counts of the scripts are exact (the convention of this
    file); the two quotients that are rounded to something else afterwards
    are kept as computed: the clock [float64(UnixMicro()) / 1e6] and the
    [capacity / refill_rate] that the scripts round up to whole seconds.
    The examples of this file take the exact quotient for it, at operands
    whose quotient float64 holds exactly. *)
Variable fdiv : Q -> Q -> Q.

(** [math.ceil(capacity / refill_rate) + 1].  At a rate of zero the quotient
    is [inf] (or [nan]), which is no whole number: [None]. *)
Definition idle_expiry (capacity refill_rate : Q) : option Z :=
  if Qeq_bool refill_rate 0 then None
  else Some (Qceiling (fdiv capacity refill_rate) + 1)%Z.

(** How both branches of a script end:
    [redis.call("EXPIRE", key, math.ceil(capacity / refill_rate) + 1)] and
    [return reply].  A call that fails aborts the script: EVAL answers the
    error, and what the script wrote before stays written. *)
Definition expire_and_return {A : Type} (key : string)
  (capacity refill_rate : Q) (reply : A) (db : gmap string entry)
  : result A * gmap string entry :=
  match idle_expiry capacity refill_rate with
  | Some secs => (Ok reply, EXPIRE key secs db)
  | None => (Err expire_error, db)
  end.

(** The Lua script of [NewTokenBucket]: atomic refill and consume.
    KEYS[1] = key, ARGV = capacity, refill_rate, now. *)
Definition allow_script (key : string) (capacity refill_rate now : Q)
  (db : gmap string entry) : result Z * gmap string entry :=
  let tokens := default capacity (HGET db key "tokens") in
  let last_refill := default now (HGET db key "last_refill") in
  let elapsed := now - last_refill in
  let tokens :=
    if Qlt_bool tokens capacity then
      let t := tokens + elapsed * refill_rate in
      if Qlt_bool capacity t then capacity else t
    else tokens in
  if Qle_bool 1 tokens then
    let tokens := tokens - 1 in
    let db := HMSET key [("tokens"%string, tokens);
                         ("last_refill"%string, now)] db in
    expire_and_return key capacity refill_rate 1%Z db
  else
    let db := HMSET key [("tokens"%string, tokens);
                         ("last_refill"%string, now)] db in
    expire_and_return key capacity refill_rate 0%Z db.

(** The Lua script of [Refill].  ARGV = tokens_to_add, capacity, refill_rate.
    It returns [{current, new_tokens}], which the caller only logs. *)
Definition refill_script (key : string) (tokens_to_add capacity refill_rate : Q)
  (db : gmap string entry) : result (Q * Q) * gmap string entry :=
  let current := default capacity (HGET db key "tokens") in
  let new_tokens := current + tokens_to_add in
  let db := HSET key "tokens" new_tokens db in
  expire_and_return key capacity refill_rate (current, new_tokens) db.

(** The Lua script of [Available].  It writes nothing: no HSET, no EXPIRE. *)
Definition available_script (key : string) (capacity refill_rate now : Q)
  (db : gmap string entry) : Q :=
  match HGET db key "tokens" with
  | None => capacity
  | Some tokens =>
      match HGET db key "last_refill" with
      | Some last_refill =>
          if Qlt_bool tokens capacity then
            let elapsed := now - last_refill in
            let t := tokens + elapsed * refill_rate in
            if Qlt_bool capacity t then capacity else t
          else tokens
      | None => tokens
      end
  end.

(** [type TokenBucket struct]: the configuration; the buckets live in the
    store. *)
Record TokenBucket := mkTokenBucket {
  capacity : Q;
  refillRate : Q;
  keyPrefix : string
}.

Record Config := mkConfig {
  Capacity : Q;
  RefillRate : Q;
  KeyPrefix : string
}.

Definition NewTokenBucket (cfg : Config) : TokenBucket :=
  let prefix :=
    if String.eqb (KeyPrefix cfg) "" then "ratelimit:"%string
    else KeyPrefix cfg in
  mkTokenBucket (Capacity cfg) (RefillRate cfg) prefix.

(** [float64(time.Now().UnixMicro()) / 1e6]: the clock in microseconds
    (exact in float64) divided by 1e6 in float64. *)
Definition unix_seconds (now : Z) : Q :=
  fdiv (inject_Z (now / 1000)) 1000000.

(** The Go wrappers; [now] is the caller's clock in nanoseconds.  An error
    of the script is returned as it is; a client error (store unreachable)
    is outside the model. *)
Definition Allow (r : TokenBucket) (key : string) (now : Z)
  (db : gmap string entry) : result bool * gmap string entry :=
  let fullKey := (keyPrefix r ++ key)%string in
  let '(result, db) :=
    allow_script fullKey (capacity r) (refillRate r) (unix_seconds now) db in
  match result with
  | Err err => (Err err, db)
  | Ok result => (Ok (result =? 1)%Z, db)
  end.

Definition Refill (r : TokenBucket) (key : string) (tokens : Q)
  (db : gmap string entry) : result unit * gmap string entry :=
  let fullKey := (keyPrefix r ++ key)%string in
  let '(result, db) :=
    refill_script fullKey tokens (capacity r) (refillRate r) db in
  match result with
  | Err err => (Err err, db)
  | Ok _ => (Ok tt, db)
  end.

(** [Available] reads the script's answer with [Float64()]: the integer
    Redis made of it. *)
Definition Available (r : TokenBucket) (key : string) (now : Z)
  (db : gmap string entry) : Q :=
  let fullKey := (keyPrefix r ++ key)%string in
  inject_Z (integer_reply
              (available_script fullKey (capacity r) (refillRate r)
                 (unix_seconds now) db)).

End Scripts.

End redis.

(** ** pkg/ratelimit/redis, the earlier file: Allow without burst tokens *)

Module redis_v1.

(** The Lua script of the earlier [NewTokenBucket]: it caps at the capacity
    on every call ([math.min]). *)
Definition allow_script (fdiv : Q -> Q -> Q) (key : string)
  (capacity refill_rate now : Q)
  (db : gmap string redis.entry) : result Z * gmap string redis.entry :=
  let tokens := default capacity (redis.HGET db key "tokens") in
  let last_refill := default now (redis.HGET db key "last_refill") in
  let elapsed := now - last_refill in
  let tokens := Qmin capacity (tokens + elapsed * refill_rate) in
  if Qle_bool 1 tokens then
    let tokens := tokens - 1 in
    let db := redis.HMSET key [("tokens"%string, tokens);
                               ("last_refill"%string, now)] db in
    redis.expire_and_return fdiv key capacity refill_rate 1%Z db
  else
    let db := redis.HMSET key [("tokens"%string, tokens);
                               ("last_refill"%string, now)] db in
    redis.expire_and_return fdiv key capacity refill_rate 0%Z db.

End redis_v1.

(** ** pkg/trust: the sliding-window trust tracker *)

Module trust.

Definition Hour : Z := 3600000000000.

Record Config := mkConfig {
  Threshold : Z;   (* successful payments needed to become trusted *)
  Window : Z       (* duration, nanoseconds *)
}.

Record Tracker := mkTracker {
  payments : gmap string (list Z);   (* wallet address to payment timestamps *)
  config : Config
}.

Definition New (cfg : Config) : Tracker :=
  let th := if (Threshold cfg <=? 0)%Z then 3%Z else Threshold cfg in
  let w := if (Window cfg <=? 0)%Z then Hour else Window cfg in
  mkTracker ∅ (mkConfig th w).

(** [ts.After(cutoff)]. *)
Definition After (ts cutoff : Z) : bool := (cutoff <? ts)%Z.

(** A missing map key reads as the nil slice. *)
Definition history (t : Tracker) (wallet : string) : list Z :=
  default [] (payments t !! wallet).

(** [countRecent]: the loop is a left fold over the slice. *)
Definition countRecent (now : Z) (t : Tracker) (wallet : string) : Z :=
  let cutoff := (now + - Window (config t))%Z in
  fold_left (fun count ts => if After ts cutoff then (count + 1)%Z else count)
            (history t wallet) 0%Z.

Definition IsTrusted (now : Z) (t : Tracker) (wallet : string) : bool :=
  (Threshold (config t) <=? countRecent now t wallet)%Z.

(** [cleanup]: keeps the timestamps after the cutoff, in order. *)
Definition cleanup (now : Z) (wallet : string) (t : Tracker) : Tracker :=
  let cutoff := (now + - Window (config t))%Z in
  let kept := List.filter (fun ts => After ts cutoff) (history t wallet) in
  mkTracker (<[wallet := kept]> (payments t)) (config t).

(** [RecordSuccess]: [now] is the appended timestamp, [now'] the clock read
    by [cleanup] right after. *)
Definition RecordSuccess (now now' : Z) (wallet : string) (t : Tracker)
  : Tracker :=
  let t1 := mkTracker (<[wallet := history t wallet ++ [now]]> (payments t))
                      (config t) in
  cleanup now' wallet t1.

Definition RecordFailure (wallet : string) (t : Tracker) : Tracker :=
  mkTracker (delete wallet (payments t)) (config t).

Definition RecentPayments (now : Z) (t : Tracker) (wallet : string) : Z :=
  countRecent now t wallet.

(** [type Stats struct]. *)
Record Stats := mkStats {
  TrustedWallets : Z;
  TotalWalletsSeen : Z
}.

(** [func (t *Tracker) Stats()]: the loop over the map is a fold (its result
    does not depend on the iteration order); [clock wallet] is the clock that
    [countRecent] reads in the iteration for [wallet]. *)
Definition Tracker_Stats (clock : string -> Z) (t : Tracker) : Stats :=
  let trusted :=
    map_fold
      (fun wallet (_ : list Z) trusted =>
         if (Threshold (config t) <=? countRecent (clock wallet) t wallet)%Z
         then (trusted + 1)%Z else trusted)
      0%Z (payments t) in
  mkStats trusted (Z.of_nat (size (payments t))).

End trust.

(** ** pkg/ratelimit: the [Limiter] interface *)

(** [type Limiter interface]: [Allow] and [Refill], here state passing over
    the limiter's storage [L].  [Allow] reads the clock. *)
Class Limiter (L : Type) := {
  limAllow : string -> Z -> L -> result bool * L;
  limRefill : string -> Q -> L -> result unit * L
}.

#[export] Instance memory_Limiter : Limiter memory.TokenBucket := {
  limAllow key now tb :=
    let '(ok, tb') := memory.Allow key now tb in (Ok ok, tb');
  limRefill key n tb := (Ok tt, memory.Refill key n tb)
}.


(** ** cmd/server: settlement queue and admission middleware *)

Module server.

Definition Second : Z := 1000000000.

(** What the facilitator answers to [ProcessSettlement]. *)
Record SettleResult := mkSettleResult {
  Success : bool;
  Transaction : string;
  ErrorReason : string
}.

(** An HTTP response prepared by the x402 server. *)
Record HTTPResponse := mkHTTPResponse {
  Status : Z;
  Headers : list (string * string);
  Body : string
}.

Section Server.

(** The payment payload and requirements are opaque x402 values. *)
Context {Payload Requirements : Type}.

(** What [ProcessHTTPRequest] answers: the payment is verified, or it is not
    and a response may come with the answer. *)
Inductive HTTPProcessResult :=
| ResultPaymentVerified (p : Payload) (r : Requirements)
| ResultNotVerified (resp : option HTTPResponse).

Record SettlementJob := mkSettlementJob {
  PaymentPayload : Payload;
  PaymentRequirements : Requirements;
  WalletAddr : string;
  QueuedAt : Z
}.

(** One settlement as the worker ran it. *)
Record Settled := mkSettled {
  sJob : SettlementJob;
  sSlept : Z;        (* time slept before it; 0 when the sleep was skipped *)
  sStart : Z;        (* processSettlement entered *)
  sFinish : Z;       (* processSettlement returned *)
  sResult : SettleResult
}.

(** [type SettlementQueue struct].  [jobs] is the buffered channel, oldest
    first; [first] and [wclock] are the worker goroutine's local flag and the
    time its last iteration ended; [settled] is a ghost record of the calls to
    [processSettlement], oldest first.  The tracker the queue points to is the
    one of the middleware and lives in [World]. *)
Record SettlementQueue := mkSettlementQueue {
  jobs : list SettlementJob;
  bufferSize : nat;
  pending : Z;
  first : bool;
  wclock : Z;
  settled : list Settled
}.

Definition NewSettlementQueue (bufferSize : Z) (now : Z) : SettlementQueue :=
  let bufferSize := if (bufferSize <=? 0)%Z then 100%Z else bufferSize in
  mkSettlementQueue [] (Z.to_nat bufferSize) 0 true now [].

(** The server's shared state: the limiter, the trust tracker (nil when
    optimistic settlement is off) and the settlement queue (nil likewise). *)
Record World (L : Type) := mkWorld {
  limiter : L;
  trustTracker : option trust.Tracker;
  settlementQueue : option SettlementQueue
}.
Arguments mkWorld {L} _ _ _.
Arguments limiter {L} _.
Arguments trustTracker {L} _.
Arguments settlementQueue {L} _.

(** [Enqueue]: counts the job as pending, stamps it and sends it on the
    channel.  The send needs a free slot; [None] is the caller blocked on a
    full channel.  The counter and the send are one step here: the state in
    which a sender has counted its job and not yet sent it is not a state of
    this model, and neither is the counter of a parked sender. *)
Definition Enqueue (job : SettlementJob) (now : Z) (sq : SettlementQueue)
  : option SettlementQueue :=
  let pending' := (pending sq + 1)%Z in
  let job := mkSettlementJob (PaymentPayload job) (PaymentRequirements job)
                             (WalletAddr job) now in
  if (length (jobs sq) <? bufferSize sq)%nat
  then Some (mkSettlementQueue (jobs sq ++ [job]) (bufferSize sq) pending'
                               (first sq) (wclock sq) (settled sq))
  else None.

Definition Pending (sq : SettlementQueue) : Z := pending sq.

(** [processSettlement]: the facilitator's answer [res] decides the trust
    update; [now] is the clock when the answer arrives. *)
Definition processSettlement (job : SettlementJob) (res : SettleResult)
  (now : Z) (tr : option trust.Tracker) : option trust.Tracker :=
  if Success res then
    match tr with
    | Some t => Some (trust.RecordSuccess now now (WalletAddr job) t)
    | None => None
    end
  else
    match tr with
    | Some t => Some (trust.RecordFailure (WalletAddr job) t)
    | None => None
    end.

(** What the environment contributes to one iteration of the worker loop:
    the time spent blocked on the channel, the time [time.Sleep] overshoots
    its argument, the facilitator's answer and how long it took. *)
Record WorkerEnv := mkWorkerEnv {
  idle : Z;
  oversleep : Z;
  settleAnswer : SettleResult;
  settleTime : Z
}.

(** One iteration of [for job := range sq.jobs] in [worker]; [None] when the
    channel is empty (the worker stays blocked in the receive).  The whole
    iteration is one step, placed at its receive: the job leaves the
    channel, is settled and is counted off [pending] at once.  The order of
    the settlements, their times and the trust updates are those of the
    code; [jobs] and [pending] are the code's only between iterations, where
    no sender is between its count and its send. *)
Definition worker_iter {L} (e : WorkerEnv) (w : World L) : option (World L) :=
  match settlementQueue w with
  | None => None
  | Some sq =>
      match jobs sq with
      | [] => None
      | job :: rest =>
          let received := (wclock sq + idle e)%Z in
          let slept :=
            if negb (first sq) then (3 * Second + oversleep e)%Z else 0%Z in
          let start := (received + slept)%Z in
          let finish := (start + settleTime e)%Z in
          let tr := processSettlement job (settleAnswer e) finish
                                      (trustTracker w) in
          let sq' :=
            mkSettlementQueue rest (bufferSize sq) (pending sq - 1) false finish
              (settled sq ++ [mkSettled job slept start finish (settleAnswer e)]) in
          Some (mkWorld (limiter w) tr (Some sq'))
      end
  end.

(** *** extractWalletAddress *)

(** The library functions it calls: [base64.StdEncoding.DecodeString],
    [base64.URLEncoding.DecodeString], [json.Unmarshal] into the anonymous
    struct (the answer is its [Payload.Authorization.From] field, the empty
    string when the field is absent) and [strings.ToLower]. *)
Variable StdDecodeString : string -> result string.
Variable URLDecodeString : string -> result string.
Variable UnmarshalFrom : string -> result string.
Variable ToLower : string -> string.

Definition extractWalletAddress (paymentHeader : string) : string :=
  if String.eqb paymentHeader "" then ""%string
  else
    let decoded :=
      match StdDecodeString paymentHeader with
      | Ok d => Ok d
      | Err _ => URLDecodeString paymentHeader
      end in
    match decoded with
    | Err _ => ""%string
    | Ok decoded =>
        match UnmarshalFrom decoded with
        | Err _ => ""%string
        | Ok from => ToLower from
        end
    end.

(** *** hybridRateLimitPaymentMiddleware *)

Record Request := mkRequest {
  ClientIP : string;
  Path : string;
  Method : string;
  PaymentSignature : string;   (* header PAYMENT-SIGNATURE, empty when absent *)
  XPayment : string            (* header X-PAYMENT, empty when absent *)
}.

(** What the environment contributes to one request: the clock at each
    reading and the answers of the x402 server and the facilitator. *)
Record RequestEnv := mkRequestEnv {
  tAllow : Z;
  tTrust : Z;
  tRecord : Z;
  tCleanup : Z;
  tEnqueue : Z;
  httpAnswer : HTTPProcessResult;
  settleResult : SettleResult
}.

(** How the handler leaves the request. *)
Inductive Outcome :=
| Next                                               (* c.Next() *)
| AbortJSON (status : Z) (body : list (string * string))
| AbortWith (resp : HTTPResponse)                    (* the x402 response *)
| BlockedOnQueue.                                    (* parked in Enqueue *)

(** The calls that change or consult something outside the handler. *)
Inductive Call :=
| CallAllow | CallVerify | CallIsTrusted | CallSettle
| CallRefill (n : Q) | CallRecordSuccess (wallet : string)
| CallEnqueue (wallet : string).

Definition paymentRequired (msg : string) : Outcome :=
  AbortJSON 402 [("error", "Payment Required"); ("message", msg)]%string.

Definition hybridRateLimitPaymentMiddleware {L} `{Limiter L} (capacity : Q)
  (req : Request) (e : RequestEnv) (w : World L)
  : Outcome * World L * list Call :=
  let key := ClientIP req in
  let '(allowed, lim) := limAllow key (tAllow e) (limiter w) in
  let w := mkWorld lim (trustTracker w) (settlementQueue w) in
  match allowed with
  | Err _ =>
      (AbortJSON 500 [("error", "Rate limiter error")]%string, w, [CallAllow])
  | Ok true => (Next, w, [CallAllow])
  | Ok false =>
      let paymentHeader :=
        if String.eqb (PaymentSignature req) "" then XPayment req
        else PaymentSignature req in
      if String.eqb paymentHeader "" then
        match httpAnswer e with
        | ResultNotVerified (Some resp) =>
            (AbortWith resp, w, [CallAllow; CallVerify])
        | _ =>
            (paymentRequired "Rate limit exceeded. Pay to refill your quota.",
             w, [CallAllow; CallVerify])
        end
      else
        match httpAnswer e with
        | ResultPaymentVerified payload reqs =>
            let walletAddr := extractWalletAddress paymentHeader in
            let trusted :=
              match trustTracker w, settlementQueue w with
              | Some t, Some sq =>
                  if trust.IsTrusted (tTrust e) t walletAddr then Some sq
                  else None
              | _, _ => None
              end in
            let consulted :=
              match trustTracker w, settlementQueue w with
              | Some _, Some _ => [CallIsTrusted]
              | _, _ => []
              end in
            match trusted with
            | Some sq =>
                (* OPTIMISTIC: refill immediately, settle via the queue *)
                let '(r, lim) := limRefill key capacity (limiter w) in
                let w := mkWorld lim (trustTracker w) (settlementQueue w) in
                let calls := [CallAllow; CallVerify] ++ consulted
                               ++ [CallRefill capacity] in
                match r with
                | Err _ =>
                    (AbortJSON 500 [("error", "Refill error")]%string, w, calls)
                | Ok _ =>
                    let job := mkSettlementJob payload reqs walletAddr 0 in
                    match Enqueue job (tEnqueue e) sq with
                    | Some sq' =>
                        (Next, mkWorld lim (trustTracker w) (Some sq'),
                         calls ++ [CallEnqueue walletAddr])
                    | None =>
                        (BlockedOnQueue, w, calls ++ [CallEnqueue walletAddr])
                    end
                end
            | None =>
                (* SYNCHRONOUS: not trusted, settle before responding *)
                let settled := settleResult e in
                let calls := [CallAllow; CallVerify] ++ consulted
                               ++ [CallSettle] in
                if Success settled then
                  let '(r, lim) := limRefill key capacity (limiter w) in
                  let w := mkWorld lim (trustTracker w) (settlementQueue w) in
                  match r with
                  | Err _ =>
                      (AbortJSON 500 [("error", "Refill error")]%string, w,
                       calls ++ [CallRefill capacity])
                  | Ok _ =>
                      match trustTracker w with
                      | Some t =>
                          let t' := trust.RecordSuccess (tRecord e) (tCleanup e)
                                      walletAddr t in
                          (Next, mkWorld lim (Some t') (settlementQueue w),
                           calls ++ [CallRefill capacity;
                                     CallRecordSuccess walletAddr])
                      | None =>
                          (Next, w, calls ++ [CallRefill capacity])
                      end
                  end
                else
                  (AbortJSON 402 [("error", "Settlement failed");
                                  ("reason", ErrorReason settled)]%string,
                   w, calls)
            end
        | ResultNotVerified (Some resp) =>
            (AbortWith resp, w, [CallAllow; CallVerify])
        | ResultNotVerified None =>
            (paymentRequired "Invalid payment or rate limit exceeded.",
             w, [CallAllow; CallVerify])
        end
  end.

End Server.

Arguments mkWorld {Payload Requirements L} _ _ _.
Arguments limiter {Payload Requirements L} _.
Arguments trustTracker {Payload Requirements L} _.
Arguments settlementQueue {Payload Requirements L} _.

(** [truncateWallet]: a wallet address shortened for the log; [len] and
    the slices count bytes. *)
Definition truncateWallet (wallet : string) : string :=
  if (String.length wallet <=? 10)%nat then wallet
  else (String.substring 0 6 wallet ++ "..."
        ++ String.substring (String.length wallet - 4) 4 wallet)%string.

(** How a middleware without payments leaves the request. *)
Inductive PlainOutcome :=
| Forwarded                                   (* next.ServeHTTP / c.Next() *)
| ReplyText (status : Z) (headers : list (string * string)) (text : string)
| ReplyJSON (status : Z) (headers : list (string * string))
            (body : list (string * string)).

(** [simpleRateLimitMiddleware] of cmd/server. *)
Definition simpleRateLimitMiddleware {L} `{Limiter L} (clientIP : string)
  (now : Z) (lim : L) : PlainOutcome * L :=
  let '(allowed, lim) := limAllow clientIP now lim in
  match allowed with
  | Err _ => (ReplyJSON 500 [] [("error", "Rate limiter error")]%string, lim)
  | Ok false =>
      (ReplyJSON 429 [("Retry-After", "1")]%string
         [("error", "Too Many Requests")]%string, lim)
  | Ok true => (Forwarded, lim)
  end.

End server.

(** ** internal/handlers: the CPU endpoint *)

Module handlers.

(** Arithmetic on [uint64] wraps. *)
Definition u64 (z : Z) : Z := (z mod 2 ^ 64)%Z.

Section CPU.

(** The value [strconv.ParseUint(s, 10, 64)] returns; [readCPUStat] drops
    its error. *)
Variable ParseUint : string -> Z.

(** The loop of [readCPUStat] from index [i] on: every field is added to
    [total], the field at index 4 is [idle]. *)
Fixpoint sumFields (i : nat) (fields : list string) (idle total : Z)
  : Z * Z :=
  match fields with
  | [] => (idle, total)
  | f :: rest =>
      let val := ParseUint f in
      sumFields (S i) rest (if Nat.eqb i 4 then val else idle)
        (u64 (total + val))
  end.

(** [readCPUStat] on what [os.ReadFile] returned; a file that was read is
    given by [strings.Fields] of its first line.  The loop starts at index 1,
    after the label "cpu". *)
Definition readCPUStat (file : result (list string)) : result (Z * Z) :=
  match file with
  | Err e => Err e
  | Ok fields =>
      if (length fields <? 5)%nat then Ok (0%Z, 0%Z)
      else Ok (sumFields 1 (tl fields) 0%Z 0%Z)
  end.

(** [getCPUUtilization]: two reads 50 ms apart; the differences are taken
    in [uint64], the quotient in [float64], here exact. *)
Definition getCPUUtilization (file1 file2 : result (list string))
  : result Q :=
  match readCPUStat file1 with
  | Err e => Err e
  | Ok (idle1, total1) =>
      match readCPUStat file2 with
      | Err e => Err e
      | Ok (idle2, total2) =>
          let idleDelta := u64 (idle2 - idle1) in
          let totalDelta := u64 (total2 - total1) in
          if (totalDelta =? 0)%Z then Ok 0
          else Ok ((1 - inject_Z idleDelta / inject_Z totalDelta) * 100)
      end
  end.

End CPU.

End handlers.

(** ** internal/middleware: rate limiting without payments *)

Module middleware.

(** [RateLimitMiddleware]: the key is the request's [RemoteAddr]. *)
Definition RateLimitMiddleware {L} `{Limiter L} (remoteAddr : string)
  (now : Z) (lim : L) : server.PlainOutcome * L :=
  let '(allowed, lim) := limAllow remoteAddr now lim in
  match allowed with
  | Err _ => (server.ReplyText 500 [] "Rate limiter error", lim)
  | Ok false =>
      (server.ReplyText 429 [("Retry-After", "1")]%string "Too Many Requests",
       lim)
  | Ok true => (server.Forwarded, lim)
  end.

(** [GinRateLimitMiddleware]: a rejected request is answered 402. *)
Definition GinRateLimitMiddleware {L} `{Limiter L} (clientIP : string)
  (now : Z) (lim : L) : server.PlainOutcome * L :=
  let '(allowed, lim) := limAllow clientIP now lim in
  match allowed with
  | Err _ =>
      (server.ReplyJSON 500 [] [("error", "Rate limiter error")]%string, lim)
  | Ok false =>
      (server.ReplyJSON 402 []
         [("error", "Rate limit exceeded");
          ("message", "Pay to refill your token bucket")]%string, lim)
  | Ok true => (server.Forwarded, lim)
  end.

End middleware.

(** ** Vocabulary of the properties *)

(** The natural-refill rule in the words of the specification: with
    [delta = now - last_refill] in seconds, a bucket below capacity moves to
    [min(capacity, tokens + delta * refill_rate)], any other is unchanged. *)
Definition natural_refill_rule (capacity refill_rate tokens delta : Q) : Q :=
  if Qlt_bool tokens capacity
  then Qmin capacity (tokens + delta * refill_rate)
  else tokens.

(** A run of [Allow] calls on the in-process bucket, one per clock reading;
    the answers in call order and the bucket left behind. *)
Fixpoint allow_run (key : string) (ts : list Z) (tb : memory.TokenBucket)
  : list bool * memory.TokenBucket :=
  match ts with
  | [] => ([], tb)
  | t :: rest =>
      let '(ok, tb1) := memory.Allow key t tb in
      let '(oks, tb2) := allow_run key rest tb1 in
      (ok :: oks, tb2)
  end.

(** The limiter operations as data, what each one answers, and a run of
    operations against either back-end. *)
Inductive Op :=
| OpAllow (key : string) (now : Z)
| OpRefill (key : string) (n : Q)
| OpAvailable (key : string) (now : Z).

Inductive Obs :=
| Allowed (b : bool)
| Refilled
| Tokens (q : Q)
| Errored (err : string).

Definition memory_step (op : Op) (tb : memory.TokenBucket)
  : Obs * memory.TokenBucket :=
  match op with
  | OpAllow key now =>
      let '(b, tb') := memory.Allow key now tb in (Allowed b, tb')
  | OpRefill key n => (Refilled, memory.Refill key n tb)
  | OpAvailable _ now =>
      let '(q, tb') := memory.Available now tb in (Tokens q, tb')
  end.

Definition redis_step (fdiv : Q -> Q -> Q) (r : redis.TokenBucket) (op : Op)
  (db : gmap string redis.entry) : Obs * gmap string redis.entry :=
  match op with
  | OpAllow key now =>
      match redis.Allow fdiv r key now db with
      | (Ok b, db') => (Allowed b, db')
      | (Err err, db') => (Errored err, db')
      end
  | OpRefill key n =>
      match redis.Refill fdiv r key n db with
      | (Ok _, db') => (Refilled, db')
      | (Err err, db') => (Errored err, db')
      end
  | OpAvailable key now => (Tokens (redis.Available fdiv r key now db), db)
  end.

Fixpoint run {S : Type} (step : Op -> S -> Obs * S) (ops : list Op) (s : S)
  : list Obs * S :=
  match ops with
  | [] => ([], s)
  | op :: rest =>
      let '(o, s1) := step op s in
      let '(os, s2) := run step rest s1 in
      (o :: os, s2)
  end.






(** The writes to the trust tracker as data, and a run of them. *)
Inductive TrustOp :=
| Succeeded (wallet : string) (now now' : Z)   (* RecordSuccess *)
| Failed (wallet : string).                    (* RecordFailure *)

Definition trust_step (t : trust.Tracker) (op : TrustOp) : trust.Tracker :=
  match op with
  | Succeeded w now now' => trust.RecordSuccess now now' w t
  | Failed w => trust.RecordFailure w t
  end.

Definition trust_run (ops : list TrustOp) (t : trust.Tracker) : trust.Tracker :=
  fold_left trust_step ops t.

(** The successes recorded for [wallet], oldest first: every success since
    the wallet's last failure, on top of [acc]. *)
Fixpoint recorded (wallet : string) (ops : list TrustOp) (acc : list Z)
  : list Z :=
  match ops with
  | [] => acc
  | Succeeded w now _ :: rest =>
      recorded wallet rest (if String.eqb w wallet then acc ++ [now] else acc)
  | Failed w :: rest =>
      recorded wallet rest (if String.eqb w wallet then [] else acc)
  end.

(** The clock read by [cleanup] inside a recorded success. *)
Definition cleanup_clock (op : TrustOp) : option Z :=
  match op with
  | Succeeded _ _ now' => Some now'
  | Failed _ => None
  end.

(** How many of [l] are strictly newer than [cutoff]. *)
Definition newer_than (cutoff : Z) (l : list Z) : Z :=
  Z.of_nat (length (List.filter (fun ts => (cutoff <? ts)%Z) l)).

(** The life of the settlement queue as a schedule: producers enqueue, the
    worker runs one iteration of its loop.  An iteration is taken as one
    step: it only reads the head of the channel, which later sends do not
    touch. *)
Section QueueSchedule.

Context {Payload Requirements : Type}.

Inductive QueueEvent :=
| EvEnqueue (job : @server.SettlementJob Payload Requirements) (now : Z)
| EvWork (e : server.WorkerEnv).

Definition queue_step {L : Type} (w : server.World L) (ev : QueueEvent)
  : option (server.World L) :=
  match ev with
  | EvEnqueue job now =>
      match server.settlementQueue w with
      | Some sq =>
          match server.Enqueue job now sq with
          | Some sq' =>
              Some (server.mkWorld (server.limiter w) (server.trustTracker w)
                                   (Some sq'))
          | None => None
          end
      | None => None
      end
  | EvWork e => server.worker_iter e w
  end.

(** [None] when some step of the schedule is not enabled (a send on a full
    channel, a receive on an empty one). *)
Fixpoint queue_run {L : Type} (evs : list QueueEvent) (w : server.World L)
  : option (server.World L) :=
  match evs with
  | [] => Some w
  | ev :: rest =>
      match queue_step w ev with
      | Some w1 => queue_run rest w1
      | None => None
      end
  end.

(** The jobs sent on the channel, in send order, as stamped by [Enqueue]. *)
Fixpoint enqueued (evs : list QueueEvent)
  : list (@server.SettlementJob Payload Requirements) :=
  match evs with
  | [] => []
  | EvEnqueue job now :: rest =>
      server.mkSettlementJob (server.PaymentPayload job)
        (server.PaymentRequirements job) (server.WalletAddr job) now
      :: enqueued rest
  | EvWork _ :: rest => enqueued rest
  end.

(** The time passes forward: no negative wait, oversleep or settlement. *)
Definition forward (ev : QueueEvent) : Prop :=
  match ev with
  | EvEnqueue _ _ => True
  | EvWork e =>
      (0 <= server.idle e)%Z /\ (0 <= server.oversleep e)%Z /\
      (0 <= server.settleTime e)%Z
  end.

(** Each settlement starts at least [delay] after the one before it ended. *)
Fixpoint spaced (delay : Z)
  (l : list (@server.Settled Payload Requirements)) : Prop :=
  match l with
  | a :: (b :: _) as rest =>
      (server.sFinish a + delay <= server.sStart b)%Z /\ spaced delay rest
  | _ => True
  end.

(** No sleep before the first settlement, at least [delay] before each of
    the others. *)
Definition slept_between (delay : Z)
  (l : list (@server.Settled Payload Requirements)) : Prop :=
  match l with
  | [] => True
  | a :: rest =>
      server.sSlept a = 0%Z /\
      Forall (fun s => (delay <= server.sSlept s)%Z) rest
  end.

End QueueSchedule.

(** Requests served one after the other by the payment middleware. *)
Section Serving.

Context {Payload Requirements L : Type} `{Limiter L}.
Variable StdDecodeString URLDecodeString UnmarshalFrom
  : string -> result string.
Variable ToLower : string -> string.

Fixpoint serve (capacity : Q)
  (reqs : list (server.Request * @server.RequestEnv Payload Requirements))
  (w : @server.World Payload Requirements L)
  : list server.Outcome * @server.World Payload Requirements L :=
  match reqs with
  | [] => ([], w)
  | (req, e) :: rest =>
      let '(out, w1, _) :=
        server.hybridRateLimitPaymentMiddleware StdDecodeString
          URLDecodeString UnmarshalFrom ToLower capacity req e w in
      let '(outs, w2) := serve capacity rest w1 in
      (out :: outs, w2)
  end.

End Serving.

(** [strings.ToLower] on ASCII text, which is what a wallet address is. *)
Definition lower_ascii (c : Ascii.ascii) : Ascii.ascii :=
  let n := Ascii.nat_of_ascii c in
  if ((65 <=? n) && (n <=? 90))%nat then Ascii.ascii_of_nat (n + 32) else c.

Fixpoint lower_string (s : string) : string :=
  match s with
  | EmptyString => EmptyString
  | String c rest => String (lower_ascii c) (lower_string rest)
  end.

(** The clock read by a limiter operation, when it reads one. *)
Definition op_clock (op : Op) : option Z :=
  match op with
  | OpAllow _ now | OpAvailable _ now => Some now
  | OpRefill _ _ => None
  end.

(** The clock never runs backwards along [ops], starting from [last]. *)
Fixpoint clock_forward (last : Z) (ops : list Op) : Prop :=
  match ops with
  | [] => True
  | op :: rest =>
      match op_clock op with
      | Some now => (last <= now)%Z /\ clock_forward now rest
      | None => clock_forward last rest
      end
  end.

(** A Refill of a non-negative amount, or no Refill. *)
Definition refill_nonneg (op : Op) : Prop :=
  match op with
  | OpRefill _ n => 0 <= n
  | _ => True
  end.

Definition not_refill (op : Op) : Prop :=
  match op with
  | OpRefill _ _ => False
  | _ => True
  end.

(** Clock readings far enough apart for one token to accrue between them. *)
Fixpoint paced (rate : Q) (last : Z) (ts : list Z) : Prop :=
  match ts with
  | [] => True
  | t :: rest => 1 <= Seconds (t - last) * rate /\ paced rate t rest
  end.

(** The trust updates of the settlements made so far, oldest first. *)
Definition settle_all {Payload Requirements : Type}
  (done : list (@server.Settled Payload Requirements))
  (tr : option trust.Tracker) : option trust.Tracker :=
  fold_left
    (fun tr s => server.processSettlement (server.sJob s) (server.sResult s)
                   (server.sFinish s) tr)
    done tr.

(** What a schedule keeps true of the counter, the buffer, the limiter and
    the tracker. *)
Definition queue_accounts {Payload Requirements L : Type}
  (lim : L) (tr : option trust.Tracker) (size : nat) (sent : nat)
  (w : @server.World Payload Requirements L) : Prop :=
  server.limiter w = lim /\
  exists sq : @server.SettlementQueue Payload Requirements,
    server.settlementQueue w = Some sq /\
    server.bufferSize sq = size /\
    server.pending sq = Z.of_nat (length (server.jobs sq)) /\
    (length (server.jobs sq) <= size)%nat /\
    (length (server.settled sq) + length (server.jobs sq) = sent)%nat /\
    server.trustTracker w = settle_all (server.settled sq) tr.

(** The header the handler works with: PAYMENT-SIGNATURE, else X-PAYMENT. *)
Definition payment_header (req : server.Request) : string :=
  if String.eqb (server.PaymentSignature req) ""
  then server.XPayment req else server.PaymentSignature req.

(** [strconv.ParseUint(s, 10, 64)]'s value: the number written in decimal
    digits, 0 on a syntax error, the largest [uint64] when out of range. *)
Definition digit (c : Ascii.ascii) : option Z :=
  let n := Z.of_N (Ascii.N_of_ascii c) in
  if ((48 <=? n) && (n <=? 57))%Z then Some (n - 48)%Z else None.

Fixpoint parse_digits (s : string) (acc : Z) : option Z :=
  match s with
  | EmptyString => Some acc
  | String c rest =>
      match digit c with
      | Some d => parse_digits rest (10 * acc + d)%Z
      | None => None
      end
  end.

Definition ParseUint10 (s : string) : Z :=
  match s with
  | EmptyString => 0%Z
  | _ =>
      match parse_digits s 0 with
      | Some v => if (v <? 2 ^ 64)%Z then v else (2 ^ 64 - 1)%Z
      | None => 0%Z
      end
  end.

(** Requests served one after the other by a middleware without payments
    over the in-process bucket; a request is its key and the clock reading
    of its Allow. *)
Fixpoint serve_plain
  (mw : string -> Z -> memory.TokenBucket
        -> server.PlainOutcome * memory.TokenBucket)
  (reqs : list (string * Z)) (tb : memory.TokenBucket)
  : list server.PlainOutcome * memory.TokenBucket :=
  match reqs with
  | [] => ([], tb)
  | (key, now) :: rest =>
      let '(o, tb1) := mw key now tb in
      let '(os, tb2) := serve_plain mw rest tb1 in
      (o :: os, tb2)
  end.

(** The Allow calls behind a list of requests. *)
Definition allow_ops (reqs : list (string * Z)) : list Op :=
  map (fun r => OpAllow (fst r) (snd r)) reqs.

Definition is_forwarded (o : server.PlainOutcome) : bool :=
  match o with
  | server.Forwarded => true
  | _ => false
  end.

Definition forwarded (outs : list server.PlainOutcome) : nat :=
  length (List.filter is_forwarded outs).

(** The sum of the counters on a line of /proc/stat. *)
Definition counters_sum (ParseUint : string -> Z) (fields : list string) : Z :=
  fold_right (fun f acc => (ParseUint f + acc)%Z) 0%Z fields.

(** The requests a run admitted, and the tokens its Refills paid in. *)
Fixpoint admitted (obs : list Obs) : nat :=
  match obs with
  | [] => 0
  | Allowed true :: rest => S (admitted rest)
  | _ :: rest => admitted rest
  end.

Fixpoint paid (ops : list Op) : Q :=
  match ops with
  | [] => 0
  | OpRefill _ n :: rest => n + paid rest
  | _ :: rest => paid rest
  end.

(** * Properties *)

(** ** Comparisons, seconds *)

Lemma Qlt_bool_iff x y : Qlt_bool x y = true <-> x < y.
Proof.
  unfold Qlt_bool. rewrite negb_true_iff.
  split.
  - intros H. apply Qnot_le_lt. intros Hle.
    apply Qle_bool_iff in Hle. congruence.
  - intros H. destruct (Qle_bool y x) eqn:E; [|reflexivity].
    apply Qle_bool_iff in E. exfalso. apply (Qlt_not_le _ _ H E).
Qed.

Lemma Qlt_bool_false_iff x y : Qlt_bool x y = false <-> y <= x.
Proof.
  unfold Qlt_bool. rewrite negb_false_iff. apply Qle_bool_iff.
Qed.

Lemma Qle_bool_false_iff x y : Qle_bool x y = false <-> y < x.
Proof.
  rewrite <- Qlt_bool_iff. unfold Qlt_bool.
  destruct (Qle_bool x y); simpl; split; congruence.
Qed.

Lemma Seconds_nonneg d : (0 <= d)%Z -> 0 <= Seconds d.
Proof. intros H. unfold Seconds, Qle. simpl. lia. Qed.

Lemma Seconds_0 : Seconds 0 == 0.
Proof. reflexivity. Qed.

Lemma Seconds_sub a b c :
  Seconds (c - a) == Seconds (c - b) + Seconds (b - a).
Proof. unfold Seconds, Qeq, Qplus. simpl. lia. Qed.


(** Branch analysis on the two boolean comparisons. *)
Ltac qcases :=
  repeat match goal with
  | |- context [Qlt_bool ?a ?b] =>
      let E := fresh "E" in
      destruct (Qlt_bool a b) eqn:E;
      [apply Qlt_bool_iff in E | apply Qlt_bool_false_iff in E]
  | |- context [Qle_bool ?a ?b] =>
      let E := fresh "E" in
      destruct (Qle_bool a b) eqn:E;
      [apply Qle_bool_iff in E | apply Qle_bool_false_iff in E]
  end.


Lemma cap_is_Qmin (c t : Q) : (if Qlt_bool c t then c else t) == Qmin c t.
Proof.
  qcases.
  - symmetry. apply Q.min_l. lra.
  - symmetry. apply Q.min_r. exact E.
Qed.

Lemma Qmin_cases (a b : Q) :
  (a <= b /\ Qmin a b == a) \/ (b <= a /\ Qmin a b == b).
Proof.
  destruct (Qlt_le_dec b a) as [H|H].
  - right. split; [lra|]. apply Q.min_r. lra.
  - left. split; [exact H|]. apply Q.min_l. exact H.
Qed.

(** ** The in-process bucket *)

Lemma refill_tokens now tb :
  memory.tokens (memory.refill now tb) ==
  natural_refill_rule (memory.capacity tb) (memory.refillRate tb)
    (memory.tokens tb) (Seconds (now - memory.lastRefillTime tb)).
Proof.
  unfold memory.refill, natural_refill_rule. simpl.
  destruct (Qlt_bool (memory.tokens tb) (memory.capacity tb)).
  - apply cap_is_Qmin.
  - reflexivity.
Qed.

Lemma refill_last now tb : memory.lastRefillTime (memory.refill now tb) = now.
Proof. reflexivity. Qed.

Lemma refill_config now tb :
  memory.capacity (memory.refill now tb) = memory.capacity tb /\
  memory.refillRate (memory.refill now tb) = memory.refillRate tb.
Proof. split; reflexivity. Qed.

(** The README's burst scenario on capacity 4, rate 4: a paid refill of a
    full bucket gives 8 tokens; a second later there are still 8; two
    requests leave 6; the bucket only grows again below capacity. *)
Example burst_tokens_are_kept :
  let tb := memory.Refill "client" 4 (memory.NewTokenBucket 4 4 0) in
  let tb1 := snd (memory.Available 1000000000 tb) in
  let tb2 := snd (memory.Allow "client" 1000000000
                    (snd (memory.Allow "client" 1000000000 tb1))) in
  fst (memory.Available 1000000000 tb) == 8 /\
  fst (memory.Available 2000000000 tb2) == 6.
Proof. split; vm_compute; reflexivity. Qed.

Example natural_refill_resumes_below_capacity :
  let tb := memory.mkTokenBucket 4 4 2 0 in
  fst (memory.Available 250000000 tb) == 3 /\
  fst (memory.Available 500000000 tb) == 4 /\
  fst (memory.Available 9000000000 tb) == 4.
Proof. repeat split; vm_compute; reflexivity. Qed.

(** ** The store primitives of the Redis scripts *)

Lemma lookup_HSET_ne key field v (db : gmap string redis.entry) key' :
  key <> key' -> redis.HSET key field v db !! key' = db !! key'.
Proof.
  intros Hne. unfold redis.HSET.
  destruct (db !! key); by rewrite lookup_insert_ne.
Qed.

Lemma lookup_EXPIRE_ne key secs (db : gmap string redis.entry) key' :
  key <> key' -> redis.EXPIRE key secs db !! key' = db !! key'.
Proof.
  intros Hne. unfold redis.EXPIRE.
  destruct (db !! key); [by rewrite lookup_insert_ne | done].
Qed.

Lemma lookup_HMSET_ne key fvs (db : gmap string redis.entry) key' :
  key <> key' -> redis.HMSET key fvs db !! key' = db !! key'.
Proof.
  intros Hne. revert db.
  induction fvs as [|[f v] rest IH]; intros db; simpl; [done|].
  rewrite IH. by apply lookup_HSET_ne.
Qed.

Lemma HGET_HSET_eq key field v (db : gmap string redis.entry) :
  redis.HGET (redis.HSET key field v db) key field = Some v.
Proof.
  unfold redis.HGET, redis.HSET.
  destruct (db !! key) as [e|]; rewrite lookup_insert_eq; simpl.
  - apply lookup_insert_eq.
  - apply lookup_singleton_eq.
Qed.

Lemma HGET_HSET_ne_field key field field' v (db : gmap string redis.entry) :
  field <> field' ->
  redis.HGET (redis.HSET key field v db) key field' = redis.HGET db key field'.
Proof.
  intros Hne. unfold redis.HGET, redis.HSET.
  destruct (db !! key) as [e|] eqn:E; rewrite lookup_insert_eq; simpl.
  - by rewrite lookup_insert_ne.
  - by rewrite lookup_singleton_ne.
Qed.

Lemma HGET_EXPIRE key secs (db : gmap string redis.entry) key' field :
  redis.HGET (redis.EXPIRE key secs db) key' field = redis.HGET db key' field.
Proof.
  unfold redis.HGET, redis.EXPIRE.
  destruct (db !! key) as [e|] eqn:E; [|done].
  destruct (decide (key = key')) as [<-|Hne].
  - rewrite lookup_insert_eq, E. done.
  - by rewrite lookup_insert_ne.
Qed.

(** After EXPIRE on an existing key the key has that long to live. *)
Lemma expiry_EXPIRE key secs (db : gmap string redis.entry) :
  is_Some (db !! key) ->
  redis.expiry <$> (redis.EXPIRE key secs db !! key)
  = Some (Some (secs * 1000)%Z).
Proof.
  intros [e He]. unfold redis.EXPIRE. rewrite He.
  by rewrite lookup_insert_eq.
Qed.

Lemma HSET_is_Some key field v (db : gmap string redis.entry) :
  is_Some (redis.HSET key field v db !! key).
Proof.
  unfold redis.HSET. destruct (db !! key); rewrite lookup_insert_eq; eauto.
Qed.

(** HSET leaves the expiry of a key the store holds, and gives none to a key
    it creates. *)
Lemma expiry_HSET key field v (db : gmap string redis.entry) :
  redis.expiry <$> (redis.HSET key field v db !! key)
  = Some (default None (redis.expiry <$> (db !! key))).
Proof.
  unfold redis.HSET.
  destruct (db !! key) as [e|]; rewrite lookup_insert_eq; reflexivity.
Qed.

(** Time passing: a key with no expiry, or with more time left than passes,
    keeps its hash; any other is gone. *)
Lemma lookup_elapse ms (db : gmap string redis.entry) key :
  redis.elapse ms db !! key =
  match db !! key with
  | Some e =>
      match redis.expiry e with
      | Some togo =>
          if (togo <=? ms)%Z then None
          else Some (redis.mkEntry (redis.fields e) (Some (togo - ms)%Z))
      | None => Some e
      end
  | None => None
  end.
Proof.
  unfold redis.elapse. rewrite lookup_omap.
  destruct (db !! key) as [e|]; reflexivity.
Qed.

Lemma HGET_elapse_kept ms (db : gmap string redis.entry) key e togo field :
  db !! key = Some e -> redis.expiry e = Some togo -> (ms < togo)%Z ->
  redis.HGET (redis.elapse ms db) key field = redis.HGET db key field.
Proof.
  intros He Hx Hlt. unfold redis.HGET. rewrite lookup_elapse, He, Hx.
  destruct (Z.leb_spec togo ms); [lia | reflexivity].
Qed.

Lemma lookup_elapse_gone ms (db : gmap string redis.entry) key e togo :
  db !! key = Some e -> redis.expiry e = Some togo -> (togo <= ms)%Z ->
  redis.elapse ms db !! key = None.
Proof.
  intros He Hx Hle. rewrite lookup_elapse, He, Hx.
  destruct (Z.leb_spec togo ms); [reflexivity | lia].
Qed.


(** The end of a script: the reply or the error, and the hash as written. *)
Lemma idle_expiry_Some fdiv cap rate :
  ~ rate == 0 ->
  redis.idle_expiry fdiv cap rate = Some (Qceiling (fdiv cap rate) + 1)%Z.
Proof.
  intros H. unfold redis.idle_expiry.
  destruct (Qeq_bool rate 0) eqn:E; [|reflexivity].
  apply Qeq_bool_iff in E. contradiction.
Qed.

Lemma idle_expiry_None fdiv cap rate :
  rate == 0 -> redis.idle_expiry fdiv cap rate = None.
Proof.
  intros H. unfold redis.idle_expiry.
  apply Qeq_bool_iff in H. rewrite H. reflexivity.
Qed.

Lemma expire_and_return_reply {A} fdiv key cap rate (reply : A) db :
  fst (redis.expire_and_return fdiv key cap rate reply db)
  = match redis.idle_expiry fdiv cap rate with
    | Some _ => Ok reply
    | None => Err redis.expire_error
    end.
Proof.
  unfold redis.expire_and_return.
  destruct (redis.idle_expiry fdiv cap rate); reflexivity.
Qed.

Lemma HGET_expire_and_return {A} fdiv key cap rate (reply : A) db key' field :
  redis.HGET (snd (redis.expire_and_return fdiv key cap rate reply db))
    key' field
  = redis.HGET db key' field.
Proof.
  unfold redis.expire_and_return.
  destruct (redis.idle_expiry fdiv cap rate); cbn [snd];
    [apply HGET_EXPIRE | reflexivity].
Qed.

Lemma lookup_expire_and_return_ne {A} fdiv key cap rate (reply : A) db key' :
  key <> key' ->
  snd (redis.expire_and_return fdiv key cap rate reply db) !! key'
  = db !! key'.
Proof.
  intros Hne. unfold redis.expire_and_return.
  destruct (redis.idle_expiry fdiv cap rate); cbn [snd];
    [apply lookup_EXPIRE_ne; exact Hne | reflexivity].
Qed.

(** What the Allow script leaves in the hash: both fields, written in both
    branches, whether or not the EXPIRE that follows goes through. *)
Lemma allow_script_fields fdiv key capacity refill_rate now db :
  let T := default capacity (redis.HGET db key "tokens") in
  let last := default now (redis.HGET db key "last_refill") in
  let T' := if Qlt_bool T capacity
            then (let t := T + (now - last) * refill_rate in
                  if Qlt_bool capacity t then capacity else t)
            else T in
  let '(res, db') := redis.allow_script fdiv key capacity refill_rate now db in
  res = match redis.idle_expiry fdiv capacity refill_rate with
        | Some _ => Ok (if Qle_bool 1 T' then 1%Z else 0%Z)
        | None => Err redis.expire_error
        end /\
  redis.HGET db' key "tokens" = Some (if Qle_bool 1 T' then T' - 1 else T') /\
  redis.HGET db' key "last_refill" = Some now.
Proof.
  intros T last T'. unfold redis.allow_script.
  fold T. fold last. fold T'.
  destruct (Qle_bool 1 T');
    match goal with
    | |- let '(_, _) := ?x in _ =>
        rewrite (surjective_pairing x); rewrite expire_and_return_reply,
          !HGET_expire_and_return
    end; cbn [redis.HMSET];
    (split; [reflexivity|]); split.
  - rewrite HGET_HSET_ne_field by discriminate. apply HGET_HSET_eq.
  - apply HGET_HSET_eq.
  - rewrite HGET_HSET_ne_field by discriminate. apply HGET_HSET_eq.
  - apply HGET_HSET_eq.
Qed.

Lemma Qle_bool_compat (a x y : Q) : x == y -> Qle_bool a x = Qle_bool a y.
Proof.
  intros H.
  destruct (Qle_bool a x) eqn:Ex, (Qle_bool a y) eqn:Ey; try reflexivity.
  - apply Qle_bool_iff in Ex. apply Qle_bool_false_iff in Ey. lra.
  - apply Qle_bool_iff in Ey. apply Qle_bool_false_iff in Ex. lra.
Qed.

(** The script's own refill is the natural-refill rule. *)
Lemma script_refill_is_rule cap rate T d :
  (if Qlt_bool T cap
   then (let t := T + d * rate in if Qlt_bool cap t then cap else t)
   else T) == natural_refill_rule cap rate T d.
Proof.
  unfold natural_refill_rule.
  destruct (Qlt_bool T cap); [apply cap_is_Qmin | reflexivity].
Qed.

(** The Allow script against the rule: the stored fields. *)
Lemma allow_script_stored fdiv key cap rate nowq db :
  let T := default cap (redis.HGET db key "tokens") in
  let last := default nowq (redis.HGET db key "last_refill") in
  let refilled := natural_refill_rule cap rate T (nowq - last) in
  let db' := snd (redis.allow_script fdiv key cap rate nowq db) in
  (exists v, redis.HGET db' key "tokens" = Some v /\
     v == refilled - (if Qle_bool 1 refilled then 1 else 0)) /\
  redis.HGET db' key "last_refill" = Some nowq.
Proof.
  intros T last refilled db'.
  pose proof (allow_script_fields fdiv key cap rate nowq db) as H.
  cbv zeta in H. subst db'.
  destruct (redis.allow_script fdiv key cap rate nowq db) as [res db'].
  destruct H as (_ & Htok & Hlast). cbn [snd]. split; [|exact Hlast].
  eexists. split; [exact Htok|].
  pose proof (script_refill_is_rule cap rate T (nowq - last)) as E.
  cbv zeta in E. fold refilled in E. unfold T, last in E |- *.
  rewrite (Qle_bool_compat 1 _ _ E).
  destruct (Qle_bool 1 refilled); lra.
Qed.

(** ** C1: where the natural-refill rule is applied *)

(** C1, in the form the code satisfies.
    The natural-refill rule is what [refill] computes, and
    it is applied by [Allow] and by the in-process [Available], which store
    its result with [last_refill = now]; the Redis Allow script stores the
    same; the Redis Available script computes the rule and stores nothing.
    [Refill] (both back-ends) does not apply it: it adds the amount and
    leaves [last_refill] as it was.  Where it is applied, [last_refill]
    becomes [now] in both branches, so the next refill only counts the time
    since [now]: an interval spent at or above capacity yields nothing
    later. *)
Theorem C1_natural_refill_where_applied :
  forall (fdiv : Q -> Q -> Q) (key : string) (now later : Z) (n x : Q)
         (tb : memory.TokenBucket)
         (cap rate nowq : Q) (db : gmap string redis.entry),
    let rule := natural_refill_rule (memory.capacity tb) (memory.refillRate tb)
                  (memory.tokens tb)
                  (Seconds (now - memory.lastRefillTime tb)) in
    (* refill *)
    (memory.tokens (memory.refill now tb) == rule /\
     memory.lastRefillTime (memory.refill now tb) = now) /\
    (* Allow *)
    (memory.tokens (snd (memory.Allow key now tb)) ==
       rule - (if fst (memory.Allow key now tb) then 1 else 0) /\
     memory.lastRefillTime (snd (memory.Allow key now tb)) = now) /\
    (* Available, in-process *)
    (fst (memory.Available now tb) == rule /\
     memory.tokens (snd (memory.Available now tb)) == rule /\
     memory.lastRefillTime (snd (memory.Available now tb)) = now) /\
    (* Refill, in-process: no natural refill, last_refill untouched *)
    (memory.tokens (memory.Refill key n tb) = memory.tokens tb + n /\
     memory.lastRefillTime (memory.Refill key n tb) = memory.lastRefillTime tb) /\
    (* the interval before [now] is spent, whatever the level was *)
    (memory.tokens (memory.refill later
                      (memory.with_tokens (memory.refill now tb) x)) ==
       natural_refill_rule (memory.capacity tb) (memory.refillRate tb) x
         (Seconds (later - now))) /\
    (* Redis Allow script: the rule, less the token when there is one *)
    (let T := default cap (redis.HGET db key "tokens") in
     let last := default nowq (redis.HGET db key "last_refill") in
     let refilled := natural_refill_rule cap rate T (nowq - last) in
     let db' := snd (redis.allow_script fdiv key cap rate nowq db) in
     (exists v, redis.HGET db' key "tokens" = Some v /\
        v == refilled - (if Qle_bool 1 refilled then 1 else 0)) /\
     redis.HGET db' key "last_refill" = Some nowq) /\
    (* Redis Available script: the rule on the stored fields, read-only *)
    (redis.available_script key cap rate nowq db ==
       match redis.HGET db key "tokens", redis.HGET db key "last_refill" with
       | Some T, Some last => natural_refill_rule cap rate T (nowq - last)
       | Some T, None => T
       | None, _ => cap
       end) /\
    (* Redis Refill script: adds to the stored count, last_refill untouched *)
    (let db' := snd (redis.refill_script fdiv key n cap rate db) in
     redis.HGET db' key "tokens" =
       Some (default cap (redis.HGET db key "tokens") + n) /\
     redis.HGET db' key "last_refill" = redis.HGET db key "last_refill").
Proof.
  intros fdiv key now later n x tb cap rate nowq db rule.
  assert (Hr : memory.tokens (memory.refill now tb) == rule)
    by apply refill_tokens.
  repeat split.
  - exact Hr.
  - unfold memory.Allow. revert Hr.
    generalize (memory.refill now tb) as tb1. intros tb1 Hr.
    destruct (Qle_bool 1 (memory.tokens tb1));
      cbn [fst snd memory.with_tokens memory.tokens]; lra.
  - unfold memory.Allow.
    destruct (Qle_bool 1 (memory.tokens (memory.refill now tb))); reflexivity.
  - exact Hr.
  - exact Hr.
  - rewrite refill_tokens. reflexivity.
  - pose proof (allow_script_stored fdiv key cap rate nowq db) as H.
    cbv zeta in H. destruct H as [H _]. exact H.
  - pose proof (allow_script_stored fdiv key cap rate nowq db) as H.
    cbv zeta in H. destruct H as [_ H]. exact H.
  - unfold redis.available_script, natural_refill_rule.
    destruct (redis.HGET db key "tokens") as [T|]; [|reflexivity].
    destruct (redis.HGET db key "last_refill") as [last|]; [|reflexivity].
    destruct (Qlt_bool T cap); [apply cap_is_Qmin | reflexivity].
  - unfold redis.refill_script. cbv zeta.
    rewrite HGET_expire_and_return. apply HGET_HSET_eq.
  - unfold redis.refill_script. cbv zeta.
    rewrite HGET_expire_and_return. apply HGET_HSET_ne_field. discriminate.
Qed.

(** C1 as the specification words it fails: at [now] = 1 s an empty bucket of
    capacity 4 and rate 4, last refilled at 0, should hold
    [min(4, 0 + 1 * 4) + 0 = 4] tokens after [Refill(key, 0)] with
    [last_refill = now]; [Refill] leaves 0 tokens and [last_refill = 0]. *)
Lemma C1_refill_applies_no_natural_refill :
  let tb := memory.mkTokenBucket 4 4 0 0 in
  let now := 1000000000%Z in
  let tb' := memory.Refill "client" 0 tb in
  ~ (memory.tokens tb' ==
       natural_refill_rule 4 4 0 (Seconds (now - memory.lastRefillTime tb)) + 0)
  /\ memory.lastRefillTime tb' <> now.
Proof.
  split.
  - vm_compute. discriminate.
  - vm_compute. discriminate.
Qed.

(** ** C2: Allow takes one token or none *)

Lemma Allow_true key now tb :
  1 <= memory.tokens (memory.refill now tb) ->
  memory.Allow key now tb =
    (true, memory.with_tokens (memory.refill now tb)
             (memory.tokens (memory.refill now tb) - 1)).
Proof.
  intros H. unfold memory.Allow.
  apply Qle_bool_iff in H. rewrite H. reflexivity.
Qed.




Lemma inject_nat_S (n : nat) :
  inject_Z (Z.of_nat (S n)) == inject_Z (Z.of_nat n) + 1.
Proof. unfold Qeq, Qplus, inject_Z. cbn [Qnum Qden]. lia. Qed.

Lemma inject_nat_nonneg (n : nat) : 0 <= inject_Z (Z.of_nat n).
Proof. unfold Qle, inject_Z. cbn [Qnum Qden]. lia. Qed.









(** The Allow script against the rule: the answer, the stored fields. *)
Lemma allow_script_rule fdiv key cap rate nowq db :
  let T' := natural_refill_rule cap rate
              (default cap (redis.HGET db key "tokens"))
              (nowq - default nowq (redis.HGET db key "last_refill")) in
  let res := fst (redis.allow_script fdiv key cap rate nowq db) in
  let db' := snd (redis.allow_script fdiv key cap rate nowq db) in
  res = match redis.idle_expiry fdiv cap rate with
        | Some _ => Ok (if Qle_bool 1 T' then 1%Z else 0%Z)
        | None => Err redis.expire_error
        end /\
  (exists v, redis.HGET db' key "tokens" = Some v /\
             v == T' - (if Qle_bool 1 T' then 1 else 0)) /\
  redis.HGET db' key "last_refill" = Some nowq.
Proof.
  intros T' res db'.
  pose proof (allow_script_stored fdiv key cap rate nowq db) as [Hs Hl].
  split; [|split; [exact Hs | exact Hl]].
  pose proof (allow_script_fields fdiv key cap rate nowq db) as H.
  cbv zeta in H. subst res.
  destruct (redis.allow_script fdiv key cap rate nowq db) as [res db2].
  destruct H as (Hres & _ & _). cbn [fst]. rewrite Hres.
  pose proof (script_refill_is_rule cap rate
                (default cap (redis.HGET db key "tokens"))
                (nowq - default nowq (redis.HGET db key "last_refill"))) as E.
  cbv zeta in E. fold T' in E.
  rewrite (Qle_bool_compat 1 _ _ E). reflexivity.
Qed.

(** The Allow script leaves the key with its whole idle expiry. *)
Lemma key_expiry_after_allow fdiv key cap rate now db :
  ~ rate == 0 ->
  redis.expiry <$> (snd (redis.allow_script fdiv key cap rate now db) !! key)
  = Some (Some ((Qceiling (fdiv cap rate) + 1) * 1000)%Z).
Proof.
  intros Hrate. unfold redis.allow_script, redis.expire_and_return.
  rewrite (idle_expiry_Some fdiv cap rate Hrate).
  match goal with |- context [Qle_bool 1 ?t] => destruct (Qle_bool 1 t) end;
    cbn [snd redis.HMSET]; apply expiry_EXPIRE; apply HSET_is_Some.
Qed.

(** [Allow] of the Redis limiter, at a rate other than zero: the answer, the
    stored fields, the expiry. *)
Lemma redis_Allow_rule fdiv r key now db :
  ~ redis.refillRate r == 0 ->
  let fullKey := (redis.keyPrefix r ++ key)%string in
  let nowq := redis.unix_seconds fdiv now in
  let T' := natural_refill_rule (redis.capacity r) (redis.refillRate r)
              (default (redis.capacity r) (redis.HGET db fullKey "tokens"))
              (nowq - default nowq (redis.HGET db fullKey "last_refill")) in
  let res := redis.Allow fdiv r key now db in
  fst res = Ok (Qle_bool 1 T') /\
  (exists v, redis.HGET (snd res) fullKey "tokens" = Some v /\
             v == T' - (if Qle_bool 1 T' then 1 else 0)) /\
  redis.HGET (snd res) fullKey "last_refill" = Some nowq /\
  redis.expiry <$> (snd res !! fullKey)
  = Some (Some ((Qceiling (fdiv (redis.capacity r) (redis.refillRate r)) + 1)
                * 1000)%Z).
Proof.
  intros Hrate fullKey nowq T' res. subst res.
  pose proof (allow_script_rule fdiv fullKey (redis.capacity r)
                (redis.refillRate r) nowq db) as H.
  pose proof (key_expiry_after_allow fdiv fullKey (redis.capacity r)
                (redis.refillRate r) nowq db Hrate) as Hx.
  cbv zeta in H. fold T' in H.
  rewrite (idle_expiry_Some _ _ _ Hrate) in H.
  unfold redis.Allow. fold fullKey. fold nowq.
  destruct (redis.allow_script fdiv fullKey _ _ nowq db) as [res db'].
  cbn [fst snd] in *. destruct H as (Hres & Hv & Hl). subst res.
  cbn [fst snd]. repeat split; try assumption.
  destruct (Qle_bool 1 T'); reflexivity.
Qed.

(** Time passing short of the expiry leaves the fields and the key. *)
Lemma elapse_keeps gap (db : gmap string redis.entry) key togo :
  redis.expiry <$> (db !! key) = Some (Some togo) -> (gap < togo)%Z ->
  (forall field, redis.HGET (redis.elapse gap db) key field
                 = redis.HGET db key field) /\
  is_Some (redis.elapse gap db !! key).
Proof.
  intros Hx Hlt.
  destruct (db !! key) as [e|] eqn:He; [|discriminate].
  cbn in Hx. injection Hx as Hx. split.
  - intros field. apply (HGET_elapse_kept gap db key e togo); assumption.
  - rewrite lookup_elapse, He, Hx.
    destruct (Z.leb_spec togo gap); [lia | eauto].
Qed.






(** ** C3: Refill adds exactly the amount *)

Lemma refill_above_or_capped now tb :
  memory.tokens (memory.refill now tb)
    <= Qmax (memory.tokens tb) (memory.capacity tb).
Proof.
  unfold memory.refill. cbn [memory.tokens].
  pose proof (Q.le_max_l (memory.tokens tb) (memory.capacity tb)).
  pose proof (Q.le_max_r (memory.tokens tb) (memory.capacity tb)).
  qcases; lra.
Qed.

(** The rule never lowers a count, and raises it by at most what accrued. *)
Lemma natural_refill_rule_bracket cap rate T delta :
  0 <= delta * rate ->
  T <= natural_refill_rule cap rate T delta /\
  natural_refill_rule cap rate T delta <= T + delta * rate.
Proof.
  intros H. unfold natural_refill_rule. qcases.
  - destruct (Qmin_cases cap (T + delta * rate)) as [[H1 H2]|[H1 H2]];
      rewrite H2; lra.
  - lra.
Qed.

Lemma natural_refill_rule_le_max cap rate T d :
  natural_refill_rule cap rate T d <= Qmax T cap.
Proof.
  unfold natural_refill_rule.
  pose proof (Q.le_max_l T cap). pose proof (Q.le_max_r T cap).
  pose proof (Q.le_min_l cap (T + d * rate)).
  qcases; lra.
Qed.

(** The integer Redis replies with is the number without its fraction. *)
Lemma integer_reply_bracket (x : Q) :
  0 <= x ->
  inject_Z (redis.integer_reply x) <= x /\
  x - 1 < inject_Z (redis.integer_reply x).
Proof.
  intros H. unfold redis.integer_reply.
  apply Qle_bool_iff in H. rewrite H.
  pose proof (Qfloor_le x) as H1. pose proof (Qlt_floor x) as H2.
  rewrite inject_Z_plus in H2. change (inject_Z 1) with 1 in H2.
  split; [exact H1 | lra].
Qed.


Lemma integer_reply_whole (z : Z) : redis.integer_reply (inject_Z z) = z.
Proof.
  unfold redis.integer_reply.
  destruct (Qle_bool 0 (inject_Z z)); [apply Qfloor_Z | apply Qceiling_Z].
Qed.

(** The Refill script, at a rate other than zero: it succeeds, adds to the
    stored count (to the capacity when there is none), leaves [last_refill]
    and gives the key its whole idle expiry. *)
Lemma redis_Refill_rule fdiv r key n db :
  ~ redis.refillRate r == 0 ->
  let fullKey := (redis.keyPrefix r ++ key)%string in
  let res := redis.Refill fdiv r key n db in
  fst res = Ok tt /\
  redis.HGET (snd res) fullKey "tokens"
  = Some (default (redis.capacity r) (redis.HGET db fullKey "tokens") + n) /\
  redis.HGET (snd res) fullKey "last_refill"
  = redis.HGET db fullKey "last_refill" /\
  redis.expiry <$> (snd res !! fullKey)
  = Some (Some ((Qceiling (fdiv (redis.capacity r) (redis.refillRate r)) + 1)
                * 1000)%Z).
Proof.
  intros Hrate fullKey res. subst res.
  unfold redis.Refill, redis.refill_script, redis.expire_and_return.
  fold fullKey. rewrite (idle_expiry_Some _ _ _ Hrate). cbn [fst snd].
  repeat split.
  - rewrite HGET_EXPIRE. apply HGET_HSET_eq.
  - rewrite HGET_EXPIRE. apply HGET_HSET_ne_field. discriminate.
  - apply expiry_EXPIRE. apply HSET_is_Some.
Qed.

(** C3, in the form the code satisfies.
    [Refill] adds exactly the amount to the stored count
    (in Redis: to the capacity when the key stores none) and does not cap;
    [Allow] and [Available] never leave more than the larger of the previous
    count and the capacity, in process and in the Redis hash, so only
    [Refill] takes a bucket above capacity.
    In the in-process limiter, with [prior] sampled by [Available] at [t0]
    just before the [Refill] and [Available] called again at [t1 >= t0], the
    answer lies between [prior + n] and [prior + n + (t1 - t0) * rate].  In
    the Redis limiter, whose [Available] stores nothing, the script computes
    a number between [stored + n] and
    [stored + n + (now - last_refill) * rate], and the caller reads its
    integer part. *)
Theorem C3_refill_adds_exactly_the_amount :
  forall (fdiv : Q -> Q -> Q) (key : string) (n : Q) (t0 t1 : Z)
         (tb : memory.TokenBucket) (r : redis.TokenBucket) (now : Z)
         (db : gmap string redis.entry),
    let fullKey := (redis.keyPrefix r ++ key)%string in
    let cap := redis.capacity r in
    let rate := redis.refillRate r in
    let nowq := redis.unix_seconds fdiv now in
    0 <= n ->
    0 <= memory.refillRate tb ->
    (t0 <= t1)%Z ->
    0 < rate ->
    (forall last, redis.HGET db fullKey "last_refill" = Some last ->
                  last <= nowq) ->
    let prior := fst (memory.Available t0 tb) in
    let tb1 := memory.Refill key n (snd (memory.Available t0 tb)) in
    let after := fst (memory.Available t1 tb1) in
    let stored := default cap (redis.HGET db fullKey "tokens") in
    let accrued :=
      (nowq - default nowq (redis.HGET db fullKey "last_refill")) * rate in
    let refilled := redis.Refill fdiv r key n db in
    let computed := redis.available_script fullKey cap rate nowq (snd refilled) in
    let rafter := redis.Available fdiv r key now (snd refilled) in
    (* exactly n, no cap *)
    memory.tokens (memory.Refill key n tb) == memory.tokens tb + n /\
    fst refilled = Ok tt /\
    redis.HGET (snd refilled) fullKey "tokens" = Some (stored + n) /\
    (* the other two operations stay below max(previous, capacity) *)
    memory.tokens (snd (memory.Allow key t1 tb))
      <= Qmax (memory.tokens tb) (memory.capacity tb) /\
    memory.tokens (snd (memory.Available t1 tb))
      <= Qmax (memory.tokens tb) (memory.capacity tb) /\
    (exists v, redis.HGET (snd (redis.Allow fdiv r key now db)) fullKey "tokens"
               = Some v /\ v <= Qmax stored cap) /\
    snd (redis_step fdiv r (OpAvailable key now) db) = db /\
    (* Available right after, in-process *)
    (prior + n <= after /\
     after <= prior + n + Seconds (t1 - t0) * memory.refillRate tb) /\
    (* Available right after, Redis *)
    (rafter == inject_Z (redis.integer_reply computed) /\
     stored + n <= computed /\ computed <= stored + n + accrued /\
     (0 <= stored ->
      stored + n - 1 < rafter /\ rafter <= stored + n + accrued)).
Proof.
  intros fdiv key n t0 t1 tb r now db fullKey cap rate nowq
         Hn Hrate Ht Hrrate Hlast
         prior tb1 after stored accrued refilled computed rafter.
  assert (Hne : ~ rate == 0) by lra.
  split; [reflexivity|].
  pose proof (redis_Refill_rule fdiv r key n db Hne) as HR.
  cbv zeta in HR. fold fullKey cap rate refilled stored in HR.
  destruct HR as (Hok & Hstored & Hl & _).
  split; [exact Hok|]. split; [exact Hstored|].
  split; [|split; [|split; [|split; [|split]]]].
  - pose proof (refill_above_or_capped t1 tb) as H.
    unfold memory.Allow. revert H.
    generalize (memory.refill t1 tb) as b1. intros b1 H.
    destruct (Qle_bool 1 (memory.tokens b1));
      cbn [fst snd memory.with_tokens memory.tokens]; lra.
  - apply refill_above_or_capped.
  - pose proof (allow_script_stored fdiv fullKey cap rate nowq db) as [Hs _].
    cbv zeta in Hs. fold stored in Hs. destruct Hs as (v & Hv & Hveq).
    exists v. split.
    + unfold redis.Allow. fold fullKey cap rate nowq.
      destruct (redis.allow_script fdiv fullKey cap rate nowq db)
        as [[z|err] db']; exact Hv.
    + pose proof (natural_refill_rule_le_max cap rate stored
                    (nowq - default nowq (redis.HGET db fullKey "last_refill")))
        as Hm.
      revert Hveq Hm.
      generalize (natural_refill_rule cap rate stored
                    (nowq - default nowq
                              (redis.HGET db fullKey "last_refill"))) as T'.
      intros T' Hveq Hm. destruct (Qle_bool 1 T'); lra.
  - reflexivity.
  - subst after tb1 prior. unfold memory.Available. cbn [fst snd].
    rewrite (refill_tokens t1 (memory.Refill key n (memory.refill t0 tb))).
    cbn [memory.Refill memory.with_tokens memory.capacity memory.refillRate
         memory.tokens memory.lastRefillTime].
    rewrite (refill_last t0 tb).
    destruct (refill_config t0 tb) as [-> ->].
    apply natural_refill_rule_bracket.
    apply Qmult_le_0_compat; [apply Seconds_nonneg; lia | exact Hrate].
  - assert (Hcomp : stored + n <= computed /\ computed <= stored + n + accrued).
    { subst computed accrued. unfold redis.available_script.
      rewrite Hstored, Hl.
      destruct (redis.HGET db fullKey "last_refill") as [last|] eqn:El.
      + cbn [default from_option id].
        pose proof (natural_refill_rule_bracket cap rate (stored + n)
                      (nowq - last)) as HB.
        unfold natural_refill_rule in HB.
        assert (Hd : 0 <= (nowq - last) * rate).
        { apply Qmult_le_0_compat; [|lra].
          specialize (Hlast last eq_refl). lra. }
        specialize (HB Hd).
        destruct (Qlt_bool (stored + n) cap).
        * rewrite cap_is_Qmin. exact HB.
        * exact HB.
      + cbn [default from_option id]. split; [lra|].
        assert (E : (nowq - nowq) * rate == 0) by ring. rewrite E. lra. }
    destruct Hcomp as [Hlo Hhi].
    split; [reflexivity|]. split; [exact Hlo|]. split; [exact Hhi|].
    intros H0. subst rafter. unfold redis.Available.
    fold fullKey cap rate nowq computed.
    destruct (integer_reply_bracket computed) as [B1 B2]; [lra|].
    split; lra.
Qed.

(** C3 at an empty in-process bucket (capacity 4, rate 4) sampled at 0.2 s
    and again at 0.3 s around [Refill(4)], and at a Redis hash storing half
    a token refilled at second 0 and read at second 1: the script computes
    5.5 and the caller reads 5. *)
Lemma C3_refill_four_then_available :
  let tb := memory.mkTokenBucket 4 4 0 0 in
  let prior := fst (memory.Available 200000000 tb) in
  let tb1 := memory.Refill "client" 4 (snd (memory.Available 200000000 tb)) in
  let after := fst (memory.Available 300000000 tb1) in
  let r := redis.NewTokenBucket (redis.mkConfig 4 1 "") in
  let db := {[ "ratelimit:client"%string :=
                 redis.mkEntry {[ "tokens"%string := 1 # 2;
                                  "last_refill"%string := 0 ]} None ]} in
  (prior + 4 <= after /\
   after <= prior + 4 + Seconds (300000000 - 200000000) * 4) /\
  redis.Available Qdiv r "client" 1000000000
    (snd (redis.Refill Qdiv r "client" 5 db))
  == inject_Z
       (redis.integer_reply
          (redis.available_script "ratelimit:client" 4 1 1
             (snd (redis.Refill Qdiv r "client" 5 db)))).
Proof.
  pose proof
    (C3_refill_adds_exactly_the_amount Qdiv "client" 4 200000000 300000000
       (memory.mkTokenBucket 4 4 0 0)
       (redis.NewTokenBucket (redis.mkConfig 4 1 "")) 1000000000
       {[ "ratelimit:client"%string :=
            redis.mkEntry {[ "tokens"%string := 1 # 2;
                             "last_refill"%string := 0 ]} None ]}
       ltac:(vm_compute; discriminate) ltac:(vm_compute; discriminate)
       ltac:(lia) ltac:(vm_compute; reflexivity)
       ltac:(intros last H; vm_compute in H; inversion H; subst last;
             vm_compute; discriminate)) as H4.
  pose proof
    (C3_refill_adds_exactly_the_amount Qdiv "client" 5 200000000 300000000
       (memory.mkTokenBucket 4 4 0 0)
       (redis.NewTokenBucket (redis.mkConfig 4 1 "")) 1000000000
       {[ "ratelimit:client"%string :=
            redis.mkEntry {[ "tokens"%string := 1 # 2;
                             "last_refill"%string := 0 ]} None ]}
       ltac:(vm_compute; discriminate) ltac:(vm_compute; discriminate)
       ltac:(lia) ltac:(vm_compute; reflexivity)
       ltac:(intros last H; vm_compute in H; inversion H; subst last;
             vm_compute; discriminate)) as H5.
  cbv zeta in H4, H5. split.
  - exact (proj1 (proj2 (proj2 (proj2 (proj2 (proj2 (proj2 (proj2 H4)))))))).
  - exact (proj1 (proj2 (proj2 (proj2 (proj2 (proj2 (proj2 (proj2 (proj2
             H5))))))))).
Defined.

(** C3 as the specification words it fails on the Redis limiter.  The hash stores 0
    tokens with [last_refill] = 0 s (capacity 4, rate 1).  At 3 s [Available]
    samples [prior] = 3; [Refill(4)] follows; [Available], still at 3 s,
    answers 4, below [prior + 4] = 7. *)
Lemma C3_redis_available_below_prior_plus_amount :
  let r := redis.NewTokenBucket (redis.mkConfig 4 1 "") in
  let db := {[ "ratelimit:client"%string :=
                 redis.mkEntry {[ "tokens"%string := 0;
                                  "last_refill"%string := 0 ]} None ]} in
  let prior := redis.Available Qdiv r "client" 3000000000 db in
  let db1 := snd (redis.Refill Qdiv r "client" 4 db) in
  let after := redis.Available Qdiv r "client" 3000000000 db1 in
  prior == 3 /\ after == 4 /\ ~ (prior + 4 <= after).
Proof.
  split; [|split].
  - vm_compute. reflexivity.
  - vm_compute. reflexivity.
  - intros H. vm_compute in H. apply H. reflexivity.
Qed.

(** ** C4: the two back-ends compared *)












(** ** C5: one bucket in process, one hash per key in Redis *)

Lemma append_inj_r (p a b : string) : (p ++ a)%string = (p ++ b)%string -> a = b.
Proof.
  induction p as [|ch p IH]; cbn [String.append]; intros H; [exact H|].
  injection H as H. apply IH. exact H.
Qed.

Lemma allow_script_other fdiv key cap rate now db key' :
  key <> key' ->
  snd (redis.allow_script fdiv key cap rate now db) !! key' = db !! key'.
Proof.
  intros Hne. unfold redis.allow_script.
  match goal with |- context [Qle_bool 1 ?t] => destruct (Qle_bool 1 t) end;
    rewrite lookup_expire_and_return_ne by exact Hne;
    apply lookup_HMSET_ne; exact Hne.
Qed.

Lemma refill_script_other fdiv key n cap rate db key' :
  key <> key' ->
  snd (redis.refill_script fdiv key n cap rate db) !! key' = db !! key'.
Proof.
  intros Hne. unfold redis.refill_script. cbv zeta.
  rewrite lookup_expire_and_return_ne by exact Hne.
  apply lookup_HSET_ne. exact Hne.
Qed.

(** C5, in the form the code satisfies.
    The in-process limiter ignores the key: it is a single
    bucket, created full and stamped with the construction time, and every
    key reads and writes that one bucket.  The Redis limiter keeps a hash per
    key: Allow and Refill on one key leave the entry of every other key as it
    was (Available writes nothing at all), and a key the store does not hold
    is treated by Allow as a full bucket with [last_refill = now] (answered
    from, unless the refill rate is zero and the script ends in the error of
    its EXPIRE), and by Available as holding the capacity, which the caller
    reads without its fraction. *)
Theorem C5_one_bucket_in_process_one_per_key_in_redis :
  forall (fdiv : Q -> Q -> Q) (r : redis.TokenBucket) (key key' : string)
         (now : Z) (n : Q)
         (tb : memory.TokenBucket) (db : gmap string redis.entry)
         (cap rate : Q) (t0 : Z),
    key <> key' ->
    db !! (redis.keyPrefix r ++ key)%string = None ->
    (* in process: the key does not matter *)
    memory.Allow key now tb = memory.Allow key' now tb /\
    memory.Refill key n tb = memory.Refill key' n tb /\
    memory.tokens (memory.NewTokenBucket cap rate t0) = cap /\
    memory.lastRefillTime (memory.NewTokenBucket cap rate t0) = t0 /\
    (* Redis: the other key's entry is untouched *)
    snd (redis.Allow fdiv r key now db) !! (redis.keyPrefix r ++ key')%string
      = db !! (redis.keyPrefix r ++ key')%string /\
    snd (redis.Refill fdiv r key n db) !! (redis.keyPrefix r ++ key')%string
      = db !! (redis.keyPrefix r ++ key')%string /\
    snd (redis_step fdiv r (OpAvailable key now) db) = db /\
    (* Redis: a fresh key is a full bucket refilled now *)
    fst (redis.Allow fdiv r key now db)
      = (if Qeq_bool (redis.refillRate r) 0 then Err redis.expire_error
         else Ok (Qle_bool 1 (redis.capacity r))) /\
    redis.HGET (snd (redis.Allow fdiv r key now db)) (redis.keyPrefix r ++ key)
      "tokens"
      = Some (if Qle_bool 1 (redis.capacity r)
              then redis.capacity r - 1 else redis.capacity r) /\
    redis.HGET (snd (redis.Allow fdiv r key now db)) (redis.keyPrefix r ++ key)
      "last_refill" = Some (redis.unix_seconds fdiv now) /\
    redis.Available fdiv r key now db
      = inject_Z (redis.integer_reply (redis.capacity r)).
Proof.
  intros fdiv r key key' now n tb db cap rate t0 Hne Hfresh.
  assert (Hfull : (redis.keyPrefix r ++ key)%string
                  <> (redis.keyPrefix r ++ key')%string).
  { intros H. apply Hne. eapply append_inj_r. exact H. }
  assert (Htok : redis.HGET db (redis.keyPrefix r ++ key) "tokens" = None)
    by (unfold redis.HGET; rewrite Hfresh; reflexivity).
  assert (Hlast : redis.HGET db (redis.keyPrefix r ++ key) "last_refill" = None)
    by (unfold redis.HGET; rewrite Hfresh; reflexivity).
  pose proof (allow_script_fields fdiv (redis.keyPrefix r ++ key)
                (redis.capacity r) (redis.refillRate r)
                (redis.unix_seconds fdiv now) db) as HA.
  cbv zeta in HA. rewrite Htok, Hlast in HA. cbn [default from_option id] in HA.
  assert (Hnl : Qlt_bool (redis.capacity r) (redis.capacity r) = false)
    by (apply Qlt_bool_false_iff; lra).
  rewrite Hnl in HA.
  pose proof (allow_script_other fdiv (redis.keyPrefix r ++ key)
                (redis.capacity r) (redis.refillRate r)
                (redis.unix_seconds fdiv now) db _ Hfull) as HO.
  pose proof (refill_script_other fdiv (redis.keyPrefix r ++ key) n
                (redis.capacity r) (redis.refillRate r) db _ Hfull) as HR.
  unfold redis.Allow, redis.Refill.
  destruct (redis.allow_script _ _ _ _ _ db) as [res db'].
  destruct (redis.refill_script _ _ _ _ _ db) as [res2 db2].
  cbn [fst snd] in *. destruct HA as (Hres & Ht & Hl).
  unfold redis.idle_expiry in Hres.
  repeat split; try reflexivity.
  - destruct res; exact HO.
  - destruct res2; exact HR.
  - subst res. destruct (Qeq_bool (redis.refillRate r) 0); [reflexivity|].
    cbn [fst]. destruct (Qle_bool 1 (redis.capacity r)); reflexivity.
  - destruct res; exact Ht.
  - destruct res; exact Hl.
  - unfold redis.Available, redis.available_script. rewrite Htok. reflexivity.
Qed.

(** C5 on a Redis bucket of capacity 2: client "a" is new to a store that
    holds an exhausted hash for client "b". *)
Lemma C5_fresh_key_next_to_an_exhausted_one :
  let r := redis.NewTokenBucket (redis.mkConfig 2 1 "") in
  let db := {[ "ratelimit:b"%string :=
                 redis.mkEntry {[ "tokens"%string := 0;
                                  "last_refill"%string := 0 ]} None ]} in
  fst (redis.Allow Qdiv r "a" 0 db) = Ok true /\
  snd (redis.Allow Qdiv r "a" 0 db) !! "ratelimit:b"%string
  = db !! "ratelimit:b"%string.
Proof.
  pose proof (C5_one_bucket_in_process_one_per_key_in_redis Qdiv
    (redis.NewTokenBucket (redis.mkConfig 2 1 "")) "a" "b" 0 0
    (memory.NewTokenBucket 2 1 0)
    {[ "ratelimit:b"%string :=
         redis.mkEntry {[ "tokens"%string := 0;
                          "last_refill"%string := 0 ]} None ]} 2 1 0
    ltac:(discriminate) ltac:(vm_compute; reflexivity)) as H.
  split.
  - exact (proj1 (proj2 (proj2 (proj2 (proj2 (proj2 (proj2 (proj2 H)))))))).
  - exact (proj1 (proj2 (proj2 (proj2 (proj2 H))))).
Defined.

(** C5 as the specification words it fails on the in-process limiter: with
    capacity 1, client "b" is admitted when it comes first, and rejected on
    its first request when client "a" has just been served. *)
Lemma C5_in_process_keys_share_the_bucket :
  let tb := memory.NewTokenBucket 1 1 0 in
  let after_a := snd (memory.Allow "a" 0 tb) in
  fst (memory.Allow "b" 0 tb) = true /\
  fst (memory.Allow "b" 0 after_a) = false /\
  ~ (memory.tokens after_a == memory.tokens tb).
Proof.
  split; [|split].
  - vm_compute. reflexivity.
  - vm_compute. reflexivity.
  - intros H. vm_compute in H. discriminate.
Qed.

(** ** C6: the trust tracker *)

Lemma count_fold (f : Z -> bool) (l : list Z) (acc : Z) :
  fold_left (fun count ts => if f ts then (count + 1)%Z else count) l acc
  = (acc + Z.of_nat (length (List.filter f l)))%Z.
Proof.
  revert acc. induction l as [|ts l IH]; intros acc; cbn [fold_left List.filter].
  - cbn. lia.
  - rewrite IH. destruct (f ts); cbn [length]; lia.
Qed.

Lemma countRecent_newer now t wallet :
  trust.countRecent now t wallet
  = newer_than (now + - trust.Window (trust.config t)) (trust.history t wallet).
Proof.
  unfold trust.countRecent, newer_than, trust.After. apply count_fold.
Qed.

Lemma filter_absorb (c1 c2 : Z) (l : list Z) :
  (c1 <= c2)%Z ->
  List.filter (fun ts => (c2 <? ts)%Z) (List.filter (fun ts => (c1 <? ts)%Z) l)
  = List.filter (fun ts => (c2 <? ts)%Z) l.
Proof.
  intros H. induction l as [|ts l IH]; [reflexivity|].
  cbn [List.filter].
  destruct (c1 <? ts)%Z eqn:E1; cbn [List.filter].
  - rewrite IH. reflexivity.
  - rewrite IH. destruct (c2 <? ts)%Z eqn:E2; [|reflexivity].
    apply Z.ltb_lt in E2. apply Z.ltb_ge in E1. lia.
Qed.

Lemma trust_step_config t op : trust.config (trust_step t op) = trust.config t.
Proof. destruct op; reflexivity. Qed.

Lemma trust_run_config ops t : trust.config (trust_run ops t) = trust.config t.
Proof.
  revert t. induction ops as [|op ops IH]; intros t; [reflexivity|].
  unfold trust_run in *. cbn [fold_left]. rewrite IH. apply trust_step_config.
Qed.

Lemma history_RecordSuccess now now' w t wallet :
  trust.history (trust.RecordSuccess now now' w t) wallet =
  if String.eqb w wallet
  then List.filter (fun ts => (now' + - trust.Window (trust.config t) <? ts)%Z)
         (trust.history t wallet ++ [now])
  else trust.history t wallet.
Proof.
  unfold trust.RecordSuccess, trust.cleanup, trust.history, trust.After.
  cbn [trust.payments trust.config].
  destruct (String.eqb_spec w wallet) as [->|Hne].
  - rewrite !lookup_insert_eq. reflexivity.
  - rewrite !lookup_insert_ne by exact Hne. reflexivity.
Qed.

Lemma history_RecordFailure w t wallet :
  trust.history (trust.RecordFailure w t) wallet =
  if String.eqb w wallet then [] else trust.history t wallet.
Proof.
  unfold trust.RecordFailure, trust.history. cbn [trust.payments].
  destruct (String.eqb_spec w wallet) as [->|Hne].
  - rewrite lookup_delete_eq. reflexivity.
  - rewrite lookup_delete_ne by exact Hne. reflexivity.
Qed.

(** What [cleanup] dropped is too old to count at any later clock reading. *)
Lemma recorded_newer wallet (cutoff : Z) ops :
  forall t acc,
    Forall (fun op => match cleanup_clock op with
                      | Some now' =>
                          (now' + - trust.Window (trust.config t) <= cutoff)%Z
                      | None => True
                      end) ops ->
    List.filter (fun ts => (cutoff <? ts)%Z) (trust.history t wallet)
      = List.filter (fun ts => (cutoff <? ts)%Z) acc ->
    List.filter (fun ts => (cutoff <? ts)%Z)
      (trust.history (trust_run ops t) wallet)
      = List.filter (fun ts => (cutoff <? ts)%Z) (recorded wallet ops acc).
Proof.
  induction ops as [|op ops IH]; intros t acc Hops Hinv; [exact Hinv|].
  inversion Hops as [|op' ops' Hop Hrest]; subst.
  unfold trust_run. cbn [fold_left]. fold (trust_run ops (trust_step t op)).
  destruct op as [w now now'|w]; cbn [recorded trust_step cleanup_clock] in *.
  - apply IH.
    + cbn [trust.RecordSuccess trust.cleanup trust.config]. exact Hrest.
    + rewrite history_RecordSuccess.
      destruct (String.eqb w wallet); [|exact Hinv].
      rewrite filter_absorb by exact Hop.
      rewrite !List.filter_app, Hinv. reflexivity.
  - apply IH.
    + exact Hrest.
    + rewrite history_RecordFailure.
      destruct (String.eqb w wallet); [reflexivity | exact Hinv].
Qed.

Lemma New_threshold_pos cfg :
  (0 < trust.Threshold (trust.config (trust.New cfg)))%Z.
Proof.
  unfold trust.New. cbn [trust.config trust.Threshold].
  destruct (trust.Threshold cfg <=? 0)%Z eqn:E; [lia|].
  apply Z.leb_gt in E. exact E.
Qed.

Lemma recorded_successes wallet (stamps : list (Z * Z)) :
  forall acc,
    recorded wallet
      (map (fun s => Succeeded wallet (fst s) (snd s)) stamps) acc
    = acc ++ map fst stamps.
Proof.
  induction stamps as [|s stamps IH]; intros acc; cbn [map recorded].
  - rewrite app_nil_r. reflexivity.
  - rewrite String.eqb_refl, IH, <- app_assoc. reflexivity.
Qed.

Lemma filter_all (f : Z -> bool) (l : list Z) :
  Forall (fun x => f x = true) l -> List.filter f l = l.
Proof.
  induction 1 as [|x l Hx Hl IH]; [reflexivity|].
  cbn [List.filter]. rewrite Hx, IH. reflexivity.
Qed.

(** C6.  For a tracker made by [New] and then written to by any sequence of
    RecordSuccess and RecordFailure whose clock readings do not run ahead of
    the query's: [IsTrusted] answers true exactly when at least [threshold]
    of the successes recorded for the payer (since the payer's last failure)
    are strictly newer than [now - window].  After [threshold] further
    successes inside the window [IsTrusted] is true; after a RecordFailure
    [RecentPayments] is 0 and [IsTrusted] is false. *)
Theorem C6_trusted_iff_enough_recent_successes :
  forall (cfg : trust.Config) (ops : list TrustOp) (wallet : string) (now : Z)
         (stamps : list (Z * Z)),
    let t0 := trust.New cfg in
    let threshold := trust.Threshold (trust.config t0) in
    let window := trust.Window (trust.config t0) in
    Forall (fun op => match cleanup_clock op with
                      | Some now' => (now' <= now)%Z
                      | None => True
                      end) ops ->
    Z.of_nat (length stamps) = threshold ->
    Forall (fun s => (now - window < fst s)%Z /\ (snd s <= now)%Z) stamps ->
    let t := trust_run ops t0 in
    (trust.IsTrusted now t wallet = true <->
     (threshold <= newer_than (now - window) (recorded wallet ops []))%Z) /\
    trust.IsTrusted now
      (trust_run (map (fun s => Succeeded wallet (fst s) (snd s)) stamps) t)
      wallet = true /\
    trust.RecentPayments now (trust.RecordFailure wallet t) wallet = 0%Z /\
    trust.IsTrusted now (trust.RecordFailure wallet t) wallet = false.
Proof.
  intros cfg ops wallet now stamps t0 threshold window Hops Hlen Hstamps t.
  assert (Hcfg : trust.config t = trust.config t0) by apply trust_run_config.
  assert (Hpos : (0 < threshold)%Z) by apply New_threshold_pos.
  split; [|split; [|split]].
  - unfold trust.IsTrusted. rewrite countRecent_newer, Hcfg.
    fold threshold. fold window.
    change (now + - window)%Z with (now - window)%Z.
    unfold newer_than, t.
    rewrite (recorded_newer wallet (now - window) ops t0 []).
    + apply Z.leb_le.
    + eapply List.Forall_impl; [|exact Hops].
      intros op. cbv beta. destruct (cleanup_clock op); [|trivial].
      unfold window. lia.
    + reflexivity.
  - set (ops2 := map (fun s => Succeeded wallet (fst s) (snd s)) stamps).
    unfold trust.IsTrusted. rewrite countRecent_newer.
    rewrite !trust_run_config, !Hcfg. fold threshold. fold window.
    change (now + - window)%Z with (now - window)%Z.
    unfold newer_than.
    rewrite (recorded_newer wallet (now - window) ops2 t (trust.history t wallet)).
    + subst ops2. rewrite recorded_successes, List.filter_app.
      rewrite (filter_all _ (map fst stamps)).
      * rewrite length_app, length_map. apply Z.leb_le. lia.
      * apply List.Forall_map. eapply List.Forall_impl; [|exact Hstamps].
        intros s [Hs _]. apply Z.ltb_lt. exact Hs.
    + subst ops2. apply List.Forall_map. eapply List.Forall_impl; [|exact Hstamps].
      intros s [_ Hs]. cbv beta. cbn [cleanup_clock]. rewrite Hcfg.
      unfold window. lia.
    + reflexivity.
  - unfold trust.RecentPayments. rewrite countRecent_newer.
    rewrite history_RecordFailure, String.eqb_refl. reflexivity.
  - unfold trust.IsTrusted. rewrite countRecent_newer.
    rewrite history_RecordFailure, String.eqb_refl.
    cbn [trust.RecordFailure trust.config]. rewrite Hcfg. fold threshold.
    apply Z.leb_gt. cbn. exact Hpos.
Qed.

(** C6 on the default configuration (threshold 3, window one hour): a payer
    with one success and one failure behind it is trusted after three
    successes in a row. *)
Lemma C6_trusted_after_three_successes :
  let t := trust_run [Succeeded "0xabc" 10 10; Failed "0xabc"]
             (trust.New (trust.mkConfig 0 0)) in
  trust.IsTrusted 50
    (trust_run [Succeeded "0xabc" 20 21; Succeeded "0xabc" 30 31;
                Succeeded "0xabc" 40 41] t) "0xabc" = true.
Proof.
  refine (proj1 (proj2
    (C6_trusted_iff_enough_recent_successes (trust.mkConfig 0 0)
       [Succeeded "0xabc" 10 10; Failed "0xabc"] "0xabc" 50
       [(20, 21); (30, 31); (40, 41)]%Z _ _ _))).
  - repeat constructor; cbn; lia.
  - reflexivity.
  - repeat constructor; cbn; unfold trust.Hour; lia.
Defined.

(** ** C10: which scripts refresh the idle expiry *)

(** With a refill rate of zero the scripts write their fields and fail at
    the EXPIRE: the key keeps the time it had, or has none when it is new. *)
Lemma allow_script_rate_zero fdiv key cap rate now db :
  rate == 0 ->
  fst (redis.allow_script fdiv key cap rate now db) = Err redis.expire_error /\
  redis.expiry <$> (snd (redis.allow_script fdiv key cap rate now db) !! key)
  = Some (default None (redis.expiry <$> (db !! key))).
Proof.
  intros Hrate. unfold redis.allow_script, redis.expire_and_return.
  rewrite (idle_expiry_None fdiv cap rate Hrate).
  match goal with |- context [Qle_bool 1 ?t] => destruct (Qle_bool 1 t) end;
    cbn [fst snd redis.HMSET]; (split; [reflexivity|]);
    rewrite !expiry_HSET; reflexivity.
Qed.

Lemma refill_script_rate_zero fdiv key n cap rate db :
  rate == 0 ->
  fst (redis.refill_script fdiv key n cap rate db) = Err redis.expire_error /\
  redis.expiry <$> (snd (redis.refill_script fdiv key n cap rate db) !! key)
  = Some (default None (redis.expiry <$> (db !! key))).
Proof.
  intros Hrate. unfold redis.refill_script, redis.expire_and_return.
  rewrite (idle_expiry_None fdiv cap rate Hrate). cbn [fst snd].
  split; [reflexivity | apply expiry_HSET].
Qed.

(** C10, in the form the code satisfies.
    With a refill rate above zero, Allow and Refill end by giving the
    key [ceil(q) + 1] seconds to live, whatever it had before, [q] being
    the quotient of capacity and refill rate as float64 division gives it
    (so [ceil(capacity / refill_rate) + 1] where that division is exact).
    With a refill rate of zero the quotient is no number of seconds: the
    EXPIRE fails, Allow and Refill return its error and the expiry of the
    key is not touched.  The Available script makes no call that writes,
    EXPIRE included, so the store after it is the store before it. *)
Theorem C10_allow_and_refill_reset_the_expiry :
  forall (fdiv : Q -> Q -> Q) (r : redis.TokenBucket) (key : string) (now : Z)
         (n : Q) (db : gmap string redis.entry),
    let fullKey := (redis.keyPrefix r ++ key)%string in
    let ttl :=
      (Qceiling (fdiv (redis.capacity r) (redis.refillRate r)) + 1)%Z in
    let allowed := redis.Allow fdiv r key now db in
    let refilled := redis.Refill fdiv r key n db in
    (0 < redis.refillRate r ->
     redis.expiry <$> (snd allowed !! fullKey) = Some (Some (ttl * 1000)%Z) /\
     redis.expiry <$> (snd refilled !! fullKey) = Some (Some (ttl * 1000)%Z) /\
     (exists b, fst allowed = Ok b) /\ fst refilled = Ok tt) /\
    (fdiv (redis.capacity r) (redis.refillRate r)
       == redis.capacity r / redis.refillRate r ->
     ttl = (Qceiling (redis.capacity r / redis.refillRate r) + 1)%Z) /\
    (redis.refillRate r == 0 ->
     fst allowed = Err redis.expire_error /\
     fst refilled = Err redis.expire_error /\
     redis.expiry <$> (snd allowed !! fullKey)
       = Some (default None (redis.expiry <$> (db !! fullKey))) /\
     redis.expiry <$> (snd refilled !! fullKey)
       = Some (default None (redis.expiry <$> (db !! fullKey)))) /\
    snd (redis_step fdiv r (OpAvailable key now) db) = db.
Proof.
  intros fdiv r key now n db fullKey ttl allowed refilled.
  split; [|split; [|split]].
  - intros Hpos. assert (Hne : ~ redis.refillRate r == 0) by lra.
    pose proof (redis_Allow_rule fdiv r key now db Hne) as HA.
    pose proof (redis_Refill_rule fdiv r key n db Hne) as HR.
    cbv zeta in HA, HR. fold fullKey ttl allowed in HA.
    fold fullKey ttl refilled in HR.
    destruct HA as (Ha & _ & _ & Hxa). destruct HR as (Hr & _ & _ & Hxr).
    repeat split; try assumption. eauto.
  - intros E. unfold ttl. f_equal. apply Qceiling_comp. exact E.
  - intros H0.
    pose proof (allow_script_rate_zero fdiv fullKey (redis.capacity r)
                  (redis.refillRate r) (redis.unix_seconds fdiv now) db H0)
      as [A1 A2].
    pose proof (refill_script_rate_zero fdiv fullKey n (redis.capacity r)
                  (redis.refillRate r) db H0) as [R1 R2].
    subst allowed refilled. unfold redis.Allow, redis.Refill. fold fullKey.
    destruct (redis.allow_script fdiv fullKey _ _ _ db) as [res db1].
    destruct (redis.refill_script fdiv fullKey _ _ _ db) as [res2 db2].
    cbn [fst snd] in *. subst res res2. cbn [fst snd].
    repeat split; assumption.
  - reflexivity.
Qed.

(** C10 as the specification words it fails for the Available script.  A hash
    written by a limiter of capacity 98 and rate 1 expires after 99 idle
    seconds; a limiter of capacity 4 and rate 1 on the same store would set
    5 seconds.  Its Allow does, its Available leaves the 99 in place. *)
Lemma C10_available_leaves_the_expiry :
  let other := redis.NewTokenBucket (redis.mkConfig 98 1 "") in
  let r := redis.NewTokenBucket (redis.mkConfig 4 1 "") in
  let db := snd (redis.Allow Qdiv other "client" 0 ∅) in
  redis.expiry <$> (db !! "ratelimit:client"%string) = Some (Some 99000%Z) /\
  redis.expiry <$>
    (snd (redis_step Qdiv r (OpAllow "client" 0) db)
       !! "ratelimit:client"%string)
    = Some (Some 5000%Z) /\
  redis.expiry <$>
    (snd (redis_step Qdiv r (OpAvailable "client" 0) db)
       !! "ratelimit:client"%string)
    = Some (Some 99000%Z).
Proof.
  split; [|split]; vm_compute; reflexivity.
Qed.

(** ** C7: the settlement worker *)

Section QueueFacts.

Context {Payload Requirements L : Type}.

Abbreviation Job := (@server.SettlementJob Payload Requirements).
Abbreviation Done := (@server.Settled Payload Requirements).
Abbreviation Queue := (@server.SettlementQueue Payload Requirements).
Abbreviation State := (@server.World Payload Requirements L).

Lemma spaced_snoc (d : Z) (l : list Done) (x : Done) :
  spaced d l ->
  (forall s, last l = Some s -> (server.sFinish s + d <= server.sStart x)%Z) ->
  spaced d (l ++ [x]).
Proof.
  induction l as [|a l IH]; intros Hsp Hlast; [exact I|].
  destruct l as [|b l'].
  - cbn. split; [|exact I]. apply Hlast. reflexivity.
  - cbn [app spaced] in *. destruct Hsp as [Hab Hsp].
    split; [exact Hab|]. apply IH; [exact Hsp|].
    intros s Hs. apply Hlast. exact Hs.
Qed.

Lemma slept_between_snoc (d : Z) (l : list Done) (x : Done) :
  slept_between d l ->
  (l = [] -> server.sSlept x = 0%Z) ->
  (l <> [] -> (d <= server.sSlept x)%Z) ->
  slept_between d (l ++ [x]).
Proof.
  intros Hl H0 H1. destruct l as [|a l].
  - cbn. split; [apply H0; reflexivity | constructor].
  - cbn [app slept_between] in *. destruct Hl as [Ha Hl].
    split; [exact Ha|]. apply Forall_app. split; [exact Hl|].
    constructor; [|constructor]. apply H1. discriminate.
Qed.

(** What holds of the queue at every point of a schedule: everything sent is
    either settled or still in the channel, in send order; the settlements
    are spaced; the worker's flag and clock describe the last settlement. *)
Definition queue_inv (sq : Queue) (sent : list Job) : Prop :=
  map server.sJob (server.settled sq) ++ server.jobs sq = sent /\
  spaced (3 * server.Second) (server.settled sq) /\
  slept_between (3 * server.Second) (server.settled sq) /\
  (if server.first sq then server.settled sq = []
   else exists s, last (server.settled sq) = Some s /\
                  server.sFinish s = server.wclock sq).

Lemma queue_step_inv (w w' : State) (sq : Queue) (sent : list Job)
  (ev : QueueEvent) :
  server.settlementQueue w = Some sq ->
  queue_inv sq sent ->
  forward ev ->
  queue_step w ev = Some w' ->
  exists sq', server.settlementQueue w' = Some sq' /\
              queue_inv sq' (sent ++ enqueued [ev]).
Proof.
  intros Hsq (Hfifo & Hsp & Hsl & Hfirst) Hfw Hstep.
  destruct ev as [job now | e]; cbn [queue_step enqueued] in *.
  - rewrite Hsq in Hstep. unfold server.Enqueue in Hstep.
    destruct (length (server.jobs sq) <? server.bufferSize sq)%nat;
      [|discriminate].
    injection Hstep as <-. eexists. split; [reflexivity|].
    unfold queue_inv. cbn [server.settled server.jobs server.first server.wclock].
    rewrite app_assoc, Hfifo. repeat split; assumption.
  - destruct Hfw as (Hidle & Hover & Htime).
    unfold server.worker_iter in Hstep. rewrite Hsq in Hstep.
    destruct (server.jobs sq) as [|job rest] eqn:Ejobs; [discriminate|].
    injection Hstep as <-. eexists. split; [reflexivity|].
    unfold queue_inv. cbn [server.settled server.jobs server.first server.wclock].
    rewrite app_nil_r, map_app, <- app_assoc. cbn [map app server.sJob].
    split; [exact Hfifo|].
    destruct (server.first sq) eqn:Efirst.
    + rewrite Hfirst. cbn [negb app].
      repeat split; try constructor.
      eexists. split; reflexivity.
    + destruct Hfirst as (s & Hlast & Hfin). cbn [negb].
      split; [|split].
      * apply spaced_snoc; [exact Hsp|].
        intros s' Hs'. rewrite Hlast in Hs'. injection Hs' as <-.
        cbn [server.sStart]. unfold server.Second in *. lia.
      * apply slept_between_snoc; [exact Hsl | |].
        -- intros Hnil. rewrite Hnil in Hlast. discriminate.
        -- intros _. cbn [server.sSlept]. unfold server.Second. lia.
      * eexists. split; [apply last_snoc | reflexivity].
Qed.

Lemma queue_run_inv (evs : list QueueEvent) :
  forall (w w' : State) (sq : Queue) (sent : list Job),
    server.settlementQueue w = Some sq ->
    queue_inv sq sent ->
    Forall forward evs ->
    queue_run evs w = Some w' ->
    exists sq', server.settlementQueue w' = Some sq' /\
                queue_inv sq' (sent ++ enqueued evs).
Proof.
  induction evs as [|ev evs IH]; intros w w' sq sent Hsq Hinv Hfw Hrun.
  - injection Hrun as <-. exists sq. rewrite app_nil_r. split; assumption.
  - inversion Hfw as [|ev' evs' Hev Hrest]; subst.
    cbn [queue_run] in Hrun.
    destruct (queue_step w ev) as [w1|] eqn:Estep; [|discriminate].
    destruct (queue_step_inv w w1 sq sent ev Hsq Hinv Hev Estep)
      as (sq1 & Hsq1 & Hinv1).
    destruct (IH w1 w' sq1 _ Hsq1 Hinv1 Hrest Hrun) as (sq' & Hsq' & Hinv').
    exists sq'. split; [exact Hsq'|].
    rewrite <- app_assoc in Hinv'.
    replace (enqueued (ev :: evs)) with (enqueued [ev] ++ enqueued evs);
      [exact Hinv'|].
    destruct ev; reflexivity.
Qed.

(** The worker is never stuck on a non-empty channel: as many iterations as
    there are jobs in the channel settle them all, in order. *)
Lemma queue_drains (envs : list server.WorkerEnv) :
  forall (w : State) (sq : Queue),
    server.settlementQueue w = Some sq ->
    length envs = length (server.jobs sq) ->
    exists w' sq',
      queue_run (map EvWork envs) w = Some w' /\
      server.settlementQueue w' = Some sq' /\
      server.jobs sq' = [] /\
      map server.sJob (server.settled sq')
        = map server.sJob (server.settled sq) ++ server.jobs sq.
Proof.
  induction envs as [|e envs IH]; intros w sq Hsq Hlen.
  - destruct (server.jobs sq) as [|j js] eqn:E; [|discriminate].
    exists w, sq. rewrite E, app_nil_r. repeat split; assumption.
  - destruct (server.jobs sq) as [|job rest] eqn:E; [discriminate|].
    cbn [map queue_run queue_step]. unfold server.worker_iter at 1.
    rewrite Hsq, E.
    match goal with
    | |- context [queue_run _ (server.mkWorld ?l ?t (Some ?q))] =>
        destruct (IH (server.mkWorld l t (Some q)) q eq_refl)
          as (w' & sq' & Hrun & Hsq' & Hjobs & Hmap)
    end.
    + cbn [server.jobs]. cbn [length] in Hlen. lia.
    + exists w', sq'. repeat split; try assumption.
      rewrite Hmap. cbn [server.settled server.jobs].
      rewrite map_app, <- app_assoc. reflexivity.
Qed.

(** C7.  Along every schedule of enqueues and worker iterations, from
    start-up: the jobs handed to [processSettlement], in order, followed by
    those still in the channel, are the jobs enqueued, in enqueue order;
    every settlement but the first starts at least 3 s after the one before
    it ended, the worker having slept at least 3 s, and the first is not
    preceded by a sleep; and the worker, given as many iterations as jobs
    are waiting, settles them all. *)
Theorem C7_settlements_in_order_and_spaced :
  forall (lim : L) (tr : option trust.Tracker) (bufferSize now0 : Z)
         (evs : list QueueEvent) (w' : State),
    Forall forward evs ->
    queue_run evs
      (server.mkWorld lim tr
         (Some (server.NewSettlementQueue bufferSize now0))) = Some w' ->
    exists sq : Queue,
      server.settlementQueue w' = Some sq /\
      map server.sJob (server.settled sq) ++ server.jobs sq = enqueued evs /\
      spaced (3 * server.Second) (server.settled sq) /\
      slept_between (3 * server.Second) (server.settled sq) /\
      (forall envs : list server.WorkerEnv,
         length envs = length (server.jobs sq) ->
         exists (w'' : State) (sq'' : Queue),
           queue_run (map EvWork envs) w' = Some w'' /\
           server.settlementQueue w'' = Some sq'' /\
           server.jobs sq'' = [] /\
           map server.sJob (server.settled sq'') = enqueued evs).
Proof.
  intros lim tr bufferSize now0 evs w' Hfw Hrun.
  destruct (queue_run_inv evs
              (server.mkWorld lim tr
                 (Some (server.NewSettlementQueue bufferSize now0)))
              w' (server.NewSettlementQueue bufferSize now0)
              [] eq_refl) as (sq & Hsq & Hfifo & Hsp & Hsl & _);
    try assumption.
  { unfold queue_inv. cbn. repeat split. }
  exists sq. cbn [app] in Hfifo. repeat split; try assumption.
  intros envs Hlen.
  destruct (queue_drains envs w' sq Hsq Hlen)
    as (w'' & sq'' & Hrun' & Hsq'' & Hjobs & Hmap).
  exists w'', sq''. rewrite Hmap, Hfifo. repeat split; assumption.
Qed.

End QueueFacts.

(** C7 on two jobs sent at 0 s and 1 s and two worker iterations, the first
    settlement taking 2 s: the second one starts 3 s after the first ended. *)
Lemma C7_two_jobs_settled_in_order :
  let j1 := server.mkSettlementJob "payload1"%string "reqs"%string
              "0xaaa"%string 0 in
  let j2 := server.mkSettlementJob "payload2"%string "reqs"%string
              "0xbbb"%string 0 in
  let ok := server.mkSettleResult true "0xtx" "" in
  let evs := [EvEnqueue j1 0; EvEnqueue j2 1000000000;
              EvWork (server.mkWorkerEnv 0 0 ok 2000000000);
              EvWork (server.mkWorkerEnv 0 0 ok 2000000000)] in
  exists w' : server.World unit,
    queue_run evs
      (server.mkWorld tt (Some (trust.New (trust.mkConfig 3 0)))
         (Some (server.NewSettlementQueue 100 0))) = Some w' /\
    exists sq : server.SettlementQueue,
      server.settlementQueue w' = Some sq /\
      map server.sJob (server.settled sq) ++ server.jobs sq = enqueued evs /\
      spaced (3 * server.Second) (server.settled sq) /\
      slept_between (3 * server.Second) (server.settled sq) /\
      (forall envs : list server.WorkerEnv,
         length envs = length (server.jobs sq) ->
         exists (w'' : server.World unit) (sq'' : server.SettlementQueue),
           queue_run (map EvWork envs) w' = Some w'' /\
           server.settlementQueue w'' = Some sq'' /\
           server.jobs sq'' = [] /\
           map server.sJob (server.settled sq'') = enqueued evs).
Proof.
  cbv zeta. eexists. split.
  - vm_compute. reflexivity.
  - apply (C7_settlements_in_order_and_spaced tt
             (Some (trust.New (trust.mkConfig 3 0))) 100 0).
    + repeat constructor; cbn; lia.
    + vm_compute. reflexivity.
Defined.

(** ** C8: the synchronous payment path *)

Section PipelineFacts.

Context {Payload Requirements L : Type} `{Limiter L}.
Variable StdDecodeString URLDecodeString UnmarshalFrom
  : string -> result string.
Variable ToLower : string -> string.

Abbreviation extract :=
  (server.extractWalletAddress StdDecodeString URLDecodeString UnmarshalFrom
     ToLower).
Abbreviation middleware :=
  (@server.hybridRateLimitPaymentMiddleware Payload Requirements
     StdDecodeString URLDecodeString UnmarshalFrom ToLower L _).


End PipelineFacts.






(** ** C9: the payer id *)

Section PayerFacts.

Variable StdDecodeString URLDecodeString UnmarshalFrom
  : string -> result string.
Variable ToLower : string -> string.

Abbreviation payer :=
  (server.extractWalletAddress StdDecodeString URLDecodeString UnmarshalFrom
     ToLower).

(** C9, in the form the code satisfies.
    The payer id of a header is the lowercased [from]
    field of the JSON that the header decodes to, standard alphabet first
    and URL-safe alphabet when that fails; the empty header, a header that
    neither alphabet decodes, JSON that does not parse and an absent field
    give the empty payer id.  The tracker treats the empty payer id like any
    other: it is untrusted on a new tracker, and trusted exactly when
    [threshold] of the successes kept under it are newer than
    [now - window]. *)
Theorem C9_payer_id_and_its_trust :
  forall (header : string) (cfg : trust.Config) (t : trust.Tracker) (now : Z),
    ToLower "" = ""%string ->
    (* the payer id, by cases on what the library calls answer *)
    payer header =
      (if String.eqb header "" then ""%string
       else match StdDecodeString header, URLDecodeString header with
            | Ok d, _ | Err _, Ok d =>
                match UnmarshalFrom d with
                | Ok from => ToLower from
                | Err _ => ""%string
                end
            | Err _, Err _ => ""%string
            end) /\
    payer "" = ""%string /\
    (forall e1 e2, StdDecodeString header = Err e1 ->
       URLDecodeString header = Err e2 -> payer header = ""%string) /\
    (forall d e, StdDecodeString header = Ok d ->
       UnmarshalFrom d = Err e -> payer header = ""%string) /\
    (forall d, StdDecodeString header = Ok d ->
       UnmarshalFrom d = Ok ""%string -> payer header = ""%string) /\
    (forall d from, header <> ""%string -> StdDecodeString header = Ok d ->
       UnmarshalFrom d = Ok from -> payer header = ToLower from) /\
    (forall e1 d from, header <> ""%string ->
       StdDecodeString header = Err e1 -> URLDecodeString header = Ok d ->
       UnmarshalFrom d = Ok from -> payer header = ToLower from) /\
    (* the empty payer id in the tracker *)
    trust.IsTrusted now (trust.New cfg) "" = false /\
    trust.IsTrusted now t "" =
      (trust.Threshold (trust.config t)
       <=? newer_than (now - trust.Window (trust.config t))
             (trust.history t ""))%Z.
Proof.
  intros header cfg t now Hlower.
  unfold server.extractWalletAddress.
  split; [|split; [|split; [|split; [|split; [|split; [|split; [|split]]]]]]].
  - destruct (String.eqb header ""); [reflexivity|].
    destruct (StdDecodeString header) as [d|e1]; [reflexivity|].
    destruct (URLDecodeString header) as [d|e2]; reflexivity.
  - reflexivity.
  - intros e1 e2 H1 H2. rewrite H1, H2.
    destruct (String.eqb header ""); reflexivity.
  - intros d e H1 H2. rewrite H1, H2.
    destruct (String.eqb header ""); reflexivity.
  - intros d H1 H2. rewrite H1, H2, Hlower.
    destruct (String.eqb header ""); reflexivity.
  - intros d from Hne H1 H2. rewrite H1, H2.
    destruct (String.eqb_spec header ""); [contradiction | reflexivity].
  - intros e1 d from Hne H1 H2 H3. rewrite H1, H2, H3.
    destruct (String.eqb_spec header ""); [contradiction | reflexivity].
  - unfold trust.IsTrusted. rewrite countRecent_newer.
    pose proof (New_threshold_pos cfg) as Hpos.
    apply Z.leb_gt. exact Hpos.
  - unfold trust.IsTrusted. rewrite countRecent_newer. reflexivity.
Qed.

End PayerFacts.

(** C9 with decoders that know one header: it decodes to a payment whose
    [from] is "0xAbC", so the payer id is "0xabc". *)
Lemma C9_payer_of_a_known_header :
  let std := fun h : string =>
    if String.eqb h "cGF5bWVudA==" then Ok "payment"%string
    else Err "illegal base64 data"%string in
  let url := fun _ : string => @Err string "illegal base64 data" in
  let unmarshal := fun d : string =>
    if String.eqb d "payment" then Ok "0xAbC"%string
    else Err "invalid character"%string in
  server.extractWalletAddress std url unmarshal lower_string "cGF5bWVudA=="
  = "0xabc"%string.
Proof.
  exact (proj1 (proj2 (proj2 (proj2 (proj2 (proj2
    (C9_payer_id_and_its_trust
       (fun h : string =>
          if String.eqb h "cGF5bWVudA==" then Ok "payment"%string
          else Err "illegal base64 data"%string)
       (fun _ : string => @Err string "illegal base64 data")
       (fun d : string =>
          if String.eqb d "payment" then Ok "0xAbC"%string
          else Err "invalid character"%string)
       lower_string "cGF5bWVudA==" (trust.mkConfig 3 0)
       (trust.New (trust.mkConfig 3 0)) 0 eq_refl))))))
    "payment"%string "0xAbC"%string ltac:(discriminate) eq_refl eq_refl).
Defined.

(** C9 as the specification words it fails: the empty payer id becomes trusted.
    At the tracker, three successes recorded under it make [IsTrusted ""]
    true.  Through the middleware (capacity 4, threshold 3, in-process
    bucket, every request at the same instant and carrying a verified
    payment whose header does not decode): the 1st, 6th and 11th requests
    find the bucket empty and settle synchronously, each recording a success
    under the empty id; the 16th finds it trusted and is served
    optimistically, with its settlement left pending in the queue. *)
Lemma C9_empty_payer_becomes_trusted :
  let nodecode := fun _ : string => @Err string "illegal base64 data" in
  let req := server.mkRequest "10.0.0.1" "/cpu" "GET" "!!!" "" in
  let e := server.mkRequestEnv 0 0 0 0 0
             (server.ResultPaymentVerified "payload"%string "reqs"%string)
             (server.mkSettleResult true "0xtx" "") in
  let w := server.mkWorld (memory.mkTokenBucket 4 4 0 0)
             (Some (trust.New (trust.mkConfig 3 0)))
             (Some (server.NewSettlementQueue 100 0)) in
  let after15 := snd (serve nodecode nodecode nodecode lower_string 4
                        (repeat (req, e) 15) w) in
  let after16 := snd (serve nodecode nodecode nodecode lower_string 4
                        (repeat (req, e) 16) w) in
  trust.IsTrusted 3
    (trust_run [Succeeded "" 1 1; Succeeded "" 2 2; Succeeded "" 3 3]
       (trust.New (trust.mkConfig 3 0))) "" = true /\
  (fun t => trust.IsTrusted 0 t "") <$> server.trustTracker after15
    = Some true /\
  server.Pending <$> server.settlementQueue after15 = Some 0%Z /\
  server.Pending <$> server.settlementQueue after16 = Some 1%Z.
Proof.
  repeat split; vm_compute; reflexivity.
Qed.

(** * Further properties of the code *)

(** ** The in-process bucket over whole runs *)

Lemma refill_nonneg_tokens now tb :
  0 <= memory.tokens tb -> 0 <= memory.refillRate tb ->
  (memory.lastRefillTime tb <= now)%Z ->
  0 <= memory.tokens (memory.refill now tb).
Proof.
  intros Ht Hr Hnow.
  assert (Hs : 0 <= Seconds (now - memory.lastRefillTime tb) * memory.refillRate tb).
  { apply Qmult_le_0_compat; [apply Seconds_nonneg; lia | exact Hr]. }
  unfold memory.refill. cbn [memory.tokens]. qcases; lra.
Qed.

Lemma memory_step_sane op tb :
  0 <= memory.tokens tb -> 0 <= memory.refillRate tb ->
  clock_forward (memory.lastRefillTime tb) [op] -> refill_nonneg op ->
  let tb' := snd (memory_step op tb) in
  0 <= memory.tokens tb' /\
  (memory.lastRefillTime tb <= memory.lastRefillTime tb')%Z /\
  memory.capacity tb' = memory.capacity tb /\
  memory.refillRate tb' = memory.refillRate tb /\
  match op_clock op with
  | Some now => memory.lastRefillTime tb' = now
  | None => memory.lastRefillTime tb' = memory.lastRefillTime tb
  end /\
  match fst (memory_step op tb) with
  | Tokens q => 0 <= q
  | _ => True
  end.
Proof.
  intros Ht Hr Hclock Hn.
  destruct op as [key now | key n | key now];
    cbn [clock_forward op_clock refill_nonneg memory_step] in *.
  - destruct Hclock as [Hnow _].
    pose proof (refill_nonneg_tokens now tb Ht Hr Hnow) as H0.
    unfold memory.Allow.
    pose proof (refill_last now tb) as Hl1.
    destruct (refill_config now tb) as [Hc1 Hc2].
    set (tb1 := memory.refill now tb) in *. clearbody tb1.
    destruct (Qle_bool 1 (memory.tokens tb1)) eqn:E;
      cbn [fst snd memory.with_tokens memory.tokens memory.lastRefillTime
           memory.capacity memory.refillRate];
      rewrite ?Hl1, ?Hc1, ?Hc2;
      repeat split; try assumption; try reflexivity.
    apply Qle_bool_iff in E. lra.
  - cbn [snd fst memory.Refill memory.with_tokens memory.tokens
         memory.lastRefillTime memory.capacity memory.refillRate].
    repeat split; try reflexivity; try lia. lra.
  - destruct Hclock as [Hnow _].
    pose proof (refill_nonneg_tokens now tb Ht Hr Hnow) as H0.
    cbn [memory.Available fst snd].
    pose proof (refill_last now tb) as Hl1.
    destruct (refill_config now tb) as [Hc1 Hc2].
    rewrite ?Hl1, ?Hc1, ?Hc2.
    repeat split; try assumption; reflexivity.
Qed.

Lemma clock_forward_head last op rest :
  clock_forward last (op :: rest) ->
  clock_forward last [op] /\
  clock_forward (match op_clock op with Some now => now | None => last end) rest.
Proof.
  cbn [clock_forward]. destruct (op_clock op) as [now|]; [|tauto].
  intros [H1 H2]. tauto.
Qed.

Lemma memory_run_sane :
  forall (ops : list Op) (tb : memory.TokenBucket),
    0 <= memory.tokens tb ->
    0 <= memory.refillRate tb ->
    clock_forward (memory.lastRefillTime tb) ops ->
    Forall refill_nonneg ops ->
    let tb' := snd (run memory_step ops tb) in
    0 <= memory.tokens tb' /\
    (memory.lastRefillTime tb <= memory.lastRefillTime tb')%Z /\
    memory.capacity tb' = memory.capacity tb /\
    memory.refillRate tb' = memory.refillRate tb /\
    Forall (fun o => match o with Tokens q => 0 <= q | _ => True end)
           (fst (run memory_step ops tb)).
Proof.
  induction ops as [|op rest IH]; intros tb Ht Hr Hclock Hn.
  - cbn. repeat split; try lra; try lia; constructor.
  - inversion Hn as [|op' rest' Hop Hrest]; subst.
    destruct (clock_forward_head _ _ _ Hclock) as [Hc1 Hc2].
    pose proof (memory_step_sane op tb Ht Hr Hc1 Hop) as Hstep.
    cbv zeta in Hstep. cbn [run].
    destruct (memory_step op tb) as [o tb1]. cbn [fst snd] in Hstep.
    destruct Hstep as (H0 & Hl & Hcap & Hrate & Hclk & Hobs).
    assert (Hc3 : clock_forward (memory.lastRefillTime tb1) rest).
    { destruct (op_clock op); rewrite Hclk; exact Hc2. }
    rewrite <- Hrate in Hr.
    specialize (IH tb1 H0 Hr Hc3 Hrest). cbv zeta in IH.
    destruct (run memory_step rest tb1) as [os tb2]. cbn [fst snd] in *.
    destruct IH as (I0 & Il & Icap & Irate & Iobs).
    repeat split; try assumption; try lia; try congruence.
    constructor; assumption.
Qed.

(** Over any run of Allow, Available and Refill (of non-negative amounts)
    whose clock readings do not go backwards, on a bucket that starts with a
    non-negative count and rate: the count never goes negative, no Available
    reports a negative count, the refill time only advances, and the capacity
    and the rate stay what they were. *)
Theorem memory_run_keeps_the_bucket_sane :
  forall (ops : list Op) (tb : memory.TokenBucket),
    0 <= memory.tokens tb ->
    0 <= memory.refillRate tb ->
    clock_forward (memory.lastRefillTime tb) ops ->
    Forall refill_nonneg ops ->
    let tb' := snd (run memory_step ops tb) in
    0 <= memory.tokens tb' /\
    (memory.lastRefillTime tb <= memory.lastRefillTime tb')%Z /\
    memory.capacity tb' = memory.capacity tb /\
    memory.refillRate tb' = memory.refillRate tb /\
    Forall (fun o => match o with Tokens q => 0 <= q | _ => True end)
           (fst (run memory_step ops tb)).
Proof.
  exact memory_run_sane.
Qed.

(** A run from a bucket emptied at second 0: one rejected Allow, a paid
    refill, a read of the count. *)
Lemma memory_run_sane_on_a_paid_run :
  let tb := memory.mkTokenBucket 4 4 0 0 in
  let ops := [OpAllow "c" 100000000; OpRefill "c" 4; OpAvailable "c" 200000000] in
  0 <= memory.tokens (snd (run memory_step ops tb)).
Proof.
  refine (proj1 (memory_run_keeps_the_bucket_sane
    [OpAllow "c" 100000000; OpRefill "c" 4; OpAvailable "c" 200000000]
    (memory.mkTokenBucket 4 4 0 0) _ _ _ _)).
  - vm_compute. discriminate.
  - vm_compute. discriminate.
  - cbn. lia.
  - repeat constructor. vm_compute. discriminate.
Defined.

Lemma memory_step_ceiling op tb :
  not_refill op ->
  memory.tokens (snd (memory_step op tb))
    <= Qmax (memory.tokens tb) (memory.capacity tb) /\
  memory.capacity (snd (memory_step op tb)) = memory.capacity tb /\
  match fst (memory_step op tb) with
  | Tokens q => q <= Qmax (memory.tokens tb) (memory.capacity tb)
  | _ => True
  end.
Proof.
  intros Hop. pose proof (refill_above_or_capped) as Hcap.
  destruct op as [key now | key n | key now]; cbn [not_refill] in Hop;
    try contradiction; cbn [memory_step].
  - specialize (Hcap now tb). unfold memory.Allow.
    destruct (refill_config now tb) as [Hc1 _].
    set (tb1 := memory.refill now tb) in *. clearbody tb1.
    destruct (Qle_bool 1 (memory.tokens tb1));
      cbn [fst snd memory.with_tokens memory.tokens memory.capacity];
      repeat split; try assumption; lra.
  - specialize (Hcap now tb). cbn [memory.Available fst snd].
    destruct (refill_config now tb) as [Hc1 _].
    repeat split; assumption.
Qed.

Lemma memory_step_clock op tb :
  memory.refillRate (snd (memory_step op tb)) = memory.refillRate tb /\
  match op_clock op with
  | Some now => memory.lastRefillTime (snd (memory_step op tb)) = now
  | None => memory.lastRefillTime (snd (memory_step op tb))
            = memory.lastRefillTime tb
  end.
Proof.
  destruct op as [key now | key n | key now]; cbn [op_clock memory_step].
  - unfold memory.Allow.
    destruct (Qle_bool 1 (memory.tokens (memory.refill now tb)));
      split; reflexivity.
  - split; reflexivity.
  - split; reflexivity.
Qed.

Lemma memory_step_account op tb :
  0 <= memory.refillRate tb ->
  clock_forward (memory.lastRefillTime tb) [op] ->
  let o := fst (memory_step op tb) in
  let tb' := snd (memory_step op tb) in
  inject_Z (Z.of_nat (admitted [o])) + memory.tokens tb'
    <= memory.tokens tb
       + Seconds (memory.lastRefillTime tb' - memory.lastRefillTime tb)
         * memory.refillRate tb
       + paid [op].
Proof.
  intros Hr Hclock.
  destruct op as [key now | key n | key now];
    cbn [clock_forward op_clock memory_step paid] in *.
  - destruct Hclock as [Hnow _].
    assert (Hs : 0 <= Seconds (now - memory.lastRefillTime tb)
                      * memory.refillRate tb).
    { apply Qmult_le_0_compat; [apply Seconds_nonneg; lia | exact Hr]. }
    destruct (natural_refill_rule_bracket (memory.capacity tb)
                (memory.refillRate tb) (memory.tokens tb) _ Hs) as [_ Hup].
    rewrite <- refill_tokens in Hup.
    unfold memory.Allow. pose proof (refill_last now tb) as Hl.
    set (tb1 := memory.refill now tb) in *. clearbody tb1.
    destruct (Qle_bool 1 (memory.tokens tb1));
      cbn [fst snd admitted memory.with_tokens memory.tokens
           memory.lastRefillTime]; rewrite Hl;
      [change (inject_Z (Z.of_nat 1)) with 1
      |change (inject_Z (Z.of_nat 0)) with 0]; lra.
  - cbn [fst snd admitted memory.Refill memory.with_tokens memory.tokens
         memory.lastRefillTime].
    rewrite Z.sub_diag, Seconds_0. change (inject_Z (Z.of_nat 0)) with 0.
    lra.
  - destruct Hclock as [Hnow _].
    assert (Hs : 0 <= Seconds (now - memory.lastRefillTime tb)
                      * memory.refillRate tb).
    { apply Qmult_le_0_compat; [apply Seconds_nonneg; lia | exact Hr]. }
    destruct (natural_refill_rule_bracket (memory.capacity tb)
                (memory.refillRate tb) (memory.tokens tb) _ Hs) as [_ Hup].
    rewrite <- refill_tokens in Hup.
    cbn [memory.Available fst snd admitted]. rewrite refill_last.
    change (inject_Z (Z.of_nat 0)) with 0. lra.
Qed.

Lemma admitted_cons o os :
  inject_Z (Z.of_nat (admitted (o :: os)))
  == inject_Z (Z.of_nat (admitted [o])) + inject_Z (Z.of_nat (admitted os)).
Proof.
  rewrite <- inject_Z_plus, <- Nat2Z.inj_add.
  destruct o as [[|]| |q|err]; reflexivity.
Qed.

Lemma paid_cons op ops : paid (op :: ops) == paid [op] + paid ops.
Proof. destruct op; cbn [paid]; lra. Qed.

Lemma memory_run_account :
  forall (ops : list Op) (tb : memory.TokenBucket),
    0 <= memory.tokens tb ->
    0 <= memory.refillRate tb ->
    clock_forward (memory.lastRefillTime tb) ops ->
    Forall refill_nonneg ops ->
    let obs := fst (run memory_step ops tb) in
    let tb' := snd (run memory_step ops tb) in
    let budget :=
      memory.tokens tb
      + Seconds (memory.lastRefillTime tb' - memory.lastRefillTime tb)
        * memory.refillRate tb
      + paid ops in
    inject_Z (Z.of_nat (admitted obs)) + memory.tokens tb' <= budget /\
    inject_Z (Z.of_nat (admitted obs)) <= budget.
Proof.
  intros ops tb Ht Hr Hclock Hn obs tb' budget.
  assert (Hleft : 0 <= memory.tokens tb').
  { apply (memory_run_sane ops tb Ht Hr Hclock Hn). }
  assert (Hacc : inject_Z (Z.of_nat (admitted obs)) + memory.tokens tb'
                 <= budget); [|split; [exact Hacc | lra]].
  subst obs tb' budget. clear Ht Hn Hleft.
  revert tb Hr Hclock.
  induction ops as [|op rest IH]; intros tb Hr Hclock.
  - cbn [run fst snd admitted paid]. rewrite Z.sub_diag, Seconds_0.
    change (inject_Z (Z.of_nat 0)) with 0. lra.
  - destruct (clock_forward_head _ _ _ Hclock) as [Hc1 Hc2].
    pose proof (memory_step_account op tb Hr Hc1) as Hstep.
    pose proof (memory_step_clock op tb) as (Hrate & Hclk).
    cbv zeta in Hstep. cbn [run].
    destruct (memory_step op tb) as [o tb1]. cbn [fst snd] in *.
    assert (Hc3 : clock_forward (memory.lastRefillTime tb1) rest).
    { destruct (op_clock op); rewrite Hclk; exact Hc2. }
    assert (Hr1 : 0 <= memory.refillRate tb1) by (rewrite Hrate; exact Hr).
    specialize (IH tb1 Hr1 Hc3).
    destruct (run memory_step rest tb1) as [os tb2]. cbn [fst snd] in *.
    rewrite admitted_cons, paid_cons. rewrite Hrate in IH.
    rewrite (Seconds_sub (memory.lastRefillTime tb)
               (memory.lastRefillTime tb1) (memory.lastRefillTime tb2)).
    lra.
Qed.

(** Every admission is paid for, by time or by a Refill.  Over any run whose
    clock readings do not go backwards, on a bucket with a non-negative count
    and rate, the requests admitted and the tokens left add up to at most the
    tokens at the start, plus the rate times the time the run spans, plus the
    amounts refilled; so no more requests are admitted than that. *)
Theorem memory_admissions_are_paid_by_time_or_refill :
  forall (ops : list Op) (tb : memory.TokenBucket),
    0 <= memory.tokens tb ->
    0 <= memory.refillRate tb ->
    clock_forward (memory.lastRefillTime tb) ops ->
    Forall refill_nonneg ops ->
    let obs := fst (run memory_step ops tb) in
    let tb' := snd (run memory_step ops tb) in
    let budget :=
      memory.tokens tb
      + Seconds (memory.lastRefillTime tb' - memory.lastRefillTime tb)
        * memory.refillRate tb
      + paid ops in
    inject_Z (Z.of_nat (admitted obs)) + memory.tokens tb' <= budget /\
    inject_Z (Z.of_nat (admitted obs)) <= budget.
Proof.
  exact memory_run_account.
Qed.

(** A full bucket of 2 at 1 token per second, three requests at once, a
    Refill of 2 and two more requests a second later: four are admitted, of
    a budget of 2 + 1 + 2. *)
Lemma memory_admissions_on_a_paid_run :
  let tb := memory.NewTokenBucket 2 1 0 in
  let ops := [OpAllow "k" 0; OpAllow "k" 0; OpAllow "k" 0; OpRefill "k" 2;
              OpAllow "k" 1000000000; OpAllow "k" 1000000000] in
  inject_Z (Z.of_nat (admitted (fst (run memory_step ops tb)))) <= 5.
Proof.
  refine (Qle_trans _ _ _
    (proj2 (memory_admissions_are_paid_by_time_or_refill
       [OpAllow "k" 0; OpAllow "k" 0; OpAllow "k" 0; OpRefill "k" 2;
        OpAllow "k" 1000000000; OpAllow "k" 1000000000]
       (memory.NewTokenBucket 2 1 0) _ _ _ _)) _).
  - vm_compute. discriminate.
  - vm_compute. discriminate.
  - cbn. lia.
  - repeat constructor; vm_compute; discriminate.
  - vm_compute. discriminate.
Defined.

(** Without a Refill the count never rises above the larger of where it
    started and the capacity, at any clock readings: a bucket at or below
    capacity stays there, and a bucket above capacity never gains. *)
Theorem memory_only_refill_raises_the_ceiling :
  forall (ops : list Op) (tb : memory.TokenBucket),
    Forall not_refill ops ->
    memory.tokens (snd (run memory_step ops tb))
      <= Qmax (memory.tokens tb) (memory.capacity tb) /\
    Forall (fun o => match o with
                     | Tokens q => q <= Qmax (memory.tokens tb) (memory.capacity tb)
                     | _ => True
                     end)
           (fst (run memory_step ops tb)).
Proof.
  induction ops as [|op rest IH]; intros tb Hops.
  - cbn. split; [apply Q.le_max_l | constructor].
  - inversion Hops as [|op' rest' Hop Hrest]; subst.
    pose proof (memory_step_ceiling op tb Hop) as (Ht & Hc & Ho).
    cbn [run]. destruct (memory_step op tb) as [o tb1]. cbn [fst snd] in *.
    specialize (IH tb1 Hrest).
    destruct (run memory_step rest tb1) as [os tb2]. cbn [fst snd] in *.
    destruct IH as [I1 I2]. rewrite Hc in I1, I2.
    assert (Hmax : Qmax (memory.tokens tb1) (memory.capacity tb)
                   <= Qmax (memory.tokens tb) (memory.capacity tb)).
    { apply Q.max_lub; [exact Ht | apply Q.le_max_r]. }
    split; [lra|]. constructor; [exact Ho|].
    eapply List.Forall_impl; [|exact I2].
    intros [b| |q|err]; cbv beta; try trivial. intros Hq. lra.
Qed.

(** Eight burst tokens on capacity 4: reads and requests one and two
    seconds later never see more than 8. *)
Lemma memory_ceiling_on_burst_tokens :
  let tb := memory.mkTokenBucket 4 4 8 0 in
  let ops := [OpAvailable "c" 1000000000; OpAllow "c" 1000000000;
              OpAvailable "c" 2000000000] in
  memory.tokens (snd (run memory_step ops tb)) <= Qmax 8 4.
Proof.
  refine (proj1 (memory_only_refill_raises_the_ceiling
    [OpAvailable "c" 1000000000; OpAllow "c" 1000000000;
     OpAvailable "c" 2000000000]
    (memory.mkTokenBucket 4 4 8 0) _)).
  repeat constructor.
Defined.

Lemma allow_run_spends_paid_tokens key ts :
  forall (tb : memory.TokenBucket) (base : Q),
    memory.capacity tb <= base -> 0 <= base ->
    memory.tokens tb == base + inject_Z (Z.of_nat (length ts)) ->
    fst (allow_run key ts tb) = repeat true (length ts) /\
    memory.tokens (snd (allow_run key ts tb)) == base.
Proof.
  induction ts as [|t rest IH]; intros tb base Hcap Hbase Htok.
  - cbn [length] in Htok. change (inject_Z (Z.of_nat 0)) with 0 in Htok.
    cbn [allow_run fst snd length repeat]. split; [reflexivity | lra].
  - cbn [length] in Htok. rewrite inject_nat_S in Htok.
    pose proof (inject_nat_nonneg (length rest)) as Hlen.
    assert (Hr : memory.tokens (memory.refill t tb) == memory.tokens tb).
    { unfold memory.refill. cbn [memory.tokens]. qcases; lra. }
    destruct (refill_config t tb) as [Hc1 _].
    cbn [allow_run length repeat].
    rewrite (Allow_true key t tb) by lra.
    set (tb1 := memory.refill t tb) in *. clearbody tb1.
    specialize (IH (memory.with_tokens tb1 (memory.tokens tb1 - 1)) base).
    destruct (allow_run key rest _) as [oks tb2]. cbn [fst snd] in *.
    destruct IH as [I1 I2];
      cbn [memory.capacity memory.tokens memory.with_tokens];
      try rewrite Hc1; try assumption; try lra.
    split; [f_equal; exact I1 | exact I2].
Qed.

(** Paid tokens are spent before anything regenerates: on a bucket at or
    above capacity, [Refill(key, n)] followed by [n] Allows, at whatever
    clock readings, admits all [n] and leaves the count where it was. *)
Theorem memory_refill_then_allows_round_trip :
  forall (key : string) (ts : list Z) (tb : memory.TokenBucket),
    memory.capacity tb <= memory.tokens tb ->
    0 <= memory.tokens tb ->
    let n := length ts in
    let r := allow_run key ts
               (memory.Refill key (inject_Z (Z.of_nat n)) tb) in
    fst r = repeat true n /\ memory.tokens (snd r) == memory.tokens tb.
Proof.
  intros key ts tb Hcap H0 n r. subst r n.
  apply allow_run_spends_paid_tokens; try assumption.
  reflexivity.
Qed.

(** A full bucket of capacity 4: a refill of 3 and three requests spread
    over ten seconds leave 4 tokens. *)
Lemma memory_round_trip_on_a_full_bucket :
  let tb := memory.NewTokenBucket 4 4 0 in
  let r := allow_run "c" [1000000000; 5000000000; 10000000000]%Z
             (memory.Refill "c" 3 tb) in
  fst r = [true; true; true] /\ memory.tokens (snd r) == 4.
Proof.
  refine (memory_refill_then_allows_round_trip "c"
            [1000000000; 5000000000; 10000000000]%Z
            (memory.NewTokenBucket 4 4 0) _ _).
  - vm_compute. discriminate.
  - vm_compute. discriminate.
Defined.

Lemma refill_accrued_one now tb :
  1 <= memory.capacity tb -> 0 <= memory.tokens tb ->
  1 <= Seconds (now - memory.lastRefillTime tb) * memory.refillRate tb ->
  1 <= memory.tokens (memory.refill now tb).
Proof.
  intros Hc Ht Hs. unfold memory.refill. cbn [memory.tokens]. qcases; lra.
Qed.

Lemma allow_run_paced key ts :
  forall tb : memory.TokenBucket,
    1 <= memory.capacity tb -> 0 <= memory.tokens tb ->
    paced (memory.refillRate tb) (memory.lastRefillTime tb) ts ->
    fst (allow_run key ts tb) = repeat true (length ts).
Proof.
  induction ts as [|t rest IH]; intros tb Hc Ht Hp; [reflexivity|].
  cbn [paced] in Hp. destruct Hp as [Hgap Hp].
  pose proof (refill_accrued_one t tb Hc Ht Hgap) as H1.
  pose proof (refill_last t tb) as Hl1.
  destruct (refill_config t tb) as [Hc1 Hc2].
  cbn [allow_run length repeat].
  rewrite (Allow_true key t tb) by exact H1.
  set (tb1 := memory.refill t tb) in *. clearbody tb1.
  specialize (IH (memory.with_tokens tb1 (memory.tokens tb1 - 1))).
  destruct (allow_run key rest _) as [oks tb2]. cbn [fst] in *.
  f_equal. apply IH;
    cbn [memory.capacity memory.tokens memory.with_tokens memory.refillRate
         memory.lastRefillTime]; rewrite ?Hc1, ?Hc2, ?Hl1;
    try assumption; lra.
Qed.

(** Requests no faster than the refill rate are all admitted: on a bucket
    of capacity at least 1 that holds at least one token, a first request
    and then requests each at least [1 / rate] seconds after the one before
    it are admitted, every one. *)
Theorem memory_steady_requests_are_admitted :
  forall (key : string) (t1 : Z) (ts : list Z) (tb : memory.TokenBucket),
    1 <= memory.capacity tb ->
    1 <= memory.tokens tb ->
    0 <= memory.refillRate tb ->
    (memory.lastRefillTime tb <= t1)%Z ->
    paced (memory.refillRate tb) t1 ts ->
    fst (allow_run key (t1 :: ts) tb) = repeat true (S (length ts)).
Proof.
  intros key t1 ts tb Hc Ht Hr Hclock Hp.
  assert (H1 : 1 <= memory.tokens (memory.refill t1 tb)).
  { assert (Hs : 0 <= Seconds (t1 - memory.lastRefillTime tb)
                      * memory.refillRate tb).
    { apply Qmult_le_0_compat; [apply Seconds_nonneg; lia | exact Hr]. }
    unfold memory.refill. cbn [memory.tokens]. qcases; lra. }
  pose proof (refill_last t1 tb) as Hl1.
  destruct (refill_config t1 tb) as [Hc1 Hc2].
  cbn [allow_run repeat].
  rewrite (Allow_true key t1 tb) by exact H1.
  set (tb1 := memory.refill t1 tb) in *. clearbody tb1.
  pose proof (allow_run_paced key ts
                (memory.with_tokens tb1 (memory.tokens tb1 - 1))) as HP.
  destruct (allow_run key ts _) as [oks tb2]. cbn [fst] in *.
  f_equal. apply HP;
    cbn [memory.capacity memory.tokens memory.with_tokens memory.refillRate
         memory.lastRefillTime]; rewrite ?Hc1, ?Hc2, ?Hl1;
    try assumption; lra.
Qed.

(** One token left, rate 4 per second: requests every 250 ms all pass. *)
Lemma memory_steady_requests_every_quarter_second :
  fst (allow_run "c" [0; 250000000; 500000000; 750000000]%Z
         (memory.mkTokenBucket 4 4 1 0)) = [true; true; true; true].
Proof.
  refine (memory_steady_requests_are_admitted "c" 0
            [250000000; 500000000; 750000000]%Z
            (memory.mkTokenBucket 4 4 1 0) _ _ _ _ _).
  - vm_compute. discriminate.
  - vm_compute. discriminate.
  - vm_compute. discriminate.
  - cbn. lia.
  - cbn. repeat split; vm_compute; discriminate.
Defined.

(** After any Allow, admitted or not, the same client is admitted once
    [1 / rate] seconds have passed (capacity at least 1, count and clock
    in order). *)
Theorem memory_allow_after_waiting_is_admitted :
  forall (key : string) (t t' : Z) (tb : memory.TokenBucket),
    1 <= memory.capacity tb ->
    0 <= memory.tokens tb ->
    0 <= memory.refillRate tb ->
    (memory.lastRefillTime tb <= t)%Z ->
    1 <= Seconds (t' - t) * memory.refillRate tb ->
    fst (memory.Allow key t' (snd (memory.Allow key t tb))) = true.
Proof.
  intros key t t' tb Hc Ht Hr Hclock Hgap.
  pose proof (memory_step_sane (OpAllow key t) tb Ht Hr) as Hs.
  cbn [clock_forward op_clock refill_nonneg memory_step] in Hs.
  specialize (Hs (conj Hclock I) I). cbv zeta in Hs.
  destruct (memory.Allow key t tb) as [b tb1]. cbn [fst snd] in *.
  destruct Hs as (H0 & _ & Hcap & Hrate & Hl & _).
  rewrite Allow_true; [reflexivity|].
  apply refill_accrued_one; rewrite ?Hcap, ?Hrate, ?Hl; assumption.
Qed.

(** An empty bucket of rate 4: rejected at 0 s, admitted at 0.25 s. *)
Lemma memory_rejected_then_admitted_after_a_quarter_second :
  fst (memory.Allow "c" 250000000
         (snd (memory.Allow "c" 0 (memory.mkTokenBucket 4 4 0 0)))) = true.
Proof.
  refine (memory_allow_after_waiting_is_admitted "c" 0 250000000
            (memory.mkTokenBucket 4 4 0 0) _ _ _ _ _).
  - vm_compute. discriminate.
  - vm_compute. discriminate.
  - vm_compute. discriminate.
  - cbn. lia.
  - vm_compute. discriminate.
Defined.

(** ** The Redis scripts on edge cases *)

Lemma natural_refill_rule_no_time cap rate T d :
  d * rate == 0 -> natural_refill_rule cap rate T d == T.
Proof.
  intros H. unfold natural_refill_rule. qcases; [|reflexivity].
  rewrite H, Q.min_r by lra. lra.
Qed.

(** A Refill on a key the store does not hold writes the count only, so the
    Allow that follows finds no [last_refill], takes [now] for it and adds
    nothing for elapsed time, whatever the caller's clock reads.  What it
    finds depends on the store's clock alone: while the key lives (less than
    the idle expiry after the Refill) it answers from [capacity + n] and
    stores that, less the token it took; once the key has expired the paid
    tokens are gone with it and the request meets a new bucket at
    capacity. *)
Theorem redis_first_touch_refill_then_allow :
  forall (fdiv : Q -> Q -> Q) (r : redis.TokenBucket) (key : string) (n : Q)
         (gap now : Z) (db : gmap string redis.entry),
    db !! (redis.keyPrefix r ++ key)%string = None ->
    0 < redis.refillRate r ->
    let fullKey := (redis.keyPrefix r ++ key)%string in
    let cap := redis.capacity r in
    let ttl := (Qceiling (fdiv cap (redis.refillRate r)) + 1)%Z in
    let db1 := snd (redis.Refill fdiv r key n db) in
    let res := redis.Allow fdiv r key now (redis.elapse gap db1) in
    let seen := if (gap <? ttl * 1000)%Z then cap + n else cap in
    fst (redis.Refill fdiv r key n db) = Ok tt /\
    redis.HGET db1 fullKey "tokens" = Some (cap + n) /\
    redis.HGET db1 fullKey "last_refill" = None /\
    fst res = Ok (Qle_bool 1 seen) /\
    (exists v, redis.HGET (snd res) fullKey "tokens" = Some v /\
               v == seen - (if Qle_bool 1 seen then 1 else 0)) /\
    redis.HGET (snd res) fullKey "last_refill"
    = Some (redis.unix_seconds fdiv now).
Proof.
  intros fdiv r key n gap now db Hfresh Hrate fullKey cap ttl db1 res seen.
  assert (Hne : ~ redis.refillRate r == 0) by lra.
  assert (Ht0 : redis.HGET db fullKey "tokens" = None)
    by (unfold redis.HGET, fullKey; rewrite Hfresh; reflexivity).
  assert (Hl0 : redis.HGET db fullKey "last_refill" = None)
    by (unfold redis.HGET, fullKey; rewrite Hfresh; reflexivity).
  pose proof (redis_Refill_rule fdiv r key n db Hne) as HR.
  cbv zeta in HR. fold fullKey db1 cap ttl in HR.
  rewrite Ht0, Hl0 in HR. cbn [default from_option id] in HR.
  destruct HR as (Hok & Ht1 & Hl1 & Hx1).
  split; [exact Hok|]. split; [exact Ht1|]. split; [exact Hl1|].
  pose proof (redis_Allow_rule fdiv r key now (redis.elapse gap db1) Hne) as HA.
  cbv zeta in HA. fold fullKey cap res in HA.
  destruct HA as (Ha & (v & Hv & Hveq) & Hlast & _).
  set (T' := natural_refill_rule cap (redis.refillRate r) _ _) in *.
  assert (Hseen : T' == seen).
  { subst T' seen. destruct (Z.ltb_spec gap (ttl * 1000)) as [Hlt|Hge].
    - destruct (elapse_keeps gap db1 fullKey _ Hx1 Hlt) as [Hk _].
      rewrite !Hk, Ht1, Hl1. cbn [default from_option id].
      apply natural_refill_rule_no_time. ring.
    - assert (Hgone : redis.elapse gap db1 !! fullKey = None).
      { destruct (db1 !! fullKey) as [e|] eqn:He; [|discriminate].
        cbn in Hx1. injection Hx1 as Hx1.
        apply (lookup_elapse_gone gap db1 fullKey e _ He Hx1 Hge). }
      unfold redis.HGET. rewrite Hgone. cbn [default from_option id].
      apply natural_refill_rule_no_time. ring. }
  rewrite (Qle_bool_compat 1 _ _ Hseen) in Ha, Hveq.
  split; [exact Ha|]. split; [|exact Hlast].
  exists v. split; [exact Hv|]. rewrite Hveq, Hseen. reflexivity.
Qed.

(** A first refill of 2 on capacity 4 at rate 1, where the key lives five
    seconds: a request three seconds later is admitted from 6 tokens, one six
    seconds later from 4. *)
Lemma redis_first_touch_refill_on_an_empty_store :
  let r := redis.NewTokenBucket (redis.mkConfig 4 1 "") in
  let db1 := snd (redis.Refill Qdiv r "c" 2 ∅) in
  (exists v,
     redis.HGET (snd (redis.Allow Qdiv r "c" 3000000000 (redis.elapse 3000 db1)))
       "ratelimit:c" "tokens" = Some v /\ v == 5) /\
  (exists v,
     redis.HGET (snd (redis.Allow Qdiv r "c" 6000000000 (redis.elapse 6000 db1)))
       "ratelimit:c" "tokens" = Some v /\ v == 3).
Proof.
  split.
  - exact (proj1 (proj2 (proj2 (proj2 (proj2
      (redis_first_touch_refill_then_allow Qdiv
         (redis.NewTokenBucket (redis.mkConfig 4 1 "")) "c" 2 3000
         3000000000 ∅ eq_refl eq_refl)))))).
  - exact (proj1 (proj2 (proj2 (proj2 (proj2
      (redis_first_touch_refill_then_allow Qdiv
         (redis.NewTokenBucket (redis.mkConfig 4 1 "")) "c" 2 6000
         6000000000 ∅ eq_refl eq_refl)))))).
Defined.

(** What the earlier Allow script leaves in the hash. *)
Lemma allow_script_v1_fields fdiv key capacity refill_rate now db :
  let T := default capacity (redis.HGET db key "tokens") in
  let last := default now (redis.HGET db key "last_refill") in
  let T' := Qmin capacity (T + (now - last) * refill_rate) in
  let '(res, db') :=
    redis_v1.allow_script fdiv key capacity refill_rate now db in
  res = match redis.idle_expiry fdiv capacity refill_rate with
        | Some _ => Ok (if Qle_bool 1 T' then 1%Z else 0%Z)
        | None => Err redis.expire_error
        end /\
  redis.HGET db' key "tokens" = Some (if Qle_bool 1 T' then T' - 1 else T') /\
  redis.HGET db' key "last_refill" = Some now.
Proof.
  intros T last T'. unfold redis_v1.allow_script.
  fold T. fold last. fold T'.
  destruct (Qle_bool 1 T');
    match goal with
    | |- let '(_, _) := ?x in _ =>
        rewrite (surjective_pairing x); rewrite expire_and_return_reply,
          !HGET_expire_and_return
    end; cbn [redis.HMSET];
    (split; [reflexivity|]); split.
  - rewrite HGET_HSET_ne_field by discriminate. apply HGET_HSET_eq.
  - apply HGET_HSET_eq.
  - rewrite HGET_HSET_ne_field by discriminate. apply HGET_HSET_eq.
  - apply HGET_HSET_eq.
Qed.

(** The earlier Allow script and the current one do the same to a bucket
    that holds no more than its capacity (the clock not running backwards):
    same answer, same count stored, same [last_refill]. *)
Theorem redis_earlier_script_agrees_below_capacity :
  forall (fdiv : Q -> Q -> Q) (key : string) (cap rate now : Q)
         (db : gmap string redis.entry),
    default cap (redis.HGET db key "tokens") <= cap ->
    0 <= (now - default now (redis.HGET db key "last_refill")) * rate ->
    let old := redis_v1.allow_script fdiv key cap rate now db in
    let new := redis.allow_script fdiv key cap rate now db in
    fst old = fst new /\
    (exists v w, redis.HGET (snd old) key "tokens" = Some v /\
                 redis.HGET (snd new) key "tokens" = Some w /\ v == w) /\
    redis.HGET (snd old) key "last_refill"
      = redis.HGET (snd new) key "last_refill".
Proof.
  intros fdiv key cap rate now db Hle Hel old new. subst old new.
  pose proof (allow_script_v1_fields fdiv key cap rate now db) as H1.
  pose proof (allow_script_fields fdiv key cap rate now db) as H2.
  cbv zeta in H1, H2.
  destruct (redis_v1.allow_script fdiv key cap rate now db) as [r1 db1].
  destruct (redis.allow_script fdiv key cap rate now db) as [r2 db2].
  cbn [fst snd].
  destruct H1 as (R1 & T1 & L1). destruct H2 as (R2 & T2 & L2).
  set (T := default cap (redis.HGET db key "tokens")) in *.
  set (d := (now - default now (redis.HGET db key "last_refill")) * rate) in *.
  assert (E : (if Qlt_bool T cap
               then if Qlt_bool cap (T + d) then cap else T + d
               else T) == Qmin cap (T + d)).
  { qcases.
    - symmetry. apply Q.min_l. lra.
    - symmetry. apply Q.min_r. lra.
    - symmetry. rewrite Q.min_l by lra. lra. }
  revert R2 T2 E.
  generalize (if Qlt_bool T cap
              then if Qlt_bool cap (T + d) then cap else T + d
              else T) as X.
  revert R1 T1. generalize (Qmin cap (T + d)) as Y.
  intros Y R1 T1 X R2 T2 E.
  assert (Hb : Qle_bool 1 Y = Qle_bool 1 X).
  { destruct (Qle_bool 1 Y) eqn:EY, (Qle_bool 1 X) eqn:EX; try reflexivity.
    - apply Qle_bool_iff in EY. apply Qle_bool_false_iff in EX. lra.
    - apply Qle_bool_iff in EX. apply Qle_bool_false_iff in EY. lra. }
  rewrite Hb in R1, T1.
  split; [congruence|]. split; [|congruence].
  eexists. eexists. split; [exact T1|]. split; [exact T2|].
  destruct (Qle_bool 1 X); lra.
Qed.

(** Two tokens of capacity 4 stored a second ago at rate 1: both scripts
    admit the request. *)
Lemma redis_scripts_agree_on_a_half_full_bucket :
  let db := {[ "k"%string :=
                 redis.mkEntry {[ "tokens"%string := 2;
                                  "last_refill"%string := 0 ]} None ]} in
  fst (redis_v1.allow_script Qdiv "k" 4 1 1 db)
  = fst (redis.allow_script Qdiv "k" 4 1 1 db).
Proof.
  refine (proj1 (redis_earlier_script_agrees_below_capacity Qdiv "k" 4 1 1
    {[ "k"%string :=
         redis.mkEntry {[ "tokens"%string := 2;
                          "last_refill"%string := 0 ]} None ]} _ _)).
  - vm_compute. discriminate.
  - vm_compute. discriminate.
Defined.

(** Where the two scripts part, at a refill rate above zero: on a bucket
    above its capacity (paid tokens), the earlier script cuts the count back
    to the capacity before taking a token, the current one keeps the paid
    tokens.  Both admit the request. *)
Theorem redis_earlier_script_drops_paid_tokens :
  forall (fdiv : Q -> Q -> Q) (key : string) (cap rate now T : Q)
         (db : gmap string redis.entry),
    redis.HGET db key "tokens" = Some T ->
    cap <= T -> 1 <= cap -> 0 < rate ->
    0 <= (now - default now (redis.HGET db key "last_refill")) * rate ->
    let old := redis_v1.allow_script fdiv key cap rate now db in
    let new := redis.allow_script fdiv key cap rate now db in
    fst old = Ok 1%Z /\ fst new = Ok 1%Z /\
    (exists v, redis.HGET (snd old) key "tokens" = Some v /\ v == cap - 1) /\
    (exists w, redis.HGET (snd new) key "tokens" = Some w /\ w == T - 1).
Proof.
  intros fdiv key cap rate now T db HT Hcap H1 Hrate Hel old new.
  subst old new.
  assert (Hne : ~ rate == 0) by lra.
  pose proof (allow_script_v1_fields fdiv key cap rate now db) as F1.
  pose proof (allow_script_fields fdiv key cap rate now db) as F2.
  cbv zeta in F1, F2. rewrite HT in F1, F2. cbn [default from_option id] in *.
  rewrite (idle_expiry_Some _ _ _ Hne) in F1, F2.
  destruct (redis_v1.allow_script fdiv key cap rate now db) as [r1 db1].
  destruct (redis.allow_script fdiv key cap rate now db) as [r2 db2].
  cbn [fst snd].
  destruct F1 as (R1 & T1 & _). destruct F2 as (R2 & T2 & _).
  set (d := (now - default now (redis.HGET db key "last_refill")) * rate) in *.
  assert (Hmin : Qmin cap (T + d) == cap) by (apply Q.min_l; lra).
  assert (HbY : Qle_bool 1 (Qmin cap (T + d)) = true)
    by (apply Qle_bool_iff; lra).
  assert (Hnl : Qlt_bool T cap = false) by (apply Qlt_bool_false_iff; exact Hcap).
  assert (HbX : Qle_bool 1 T = true) by (apply Qle_bool_iff; lra).
  rewrite HbY in R1, T1. rewrite Hnl, HbX in R2, T2.
  repeat split; try assumption.
  - eexists. split; [exact T1|]. lra.
  - eexists. split; [exact T2|]. reflexivity.
Qed.

(** Eight tokens on capacity 4: the earlier script leaves 3, the current
    one 7. *)
Lemma redis_earlier_script_on_eight_tokens :
  let db := {[ "k"%string :=
                 redis.mkEntry {[ "tokens"%string := 8;
                                  "last_refill"%string := 0 ]} None ]} in
  (exists v, redis.HGET (snd (redis_v1.allow_script Qdiv "k" 4 1 1 db))
               "k" "tokens" = Some v /\ v == 4 - 1) /\
  (exists w, redis.HGET (snd (redis.allow_script Qdiv "k" 4 1 1 db))
               "k" "tokens" = Some w /\ w == 8 - 1).
Proof.
  exact (proj2 (proj2
    (redis_earlier_script_drops_paid_tokens Qdiv "k" 4 1 1 8
       {[ "k"%string :=
            redis.mkEntry {[ "tokens"%string := 8;
                             "last_refill"%string := 0 ]} None ]}
       eq_refl ltac:(vm_compute; discriminate) ltac:(vm_compute; discriminate)
       eq_refl ltac:(vm_compute; discriminate)))).
Defined.

(** ** The trust tracker beyond [IsTrusted] *)

Lemma newer_than_bounds (cutoff : Z) (l : list Z) :
  (0 <= newer_than cutoff l <= Z.of_nat (length l))%Z.
Proof.
  unfold newer_than. split; [lia|].
  apply inj_le. induction l as [|ts l IH]; [reflexivity|].
  cbn [List.filter length]. destruct (cutoff <? ts)%Z; cbn [length]; lia.
Qed.

Lemma newer_than_antitone (c1 c2 : Z) (l : list Z) :
  (c1 <= c2)%Z -> (newer_than c2 l <= newer_than c1 l)%Z.
Proof.
  intros H. unfold newer_than. apply inj_le.
  induction l as [|ts l IH]; [reflexivity|].
  cbn [List.filter].
  destruct (c2 <? ts)%Z eqn:E2, (c1 <? ts)%Z eqn:E1; cbn [length]; lia.
Qed.

Lemma newer_than_expired (cutoff : Z) (l : list Z) :
  Forall (fun ts => (ts <= cutoff)%Z) l -> newer_than cutoff l = 0%Z.
Proof.
  intros H. unfold newer_than.
  induction H as [|ts l Hts Hl IH]; [reflexivity|].
  cbn [List.filter]. apply Z.ltb_ge in Hts. rewrite Hts. exact IH.
Qed.

(** Time alone only takes trust away.  For a tracker made by [New] and
    written to by any run: the recent-payment count of a payer lies between
    0 and the number of timestamps kept for it, it is no larger at a later
    clock reading than at an earlier one, a payer trusted at the later
    reading is trusted at the earlier one, and once every kept timestamp is
    a full window old the count is 0 and the payer is not trusted. *)
Theorem trust_decays_with_time :
  forall (cfg : trust.Config) (ops : list TrustOp) (wallet : string)
         (now1 now2 now3 : Z),
    let t := trust_run ops (trust.New cfg) in
    (now1 <= now2)%Z ->
    Forall (fun ts => (ts + trust.Window (trust.config t) <= now3)%Z)
           (trust.history t wallet) ->
    (0 <= trust.RecentPayments now1 t wallet
       <= Z.of_nat (length (trust.history t wallet)))%Z /\
    (trust.RecentPayments now2 t wallet
       <= trust.RecentPayments now1 t wallet)%Z /\
    implb (trust.IsTrusted now2 t wallet) (trust.IsTrusted now1 t wallet)
      = true /\
    trust.RecentPayments now3 t wallet = 0%Z /\
    trust.IsTrusted now3 t wallet = false.
Proof.
  intros cfg ops wallet now1 now2 now3 t H12 Hold.
  unfold trust.RecentPayments, trust.IsTrusted.
  rewrite !countRecent_newer.
  set (W := trust.Window (trust.config t)) in *.
  pose proof (newer_than_antitone (now1 + - W) (now2 + - W)
                (trust.history t wallet) ltac:(lia)) as Hanti.
  assert (H0 : newer_than (now3 + - W) (trust.history t wallet) = 0%Z).
  { apply newer_than_expired. eapply List.Forall_impl; [|exact Hold].
    intros ts. cbv beta. lia. }
  split; [apply newer_than_bounds|]. split; [exact Hanti|].
  split; [|split; [exact H0|]].
  - destruct (trust.Threshold (trust.config t)
              <=? newer_than (now2 + - W) (trust.history t wallet))%Z eqn:E2;
      [|reflexivity].
    apply Z.leb_le in E2. cbn [implb]. apply Z.leb_le. lia.
  - rewrite H0. apply Z.leb_gt.
    unfold t. rewrite trust_run_config. apply New_threshold_pos.
Qed.

(** Three payments in the first minute, window one hour: trusted during the
    hour, not trusted two hours later. *)
Lemma trust_decays_after_the_window :
  let t := trust_run [Succeeded "0xabc" 10 10; Succeeded "0xabc" 20 20;
                      Succeeded "0xabc" 30 30]
             (trust.New (trust.mkConfig 3 0)) in
  trust.IsTrusted 7200000000000 t "0xabc" = false.
Proof.
  refine (proj2 (proj2 (proj2 (proj2
    (trust_decays_with_time (trust.mkConfig 3 0)
       [Succeeded "0xabc" 10 10; Succeeded "0xabc" 20 20;
        Succeeded "0xabc" 30 30] "0xabc" 40 50 7200000000000 _ _))))).
  - lia.
  - assert (H : trust.history
       (trust_run
          [Succeeded "0xabc" 10 10; Succeeded "0xabc" 20 20;
           Succeeded "0xabc" 30 30]
          (trust.New (trust.mkConfig 3 0)))
       "0xabc" = [10; 20; 30]%Z) by (vm_compute; reflexivity).
    rewrite H, trust_run_config.
    repeat apply List.Forall_cons; try apply List.Forall_nil;
      vm_compute; discriminate.
Defined.

Lemma history_length_recorded wallet ops :
  forall t acc,
    (length (trust.history t wallet) <= length acc)%nat ->
    (length (trust.history (trust_run ops t) wallet)
     <= length (recorded wallet ops acc))%nat.
Proof.
  induction ops as [|op ops IH]; intros t acc Hlen; [exact Hlen|].
  unfold trust_run. cbn [fold_left]. fold (trust_run ops (trust_step t op)).
  destruct op as [w now now'|w]; cbn [recorded trust_step].
  - apply IH. rewrite history_RecordSuccess.
    destruct (String.eqb w wallet); [|exact Hlen].
    etransitivity; [apply List.filter_length_le|].
    rewrite !length_app. cbn [length]. lia.
  - apply IH. rewrite history_RecordFailure.
    destruct (String.eqb w wallet); [cbn; lia | exact Hlen].
Qed.

(** No trust without enough payments: a payer that [IsTrusted] accepts, at
    any clock reading, has had at least [threshold] successes recorded since
    its last failure. *)
Theorem trust_needs_threshold_successes :
  forall (cfg : trust.Config) (ops : list TrustOp) (wallet : string) (now : Z),
    let t := trust_run ops (trust.New cfg) in
    trust.IsTrusted now t wallet = true ->
    (trust.Threshold (trust.config (trust.New cfg))
     <= Z.of_nat (length (recorded wallet ops [])))%Z.
Proof.
  intros cfg ops wallet now t Htrusted.
  unfold trust.IsTrusted in Htrusted. rewrite countRecent_newer in Htrusted.
  apply Z.leb_le in Htrusted.
  unfold t in Htrusted at 1. rewrite trust_run_config in Htrusted.
  pose proof (newer_than_bounds
                (now + - trust.Window (trust.config t))
                (trust.history t wallet)) as [_ Hb].
  assert (H0 : (length (trust.history (trust.New cfg) wallet)
                <= length (@nil Z))%nat).
  { unfold trust.history, trust.New. cbn [trust.payments].
    rewrite lookup_empty. cbn. lia. }
  pose proof (history_length_recorded wallet ops (trust.New cfg) [] H0) as Hl.
  fold t in Hl. lia.
Qed.

(** A payer trusted after a failure and three later successes: at least
    three successes are on record since the failure. *)
Lemma trust_after_three_successes_has_three_on_record :
  (3 <= Z.of_nat (length (recorded "0xabc"
          [Succeeded "0xabc" 5 5; Failed "0xabc"; Succeeded "0xabc" 10 10;
           Succeeded "0xabc" 20 20; Succeeded "0xabc" 30 30] [])))%Z.
Proof.
  exact (trust_needs_threshold_successes (trust.mkConfig 3 0)
           [Succeeded "0xabc" 5 5; Failed "0xabc"; Succeeded "0xabc" 10 10;
            Succeeded "0xabc" 20 20; Succeeded "0xabc" 30 30] "0xabc" 40
           ltac:(vm_compute; reflexivity)).
Defined.

(** One payer's successes and failures never touch another payer: its kept
    timestamps, its recent-payment count and its trust are what they were. *)
Theorem trust_other_payers_are_untouched :
  forall (op : TrustOp) (t : trust.Tracker) (wallet : string) (now : Z),
    (match op with Succeeded w _ _ | Failed w => w end) <> wallet ->
    trust.history (trust_step t op) wallet = trust.history t wallet /\
    trust.RecentPayments now (trust_step t op) wallet
      = trust.RecentPayments now t wallet /\
    trust.IsTrusted now (trust_step t op) wallet = trust.IsTrusted now t wallet.
Proof.
  intros op t wallet now Hne.
  assert (Hh : trust.history (trust_step t op) wallet = trust.history t wallet).
  { destruct op as [w a b|w]; cbn [trust_step].
    - rewrite history_RecordSuccess.
      destruct (String.eqb_spec w wallet); [contradiction | reflexivity].
    - rewrite history_RecordFailure.
      destruct (String.eqb_spec w wallet); [contradiction | reflexivity]. }
  unfold trust.RecentPayments, trust.IsTrusted.
  rewrite !countRecent_newer, Hh, trust_step_config. repeat split.
Qed.

(** A failure of payer "0xbad" leaves payer "0xabc" as it was. *)
Lemma trust_failure_of_another_payer :
  let t := trust_run [Succeeded "0xabc" 10 10]
             (trust.New (trust.mkConfig 1 0)) in
  trust.IsTrusted 20 (trust.RecordFailure "0xbad" t) "0xabc"
  = trust.IsTrusted 20 t "0xabc".
Proof.
  exact (proj2 (proj2
    (trust_other_payers_are_untouched (Failed "0xbad")
       (trust_run [Succeeded "0xabc" 10 10] (trust.New (trust.mkConfig 1 0)))
       "0xabc" 20 ltac:(discriminate)))).
Defined.

Lemma count_keys_fold (g : string -> bool) (m : gmap string (list Z)) :
  map_fold (fun w (_ : list Z) acc => if g w then (acc + 1)%Z else acc) 0%Z m
  = Z.of_nat (size (filter (fun kv : string * list Z => g kv.1 = true) m)).
Proof.
  apply (map_fold_weak_ind
           (fun r m => r = Z.of_nat
              (size (filter (fun kv : string * list Z => g kv.1 = true) m)))).
  - rewrite map_filter_empty, map_size_empty. reflexivity.
  - intros i x m' r Hi Hr. destruct (g i) eqn:Eg.
    + rewrite map_filter_insert_True by exact Eg.
      rewrite map_size_insert_None; [lia|].
      apply map_lookup_filter_None. left. exact Hi.
    + rewrite map_filter_insert_False by (cbn; congruence).
      rewrite delete_id by exact Hi. exact Hr.
Qed.

(** [Stats]: the trusted count is the number of payers on record that
    [IsTrusted] accepts, so it lies between 0 and the number of payers seen;
    a new tracker has seen nobody; a recorded success adds its payer to the
    payers seen unless it is there already, even when the timestamp is too
    old to be kept; a recorded failure removes its payer from them. *)
Theorem trust_stats_count_the_payers_on_record :
  forall (clock : string -> Z) (t : trust.Tracker) (cfg : trust.Config)
         (wallet : string) (now now' : Z),
    let s := trust.Tracker_Stats clock t in
    trust.TrustedWallets s
      = Z.of_nat (size (filter
          (fun kv : string * list Z =>
             trust.IsTrusted (clock kv.1) t kv.1 = true) (trust.payments t))) /\
    (0 <= trust.TrustedWallets s <= trust.TotalWalletsSeen s)%Z /\
    trust.Tracker_Stats clock (trust.New cfg) = trust.mkStats 0 0 /\
    trust.TotalWalletsSeen
      (trust.Tracker_Stats clock (trust.RecordSuccess now now' wallet t))
      = (trust.TotalWalletsSeen s
         + match trust.payments t !! wallet with Some _ => 0 | None => 1 end)%Z /\
    trust.TotalWalletsSeen
      (trust.Tracker_Stats clock (trust.RecordFailure wallet t))
      = (trust.TotalWalletsSeen s
         - match trust.payments t !! wallet with Some _ => 1 | None => 0 end)%Z.
Proof.
  intros clock t cfg wallet now now' s.
  assert (Hcount : trust.TrustedWallets s
      = Z.of_nat (size (filter
          (fun kv : string * list Z =>
             trust.IsTrusted (clock kv.1) t kv.1 = true) (trust.payments t)))).
  { subst s. unfold trust.Tracker_Stats. cbn [trust.TrustedWallets].
    apply (count_keys_fold
             (fun w => trust.IsTrusted (clock w) t w) (trust.payments t)). }
  split; [exact Hcount|]. split; [|split; [|split]].
  - rewrite Hcount. subst s. cbn [trust.Tracker_Stats trust.TotalWalletsSeen].
    split; [lia|]. apply inj_le. apply map_subseteq_size, map_filter_subseteq.
  - unfold trust.Tracker_Stats, trust.New. cbn [trust.payments].
    rewrite map_fold_empty, map_size_empty. reflexivity.
  - subst s. unfold trust.Tracker_Stats, trust.RecordSuccess, trust.cleanup.
    cbn [trust.TotalWalletsSeen trust.payments].
    rewrite insert_insert_eq, map_size_insert.
    destruct (trust.payments t !! wallet); cbn [id]; lia.
  - subst s. unfold trust.Tracker_Stats, trust.RecordFailure.
    cbn [trust.TotalWalletsSeen trust.payments].
    rewrite map_size_delete.
    destruct (trust.payments t !! wallet) eqn:E; cbn [id]; [|lia].
    assert (size (trust.payments t) <> 0)%nat
      by (apply (map_size_ne_0_lookup_2 _ wallet); rewrite E; eauto).
    lia.
Qed.

(** A tracker after two payers paid once each, threshold 1. *)
Example trust_stats_of_two_payers :
  trust.Tracker_Stats (fun _ => 20%Z)
    (trust_run [Succeeded "0xaaa" 10 10; Succeeded "0xbbb" 11 11;
                Failed "0xbbb"; Succeeded "0xccc" 12 12]
       (trust.New (trust.mkConfig 1 15)))
  = trust.mkStats 2 2.
Proof. vm_compute. reflexivity. Qed.

(** ** The settlement queue: trust updates *)

Section QueueAccounts.

Context {Payload Requirements L : Type}.

Abbreviation QQueue := (@server.SettlementQueue Payload Requirements).
Abbreviation QState := (@server.World Payload Requirements L).

Lemma queue_step_accounts lim tr size sent (w w' : QState) (ev : QueueEvent) :
  queue_accounts lim tr size sent w ->
  queue_step w ev = Some w' ->
  queue_accounts lim tr size (sent + length (enqueued [ev])) w'.
Proof.
  intros (Hlim & sq & Hsq & Hsize & Hpend & Hroom & Hsent & Htr) Hstep.
  destruct ev as [job now | e]; cbn [queue_step enqueued length] in *.
  - rewrite Hsq in Hstep. unfold server.Enqueue in Hstep.
    destruct (length (server.jobs sq) <? server.bufferSize sq)%nat eqn:E;
      [|discriminate].
    apply Nat.ltb_lt in E. injection Hstep as <-.
    split; [exact Hlim|]. eexists. split; [reflexivity|].
    cbn [server.bufferSize server.pending server.jobs server.settled
         server.trustTracker].
    rewrite length_app. cbn [length].
    repeat split; try assumption; lia.
  - unfold server.worker_iter in Hstep. rewrite Hsq in Hstep.
    destruct (server.jobs sq) as [|job rest] eqn:Ejobs; [discriminate|].
    injection Hstep as <-.
    split; [exact Hlim|]. eexists. split; [reflexivity|].
    cbn [server.bufferSize server.pending server.jobs server.settled
         server.trustTracker length] in *.
    rewrite length_app. cbn [length].
    repeat split; try assumption; try lia.
    unfold settle_all. rewrite fold_left_app. cbn [fold_left].
    cbn [server.sJob server.sResult server.sFinish].
    fold (settle_all (server.settled sq) tr). rewrite <- Htr. reflexivity.
Qed.

Lemma queue_run_accounts lim tr size (evs : list QueueEvent) :
  forall (sent : nat) (w w' : QState),
    queue_accounts lim tr size sent w ->
    queue_run evs w = Some w' ->
    queue_accounts lim tr size (sent + length (enqueued evs)) w'.
Proof.
  induction evs as [|ev evs IH]; intros sent w w' Hacc Hrun.
  - injection Hrun as <-. cbn. rewrite Nat.add_0_r. exact Hacc.
  - cbn [queue_run] in Hrun.
    destruct (queue_step w ev) as [w1|] eqn:Estep; [|discriminate].
    pose proof (queue_step_accounts _ _ _ _ _ _ _ Hacc Estep) as H1.
    specialize (IH _ _ _ H1 Hrun).
    replace (sent + length (enqueued (ev :: evs)))%nat
      with (sent + length (enqueued [ev]) + length (enqueued evs))%nat;
      [exact IH|].
    destruct ev; cbn [enqueued length]; lia.
Qed.

Lemma queue_accounts_at_start (lim : L) tr (bufferSize now0 : Z) :
  @queue_accounts Payload Requirements L lim tr
    (Z.to_nat (if (bufferSize <=? 0)%Z then 100%Z else bufferSize)) 0
    (server.mkWorld lim tr (Some (server.NewSettlementQueue bufferSize now0))).
Proof.
  split; [reflexivity|]. eexists. split; [reflexivity|].
  unfold server.NewSettlementQueue.
  cbn [server.bufferSize server.pending server.jobs server.settled
       server.trustTracker length settle_all fold_left].
  repeat split; lia.
Qed.

(** The worker alone writes to the tracker, in settlement order: after any
    schedule the tracker is the start-up tracker with the trust update of
    every settlement applied, oldest first (a success recorded at the time
    the settlement ended, a failure deleting the record), and the limiter
    is untouched: a failed settlement takes back no tokens. *)
Theorem queue_updates_trust_in_settlement_order :
  forall (lim : L) (tr : option trust.Tracker) (bufferSize now0 : Z)
         (evs : list QueueEvent) (w' : QState),
    queue_run evs
      (server.mkWorld lim tr
         (Some (server.NewSettlementQueue bufferSize now0))) = Some w' ->
    server.limiter w' = lim /\
    exists sq : QQueue,
      server.settlementQueue w' = Some sq /\
      server.trustTracker w' =
        fold_left
          (fun tr s =>
             if server.Success (server.sResult s)
             then trust.RecordSuccess (server.sFinish s) (server.sFinish s)
                    (server.WalletAddr (server.sJob s)) <$> tr
             else trust.RecordFailure (server.WalletAddr (server.sJob s))
                    <$> tr)
          (server.settled sq) tr.
Proof.
  intros lim tr bufferSize now0 evs w' Hrun.
  destruct (queue_run_accounts lim tr _ evs 0%nat _ w'
              (queue_accounts_at_start lim tr bufferSize now0) Hrun)
    as (Hlim & sq & Hsq & _ & _ & _ & _ & Htr).
  split; [exact Hlim|]. exists sq. split; [exact Hsq|].
  rewrite Htr. unfold settle_all. clear.
  generalize tr. induction (server.settled sq) as [|s l IH]; intros tr0;
    [reflexivity|].
  cbn [fold_left]. rewrite IH. reflexivity.
Qed.

End QueueAccounts.

(** A success then a failure for the same payer: the tracker ends with the
    payer's record deleted. *)
Lemma queue_trust_updates_of_two_settlements :
  let j := server.mkSettlementJob "payload"%string "reqs"%string
             "0xaaa"%string 0 in
  let ok := server.mkSettleResult true "0xtx" "" in
  let ko := server.mkSettleResult false "" "insufficient funds" in
  let evs := [EvEnqueue j 0; EvEnqueue j 1; EvWork (server.mkWorkerEnv 0 0 ok 5);
              EvWork (server.mkWorkerEnv 0 0 ko 5)] in
  let tr := Some (trust.New (trust.mkConfig 1 0)) in
  exists w' : server.World unit,
    queue_run evs (server.mkWorld tt tr (Some (server.NewSettlementQueue 0 0)))
      = Some w' /\
    server.limiter w' = tt /\
    exists sq : server.SettlementQueue,
      server.settlementQueue w' = Some sq /\
      server.trustTracker w' =
        fold_left
          (fun tr s =>
             if server.Success (server.sResult s)
             then trust.RecordSuccess (server.sFinish s) (server.sFinish s)
                    (server.WalletAddr (server.sJob s)) <$> tr
             else trust.RecordFailure (server.WalletAddr (server.sJob s))
                    <$> tr)
          (server.settled sq) tr.
Proof.
  cbv zeta. eexists. split.
  - vm_compute. reflexivity.
  - apply (queue_updates_trust_in_settlement_order tt
             (Some (trust.New (trust.mkConfig 1 0))) 0 0
             [EvEnqueue (server.mkSettlementJob "payload"%string "reqs"%string
                           "0xaaa"%string 0) 0;
              EvEnqueue (server.mkSettlementJob "payload"%string "reqs"%string
                           "0xaaa"%string 0) 1;
              EvWork (server.mkWorkerEnv 0 0
                        (server.mkSettleResult true "0xtx" "") 5);
              EvWork (server.mkWorkerEnv 0 0
                        (server.mkSettleResult false "" "insufficient funds")
                        5)]).
    vm_compute. reflexivity.
Defined.

(** ** The payment middleware on its other paths *)

Section PipelinePaths.

Context {Payload Requirements L : Type} `{Limiter L}.
Variable StdDecodeString URLDecodeString UnmarshalFrom
  : string -> result string.
Variable ToLower : string -> string.

Abbreviation payer_of :=
  (server.extractWalletAddress StdDecodeString URLDecodeString UnmarshalFrom
     ToLower).
Abbreviation handle :=
  (@server.hybridRateLimitPaymentMiddleware Payload Requirements
     StdDecodeString URLDecodeString UnmarshalFrom ToLower L _).

(** Nobody passes for free.  When the handler forwards a request, either
    Allow took a token for it, or the request carried a payment that the
    x402 server verified, [Refill(key, capacity)] succeeded, and the payer
    was trusted or the settlement made inside the handler succeeded. *)
Theorem middleware_forwards_only_admitted_or_paid :
  forall (capacity : Q) (req : server.Request)
         (e : @server.RequestEnv Payload Requirements)
         (w : @server.World Payload Requirements L),
    fst (fst (handle capacity req e w)) = server.Next ->
    let allowed :=
      limAllow (server.ClientIP req) (server.tAllow e) (server.limiter w) in
    fst allowed = Ok true \/
    (fst allowed = Ok false /\
     payment_header req <> ""%string /\
     (exists p r, server.httpAnswer e = server.ResultPaymentVerified p r) /\
     (exists u, fst (limRefill (server.ClientIP req) capacity (snd allowed))
                = Ok u) /\
     ((exists t sq, server.trustTracker w = Some t /\
                    server.settlementQueue w = Some sq /\
                    trust.IsTrusted (server.tTrust e) t
                      (payer_of (payment_header req)) = true) \/
      server.Success (server.settleResult e) = true)).
Proof.
  intros capacity req e w Hnext allowed. subst allowed.
  unfold server.hybridRateLimitPaymentMiddleware in Hnext.
  fold (payment_header req) in Hnext.
  destruct (limAllow (server.ClientIP req) (server.tAllow e) (server.limiter w))
    as [[[|]|err] lim1]; cbn [fst snd] in *.
  - left. reflexivity.
  - right. split; [reflexivity|].
    cbn [server.trustTracker server.settlementQueue server.limiter] in Hnext.
    destruct (String.eqb_spec (payment_header req) "") as [Hempty|Hne].
    + destruct (server.httpAnswer e) as [p r|[resp|]]; discriminate.
    + split; [exact Hne|].
      destruct (server.httpAnswer e) as [p r|[resp|]]; try discriminate.
      split; [eauto|].
      destruct (limRefill (server.ClientIP req) capacity lim1)
        as [[u|err] lim2]; cbn [fst snd] in *.
      * split; [eauto|].
        destruct (server.Success (server.settleResult e)) eqn:Es;
          [right; reflexivity|]. left.
        destruct (server.trustTracker w) as [t|]; [|discriminate].
        destruct (server.settlementQueue w) as [sq|]; [|discriminate].
        destruct (trust.IsTrusted (server.tTrust e) t
                    (payer_of (payment_header req))) eqn:Etr; [|discriminate].
        eauto.
      * exfalso.
        destruct (server.trustTracker w) as [t|];
          [destruct (server.settlementQueue w) as [sq|];
           [destruct (trust.IsTrusted (server.tTrust e) t
                        (payer_of (payment_header req)))|]|];
          try discriminate;
          destruct (server.Success (server.settleResult e)); discriminate.
  - discriminate.
Qed.

(** A rate-limited request without a payment header, or with one the x402
    server does not verify, changes nothing but what Allow did: no Refill,
    no settlement, tracker and queue as they were; and it is answered, not
    forwarded. *)
Theorem middleware_unpaid_request_changes_nothing :
  forall (capacity : Q) (req : server.Request)
         (e : @server.RequestEnv Payload Requirements)
         (w : @server.World Payload Requirements L) (lim1 : L),
    limAllow (server.ClientIP req) (server.tAllow e) (server.limiter w)
      = (Ok false, lim1) ->
    payment_header req = ""%string \/
    (exists resp, server.httpAnswer e = server.ResultNotVerified resp) ->
    let out := handle capacity req e w in
    snd (fst out)
      = server.mkWorld lim1 (server.trustTracker w) (server.settlementQueue w) /\
    snd out = [server.CallAllow; server.CallVerify] /\
    match fst (fst out) with
    | server.AbortWith resp =>
        server.httpAnswer e = server.ResultNotVerified (Some resp)
    | server.AbortJSON status _ => status = 402%Z
    | _ => False
    end.
Proof.
  intros capacity req e w lim1 Hallow Hunpaid out. subst out.
  unfold server.hybridRateLimitPaymentMiddleware.
  fold (payment_header req). rewrite Hallow.
  cbn [server.trustTracker server.settlementQueue server.limiter].
  destruct (String.eqb_spec (payment_header req) "") as [Hempty|Hne].
  - destruct (server.httpAnswer e) as [p r|[resp|]]; cbn; auto.
  - destruct Hunpaid as [Hempty|[resp Hresp]]; [contradiction|].
    rewrite Hresp. destruct resp as [resp|]; cbn; auto.
Qed.

(** A trusted payer is served at once: with a verified payment from a payer
    that [IsTrusted] accepts, a Refill that succeeds and room in the channel,
    the handler refills by [capacity], sends one job for that payer stamped
    with the time of the send, and forwards the request, without settling
    and without writing to the tracker. *)
Theorem middleware_trusted_payer_is_served_optimistically :
  forall (capacity : Q) (req : server.Request)
         (e : @server.RequestEnv Payload Requirements)
         (w : @server.World Payload Requirements L)
         (lim1 lim2 : L) (u : unit) (p : Payload) (r : Requirements)
         (t : trust.Tracker)
         (sq : @server.SettlementQueue Payload Requirements),
    let wallet := payer_of (payment_header req) in
    limAllow (server.ClientIP req) (server.tAllow e) (server.limiter w)
      = (Ok false, lim1) ->
    payment_header req <> ""%string ->
    server.httpAnswer e = server.ResultPaymentVerified p r ->
    server.trustTracker w = Some t ->
    server.settlementQueue w = Some sq ->
    trust.IsTrusted (server.tTrust e) t wallet = true ->
    limRefill (server.ClientIP req) capacity lim1 = (Ok u, lim2) ->
    (length (server.jobs sq) < server.bufferSize sq)%nat ->
    handle capacity req e w =
      (server.Next,
       server.mkWorld lim2 (Some t)
         (Some (server.mkSettlementQueue
                  (server.jobs sq
                   ++ [server.mkSettlementJob p r wallet (server.tEnqueue e)])
                  (server.bufferSize sq) (server.pending sq + 1)
                  (server.first sq) (server.wclock sq) (server.settled sq))),
       [server.CallAllow; server.CallVerify; server.CallIsTrusted;
        server.CallRefill capacity; server.CallEnqueue wallet]).
Proof.
  intros capacity req e w lim1 lim2 u p r t sq wallet
         Hallow Hne Hver Ht Hq Htrusted Hrefill Hroom.
  unfold server.hybridRateLimitPaymentMiddleware.
  fold (payment_header req). rewrite Hallow.
  cbn [server.trustTracker server.settlementQueue server.limiter].
  destruct (String.eqb_spec (payment_header req) "") as [Hempty|_];
    [contradiction|].
  rewrite Hver, Ht, Hq. fold wallet. rewrite Htrusted, Hrefill.
  unfold server.Enqueue.
  apply Nat.ltb_lt in Hroom. rewrite Hroom. reflexivity.
Qed.

(** A failed background settlement sends the payer back to the slow path.
    When the worker's settlement of a job fails, the job's payer is not
    trusted at any later clock reading, the limiter keeps its tokens, and
    the payer's next verified payment on a rate-limited request is settled
    inside the handler before anything else happens. *)
Theorem queue_failure_makes_next_payment_synchronous :
  forall (we : server.WorkerEnv)
         (w w' : @server.World Payload Requirements L)
         (sq : @server.SettlementQueue Payload Requirements)
         (job : @server.SettlementJob Payload Requirements)
         (rest : list (@server.SettlementJob Payload Requirements))
         (t : trust.Tracker) (capacity : Q) (req : server.Request)
         (e : @server.RequestEnv Payload Requirements) (lim1 : L)
         (p : Payload) (r : Requirements) (now : Z),
    server.settlementQueue w = Some sq ->
    server.jobs sq = job :: rest ->
    server.trustTracker w = Some t ->
    (0 < trust.Threshold (trust.config t))%Z ->
    server.Success (server.settleAnswer we) = false ->
    server.worker_iter we w = Some w' ->
    limAllow (server.ClientIP req) (server.tAllow e) (server.limiter w')
      = (Ok false, lim1) ->
    payment_header req <> ""%string ->
    server.httpAnswer e = server.ResultPaymentVerified p r ->
    payer_of (payment_header req) = server.WalletAddr job ->
    server.limiter w' = server.limiter w /\
    (exists t', server.trustTracker w' = Some t' /\
                trust.IsTrusted now t' (server.WalletAddr job) = false /\
                trust.RecentPayments now t' (server.WalletAddr job) = 0%Z) /\
    exists more,
      snd (handle capacity req e w')
      = [server.CallAllow; server.CallVerify; server.CallIsTrusted;
         server.CallSettle] ++ more.
Proof.
  intros we w w' sq job rest t capacity req e lim1 p r now
         Hq Hjobs Ht Hpos Hfail Hiter Hallow Hne Hver Hpayer.
  unfold server.worker_iter in Hiter. rewrite Hq, Hjobs, Ht in Hiter.
  unfold server.processSettlement in Hiter. rewrite Hfail in Hiter.
  injection Hiter as <-.
  cbn [server.limiter server.trustTracker] in *.
  assert (Hcount : forall at_,
            trust.countRecent at_
              (trust.RecordFailure (server.WalletAddr job) t)
              (server.WalletAddr job) = 0%Z).
  { intros at_. rewrite countRecent_newer, history_RecordFailure,
      String.eqb_refl. reflexivity. }
  assert (Huntrusted : forall at_,
            trust.IsTrusted at_
              (trust.RecordFailure (server.WalletAddr job) t)
              (server.WalletAddr job) = false).
  { intros at_. unfold trust.IsTrusted. rewrite Hcount.
    apply Z.leb_gt. exact Hpos. }
  split; [reflexivity|]. split.
  { eexists. split; [reflexivity|]. split; [apply Huntrusted | apply Hcount]. }
  unfold server.hybridRateLimitPaymentMiddleware.
  fold (payment_header req). cbn [server.limiter]. rewrite Hallow.
  cbn [server.trustTracker server.settlementQueue server.limiter].
  destruct (String.eqb_spec (payment_header req) "") as [Hempty|_];
    [contradiction|].
  rewrite Hver, Hpayer, Huntrusted.
  destruct (server.Success (server.settleResult e));
    [destruct (limRefill (server.ClientIP req) capacity lim1) as [[u|err] lim2]|];
    cbn [snd app]; eauto.
Qed.

End PipelinePaths.

(** A paid request on an exhausted bucket is forwarded, and the reason is
    the payment. *)
Lemma middleware_paid_request_is_forwarded_for_the_payment :
  let nodecode := fun _ : string => @Err string "illegal base64 data" in
  let req := server.mkRequest "10.0.0.1" "/cpu" "GET" "!!!" "" in
  let e := server.mkRequestEnv 0 0 0 0 0
             (server.ResultPaymentVerified "payload"%string "reqs"%string)
             (server.mkSettleResult true "0xtx" "") in
  let w : @server.World string string memory.TokenBucket :=
    server.mkWorld (memory.mkTokenBucket 4 4 0 0)
      (Some (trust.New (trust.mkConfig 3 0)))
      (Some (server.NewSettlementQueue 100 0)) in
  let allowed := limAllow (server.ClientIP req) (server.tAllow e)
                   (server.limiter w) in
  fst allowed = Ok true \/
  (fst allowed = Ok false /\
   payment_header req <> ""%string /\
   (exists p r, server.httpAnswer e = server.ResultPaymentVerified p r) /\
   (exists u, fst (limRefill (server.ClientIP req) 4 (snd allowed)) = Ok u) /\
   ((exists t sq, server.trustTracker w = Some t /\
                  server.settlementQueue w = Some sq /\
                  trust.IsTrusted (server.tTrust e) t
                    (server.extractWalletAddress nodecode nodecode nodecode
                       lower_string (payment_header req)) = true) \/
    server.Success (server.settleResult e) = true)).
Proof.
  exact (@middleware_forwards_only_admitted_or_paid
    string string memory.TokenBucket memory_Limiter
    (fun _ : string => @Err string "illegal base64 data")
    (fun _ : string => @Err string "illegal base64 data")
    (fun _ : string => @Err string "illegal base64 data")
    lower_string 4
    (server.mkRequest "10.0.0.1" "/cpu" "GET" "!!!" "")
    (server.mkRequestEnv 0 0 0 0 0
       (server.ResultPaymentVerified "payload"%string "reqs"%string)
       (server.mkSettleResult true "0xtx" ""))
    (server.mkWorld (memory.mkTokenBucket 4 4 0 0)
       (Some (trust.New (trust.mkConfig 3 0)))
       (Some (server.NewSettlementQueue 100 0)))
    ltac:(vm_compute; reflexivity)).
Defined.

(** A rate-limited request without a payment header is answered with the
    x402 server's 402 response and changes nothing. *)
Lemma middleware_request_without_payment :
  let nodecode := fun _ : string => @Err string "illegal base64 data" in
  let req := server.mkRequest "10.0.0.1" "/cpu" "GET" "" "" in
  let resp := server.mkHTTPResponse 402 [] "payment requirements" in
  let e := server.mkRequestEnv 0 0 0 0 0
             (@server.ResultNotVerified string string (Some resp))
             (server.mkSettleResult false "" "") in
  let w : @server.World string string memory.TokenBucket :=
    server.mkWorld (memory.mkTokenBucket 4 4 0 0)
      (Some (trust.New (trust.mkConfig 3 0)))
      (Some (server.NewSettlementQueue 100 0)) in
  snd (server.hybridRateLimitPaymentMiddleware nodecode nodecode nodecode
         lower_string 4 req e w)
  = [server.CallAllow; server.CallVerify].
Proof.
  exact (proj1 (proj2
    (@middleware_unpaid_request_changes_nothing
       string string memory.TokenBucket memory_Limiter
       (fun _ : string => @Err string "illegal base64 data")
       (fun _ : string => @Err string "illegal base64 data")
       (fun _ : string => @Err string "illegal base64 data")
       lower_string 4
       (server.mkRequest "10.0.0.1" "/cpu" "GET" "" "")
       (server.mkRequestEnv 0 0 0 0 0
          (@server.ResultNotVerified string string
             (Some (server.mkHTTPResponse 402 [] "payment requirements")))
          (server.mkSettleResult false "" ""))
       (server.mkWorld (memory.mkTokenBucket 4 4 0 0)
          (Some (trust.New (trust.mkConfig 3 0)))
          (Some (server.NewSettlementQueue 100 0)))
       (snd (memory.Allow "10.0.0.1" 0 (memory.mkTokenBucket 4 4 0 0)))
       ltac:(vm_compute; reflexivity) (or_introl eq_refl)))).
Defined.

(** A payer with three recorded successes pays on an exhausted bucket: the
    request is forwarded and its settlement is left in the channel. *)
Lemma middleware_trusted_payer_example :
  let std := fun h : string =>
    if String.eqb h "cGF5bWVudA==" then Ok "payment"%string
    else Err "illegal base64 data"%string in
  let url := fun _ : string => @Err string "illegal base64 data" in
  let unmarshal := fun d : string =>
    if String.eqb d "payment" then Ok "0xAbC"%string
    else Err "invalid character"%string in
  let req := server.mkRequest "10.0.0.1" "/cpu" "GET" "cGF5bWVudA==" "" in
  let e := server.mkRequestEnv 50 50 50 50 60
             (server.ResultPaymentVerified "payload"%string "reqs"%string)
             (server.mkSettleResult true "0xtx" "") in
  let t := trust_run [Succeeded "0xabc" 10 10; Succeeded "0xabc" 20 20;
                      Succeeded "0xabc" 30 30]
             (trust.New (trust.mkConfig 3 0)) in
  let w : @server.World string string memory.TokenBucket :=
    server.mkWorld (memory.mkTokenBucket 4 0 0 0) (Some t)
      (Some (server.NewSettlementQueue 100 0)) in
  fst (fst (server.hybridRateLimitPaymentMiddleware std url unmarshal
              lower_string 4 req e w)) = server.Next.
Proof.
  exact (f_equal (fun o => fst (fst o))
    (@middleware_trusted_payer_is_served_optimistically
       string string memory.TokenBucket memory_Limiter
       (fun h : string =>
          if String.eqb h "cGF5bWVudA==" then Ok "payment"%string
          else Err "illegal base64 data"%string)
       (fun _ : string => @Err string "illegal base64 data")
       (fun d : string =>
          if String.eqb d "payment" then Ok "0xAbC"%string
          else Err "invalid character"%string)
       lower_string 4
       (server.mkRequest "10.0.0.1" "/cpu" "GET" "cGF5bWVudA==" "")
       (server.mkRequestEnv 50 50 50 50 60
          (server.ResultPaymentVerified "payload"%string "reqs"%string)
          (server.mkSettleResult true "0xtx" ""))
       (server.mkWorld (memory.mkTokenBucket 4 0 0 0)
          (Some (trust_run [Succeeded "0xabc" 10 10; Succeeded "0xabc" 20 20;
                            Succeeded "0xabc" 30 30]
                   (trust.New (trust.mkConfig 3 0))))
          (Some (server.NewSettlementQueue 100 0)))
       (snd (memory.Allow "10.0.0.1" 50 (memory.mkTokenBucket 4 0 0 0)))
       (memory.Refill "10.0.0.1" 4
          (snd (memory.Allow "10.0.0.1" 50 (memory.mkTokenBucket 4 0 0 0))))
       tt "payload"%string "reqs"%string
       (trust_run [Succeeded "0xabc" 10 10; Succeeded "0xabc" 20 20;
                   Succeeded "0xabc" 30 30]
          (trust.New (trust.mkConfig 3 0)))
       (server.NewSettlementQueue 100 0)
       ltac:(vm_compute; reflexivity) ltac:(discriminate) ltac:(vm_compute; reflexivity) ltac:(vm_compute; reflexivity)
       ltac:(vm_compute; reflexivity) ltac:(vm_compute; reflexivity) ltac:(vm_compute; reflexivity)
       ltac:(vm_compute; lia))).
Defined.

(** The worker fails to settle a job of payer "0xabc", who was trusted; the
    payer's next payment is settled inside the handler. *)
Lemma queue_failure_then_payment_example :
  let std := fun h : string =>
    if String.eqb h "cGF5bWVudA==" then Ok "payment"%string
    else Err "illegal base64 data"%string in
  let url := fun _ : string => @Err string "illegal base64 data" in
  let unmarshal := fun d : string =>
    if String.eqb d "payment" then Ok "0xAbC"%string
    else Err "invalid character"%string in
  let req := server.mkRequest "10.0.0.1" "/cpu" "GET" "cGF5bWVudA==" "" in
  let e := server.mkRequestEnv 50 50 50 50 60
             (server.ResultPaymentVerified "payload"%string "reqs"%string)
             (server.mkSettleResult true "0xtx" "") in
  let t := trust_run [Succeeded "0xabc" 10 10; Succeeded "0xabc" 20 20;
                      Succeeded "0xabc" 30 30]
             (trust.New (trust.mkConfig 3 0)) in
  let job := server.mkSettlementJob "payload"%string "reqs"%string
               "0xabc"%string 35 in
  let sq := server.mkSettlementQueue [job] 100 1 true 0 [] in
  let w : @server.World string string memory.TokenBucket :=
    server.mkWorld (memory.mkTokenBucket 4 0 0 0) (Some t) (Some sq) in
  let we := server.mkWorkerEnv 40 0
              (server.mkSettleResult false "" "insufficient funds") 5 in
  exists w',
    server.worker_iter we w = Some w' /\
    exists more,
      snd (server.hybridRateLimitPaymentMiddleware std url unmarshal
             lower_string 4 req e w')
      = [server.CallAllow; server.CallVerify; server.CallIsTrusted;
         server.CallSettle] ++ more.
Proof.
  cbv zeta. eexists. split; [reflexivity|].
  refine (proj2 (proj2
    (@queue_failure_makes_next_payment_synchronous
       string string memory.TokenBucket memory_Limiter
       (fun h : string =>
          if String.eqb h "cGF5bWVudA==" then Ok "payment"%string
          else Err "illegal base64 data"%string)
       (fun _ : string => @Err string "illegal base64 data")
       (fun d : string =>
          if String.eqb d "payment" then Ok "0xAbC"%string
          else Err "invalid character"%string)
       lower_string
       (server.mkWorkerEnv 40 0
          (server.mkSettleResult false "" "insufficient funds") 5)
       (server.mkWorld (memory.mkTokenBucket 4 0 0 0)
          (Some (trust_run [Succeeded "0xabc" 10 10; Succeeded "0xabc" 20 20;
                            Succeeded "0xabc" 30 30]
                   (trust.New (trust.mkConfig 3 0))))
          (Some (server.mkSettlementQueue
                   [server.mkSettlementJob "payload"%string "reqs"%string
                      "0xabc"%string 35] 100 1 true 0 [])))
       _ _ _ [] _ 4
       (server.mkRequest "10.0.0.1" "/cpu" "GET" "cGF5bWVudA==" "")
       (server.mkRequestEnv 50 50 50 50 60
          (server.ResultPaymentVerified "payload"%string "reqs"%string)
          (server.mkSettleResult true "0xtx" ""))
       (snd (memory.Allow "10.0.0.1" 50 (memory.mkTokenBucket 4 0 0 0)))
       "payload"%string "reqs"%string 100
       ltac:(vm_compute; reflexivity) ltac:(vm_compute; reflexivity) ltac:(vm_compute; reflexivity) _ ltac:(vm_compute; reflexivity) ltac:(vm_compute; reflexivity) _ _ ltac:(vm_compute; reflexivity) _))).
  - vm_compute. reflexivity.
  - vm_compute. reflexivity.
  - discriminate.
  - vm_compute. reflexivity.
Defined.

(** ** The CPU endpoint *)

Section CPUFacts.

Variable ParseUint : string -> Z.
Hypothesis ParseUint_range : forall s, (0 <= ParseUint s < 2 ^ 64)%Z.

Lemma counters_sum_nonneg fields : (0 <= counters_sum ParseUint fields)%Z.
Proof.
  induction fields as [|f rest IH]; cbn [counters_sum fold_right]; [lia|].
  fold (counters_sum ParseUint rest). pose proof (ParseUint_range f). lia.
Qed.

(** One read: without overflow [total] is the sum of the counters, and
    [idle], one of them, is at most [total]. *)
Lemma sumFields_one fields :
  forall i idle total,
    (0 <= idle <= total)%Z ->
    (total + counters_sum ParseUint fields < 2 ^ 64)%Z ->
    let r := handlers.sumFields ParseUint i fields idle total in
    (0 <= fst r <= snd r)%Z /\
    snd r = (total + counters_sum ParseUint fields)%Z.
Proof.
  induction fields as [|f rest IH]; intros i idle total Hi Hsum;
    cbn [handlers.sumFields counters_sum fold_right fst snd] in *.
  - split; lia.
  - fold (counters_sum ParseUint rest) in *.
    pose proof (ParseUint_range f) as Hf.
    pose proof (counters_sum_nonneg rest) as Hrest.
    assert (Hu : handlers.u64 (total + ParseUint f) = (total + ParseUint f)%Z).
    { unfold handlers.u64. apply Z.mod_small. lia. }
    rewrite Hu.
    destruct (IH (S i) (if Nat.eqb i 4 then ParseUint f else idle)
                (total + ParseUint f)%Z) as [H1 H2].
    + destruct (Nat.eqb i 4); lia.
    + lia.
    + split; [exact H1 | lia].
Qed.

(** Two reads with every counter of the second at least that of the first:
    neither [idle] nor [total] went down, and [idle] rose by no more than
    [total]. *)
Lemma sumFields_two fields1 fields2 :
  Forall2 (fun a b => (ParseUint a <= ParseUint b)%Z) fields1 fields2 ->
  forall i idle1 idle2 total1 total2,
    (0 <= idle1 <= idle2)%Z -> (0 <= total1 <= total2)%Z ->
    (idle2 - idle1 <= total2 - total1)%Z ->
    (total2 + counters_sum ParseUint fields2 < 2 ^ 64)%Z ->
    let r1 := handlers.sumFields ParseUint i fields1 idle1 total1 in
    let r2 := handlers.sumFields ParseUint i fields2 idle2 total2 in
    (0 <= fst r1 <= fst r2)%Z /\ (0 <= snd r1 <= snd r2)%Z /\
    (snd r2 < 2 ^ 64)%Z /\
    (fst r2 - fst r1 <= snd r2 - snd r1)%Z.
Proof.
  induction 1 as [|a b rest1 rest2 Hab Hrest IH];
    intros i idle1 idle2 total1 total2 Hi Ht Hd Hsum;
    cbn [handlers.sumFields counters_sum fold_right fst snd] in *.
  - repeat split; lia.
  - fold (counters_sum ParseUint rest2) in *.
    pose proof (ParseUint_range a) as Ha.
    pose proof (ParseUint_range b) as Hb.
    pose proof (counters_sum_nonneg rest2) as Hnn.
    assert (Hu1 : handlers.u64 (total1 + ParseUint a)
                  = (total1 + ParseUint a)%Z).
    { unfold handlers.u64. apply Z.mod_small. lia. }
    assert (Hu2 : handlers.u64 (total2 + ParseUint b)
                  = (total2 + ParseUint b)%Z).
    { unfold handlers.u64. apply Z.mod_small. lia. }
    rewrite Hu1, Hu2.
    apply IH; destruct (Nat.eqb i 4); lia.
Qed.

Lemma percentage_in_range (idleDelta totalDelta : Z) :
  (0 <= idleDelta <= totalDelta)%Z -> (0 < totalDelta)%Z ->
  0 <= (1 - inject_Z idleDelta / inject_Z totalDelta) * 100 <= 100.
Proof.
  intros Hi Ht.
  assert (Hpos : 0 < inject_Z totalDelta).
  { change 0 with (inject_Z 0). rewrite <- Zlt_Qlt. exact Ht. }
  assert (H0 : 0 <= inject_Z idleDelta / inject_Z totalDelta).
  { apply Qle_shift_div_l; [exact Hpos|]. rewrite Qmult_0_l.
    change 0 with (inject_Z 0). rewrite <- Zle_Qle. lia. }
  assert (H1 : inject_Z idleDelta / inject_Z totalDelta <= 1).
  { apply Qle_shift_div_r; [exact Hpos|]. rewrite Qmult_1_l.
    rewrite <- Zle_Qle. lia. }
  lra.
Qed.

(** The utilisation is a percentage.  When no counter of the second read is
    below its value at the first read and the counters of the second read
    add up to less than 2^64, [getCPUUtilization] reports a value between 0
    and 100. *)
Theorem cpu_utilization_is_a_percentage :
  forall (fields1 fields2 : list string),
    Forall2 (fun a b => (ParseUint a <= ParseUint b)%Z)
            (tl fields1) (tl fields2) ->
    (counters_sum ParseUint (tl fields2) < 2 ^ 64)%Z ->
    exists u : Q,
      handlers.getCPUUtilization ParseUint (Ok fields1) (Ok fields2) = Ok u /\
      0 <= u <= 100.
Proof.
  intros fields1 fields2 Hmono Hsum.
  pose proof (Forall2_length _ _ _ Hmono) as Hlen.
  unfold handlers.getCPUUtilization, handlers.readCPUStat.
  assert (Hzero : exists u : Q,
            (if (handlers.u64 (0 - 0) =? 0)%Z then Ok 0
             else Ok ((1 - inject_Z (handlers.u64 (0 - 0))
                           / inject_Z (handlers.u64 (0 - 0))) * 100))
            = Ok u /\ 0 <= u <= 100).
  { exists 0. split; [reflexivity | lra]. }
  destruct (length fields1 <? 5)%nat eqn:E1;
    destruct (length fields2 <? 5)%nat eqn:E2.
  - exact Hzero.
  - apply Nat.ltb_lt in E1. apply Nat.ltb_ge in E2.
    destruct fields1, fields2; cbn [length tl] in *; lia.
  - apply Nat.ltb_ge in E1. apply Nat.ltb_lt in E2.
    destruct fields1, fields2; cbn [length tl] in *; lia.
  - destruct (sumFields_two _ _ Hmono 1%nat 0%Z 0%Z 0%Z 0%Z)
      as (Hi & Ht & Hlt & Hd); try lia.
    destruct (handlers.sumFields ParseUint 1 (tl fields1) 0 0)
      as [idle1 total1].
    destruct (handlers.sumFields ParseUint 1 (tl fields2) 0 0)
      as [idle2 total2].
    cbn [fst snd] in *.
    assert (Hu1 : handlers.u64 (idle2 - idle1) = (idle2 - idle1)%Z).
    { unfold handlers.u64. apply Z.mod_small. lia. }
    assert (Hu2 : handlers.u64 (total2 - total1) = (total2 - total1)%Z).
    { unfold handlers.u64. apply Z.mod_small. lia. }
    rewrite Hu1, Hu2.
    destruct (Z.eqb_spec (total2 - total1) 0) as [Hz|Hnz].
    + exists 0. split; [reflexivity | lra].
    + eexists. split; [reflexivity|].
      apply percentage_in_range; lia.
Qed.

(** A counter that runs backwards breaks the percentage.  When [idle] of the
    second read is below that of the first while [total] went up (both reads
    without overflow), the difference of the idle counters wraps in [uint64]
    and the utilisation reported is negative. *)
Theorem cpu_utilization_negative_when_idle_drops :
  forall (fields1 fields2 : list string) (idle1 total1 idle2 total2 : Z),
    (5 <= length fields1)%nat -> (5 <= length fields2)%nat ->
    (counters_sum ParseUint (tl fields1) < 2 ^ 64)%Z ->
    (counters_sum ParseUint (tl fields2) < 2 ^ 64)%Z ->
    handlers.readCPUStat ParseUint (Ok fields1) = Ok (idle1, total1) ->
    handlers.readCPUStat ParseUint (Ok fields2) = Ok (idle2, total2) ->
    (idle2 < idle1)%Z -> (total1 < total2)%Z ->
    exists u : Q,
      handlers.getCPUUtilization ParseUint (Ok fields1) (Ok fields2) = Ok u /\
      u < 0.
Proof.
  intros fields1 fields2 idle1 total1 idle2 total2 Hl1 Hl2 Hs1 Hs2 Hr1 Hr2
         Hidle Htotal.
  unfold handlers.getCPUUtilization. rewrite Hr1, Hr2.
  unfold handlers.readCPUStat in Hr1, Hr2.
  apply Nat.ltb_ge in Hl1, Hl2. rewrite Hl1 in Hr1. rewrite Hl2 in Hr2.
  injection Hr1 as Hr1. injection Hr2 as Hr2.
  destruct (sumFields_one (tl fields1) 1%nat 0%Z 0%Z) as [Ha1 Hb1]; try lia.
  destruct (sumFields_one (tl fields2) 1%nat 0%Z 0%Z) as [Ha2 Hb2]; try lia.
  rewrite Hr1 in Ha1, Hb1. rewrite Hr2 in Ha2, Hb2. cbn [fst snd] in *.
  assert (Hu1 : handlers.u64 (idle2 - idle1) = (2 ^ 64 + (idle2 - idle1))%Z).
  { unfold handlers.u64.
    replace (idle2 - idle1)%Z with (2 ^ 64 + (idle2 - idle1) + -1 * 2 ^ 64)%Z
      at 1 by lia.
    rewrite Z_mod_plus_full. apply Z.mod_small. lia. }
  assert (Hu2 : handlers.u64 (total2 - total1) = (total2 - total1)%Z).
  { unfold handlers.u64. apply Z.mod_small. lia. }
  rewrite Hu1, Hu2.
  destruct (Z.eqb_spec (total2 - total1) 0) as [Hz|Hnz]; [lia|].
  eexists. split; [reflexivity|].
  assert (Hpos : 0 < inject_Z (total2 - total1)).
  { change 0 with (inject_Z 0). rewrite <- Zlt_Qlt. lia. }
  assert (H1 : 1 < inject_Z (2 ^ 64 + (idle2 - idle1))
                   / inject_Z (total2 - total1)).
  { apply Qlt_shift_div_l; [exact Hpos|]. rewrite Qmult_1_l.
    rewrite <- Zlt_Qlt. lia. }
  lra.
Qed.

End CPUFacts.

Lemma ParseUint10_range s : (0 <= ParseUint10 s < 2 ^ 64)%Z.
Proof.
  assert (Hd : forall s acc v,
             (0 <= acc)%Z -> parse_digits s acc = Some v -> (0 <= v)%Z).
  { clear s. induction s as [|c s IH]; intros acc v Hacc Hp;
      cbn [parse_digits] in Hp.
    - injection Hp as <-. exact Hacc.
    - unfold digit in Hp.
      destruct ((48 <=? Z.of_N (Ascii.N_of_ascii c))
                && (Z.of_N (Ascii.N_of_ascii c) <=? 57))%Z eqn:E;
        [|discriminate].
      apply andb_true_iff in E. destruct E as [E1 E2].
      apply Z.leb_le in E1. apply IH in Hp; [exact Hp | lia]. }
  unfold ParseUint10. destruct s as [|c s]; [lia|].
  destruct (parse_digits (String c s) 0) as [v|] eqn:E; [|lia].
  apply Hd in E; [|lia].
  destruct (Z.ltb_spec v (2 ^ 64)); lia.
Qed.

(** The cpu line of /proc/stat at two instants, every counter advancing. *)
Lemma cpu_utilization_of_two_reads :
  exists u : Q,
    handlers.getCPUUtilization ParseUint10
      (Ok ["cpu"; "100"; "0"; "50"; "800"; "10"]%string)
      (Ok ["cpu"; "150"; "0"; "60"; "880"; "10"]%string) = Ok u /\
    0 <= u <= 100.
Proof.
  apply (cpu_utilization_is_a_percentage ParseUint10 ParseUint10_range).
  - repeat (apply List.Forall2_cons; [vm_compute; discriminate|]).
    apply List.Forall2_nil.
  - vm_compute. reflexivity.
Defined.

(** The idle counter drops from 800 to 790 while the others advance. *)
Lemma cpu_utilization_with_a_dropping_idle_counter :
  exists u : Q,
    handlers.getCPUUtilization ParseUint10
      (Ok ["cpu"; "100"; "0"; "50"; "800"; "10"]%string)
      (Ok ["cpu"; "150"; "0"; "60"; "790"; "10"]%string) = Ok u /\
    u < 0.
Proof.
  apply (cpu_utilization_negative_when_idle_drops ParseUint10
           ParseUint10_range _ _ 800 960 790 1010);
    try (vm_compute; reflexivity); cbn [length]; lia.
Defined.

(** ** Wallet addresses in the log *)

Lemma length_append (a b : string) :
  String.length (a ++ b) = (String.length a + String.length b)%nat.
Proof.
  induction a as [|c a IH]; [reflexivity|].
  change (S (String.length (a ++ b))
          = S (String.length a + String.length b)).
  now rewrite IH.
Qed.

Lemma length_substring (s : string) :
  forall n m, (n + m <= String.length s)%nat ->
              String.length (String.substring n m s) = m.
Proof.
  induction s as [|c s IH]; intros [|n] [|m] H; cbn in *;
    try reflexivity; try lia.
  - rewrite IH by lia. reflexivity.
  - apply IH. lia.
  - apply IH. lia.
Qed.

Lemma substring_all (s : string) :
  String.substring 0 (String.length s) s = s.
Proof. induction s as [|c s IH]; cbn; [reflexivity | now rewrite IH]. Qed.

Lemma substring_0_append (a b : string) :
  String.substring 0 (String.length a) (a ++ b) = a.
Proof.
  induction a as [|c a IH].
  - destruct b; reflexivity.
  - change (String c (String.substring 0 (String.length a) (a ++ b))
            = String c a).
    now rewrite IH.
Qed.

Lemma substring_skip_append (a b : string) n m :
  String.substring (String.length a + n) m (a ++ b) = String.substring n m b.
Proof. induction a as [|c a IH]; [reflexivity | exact IH]. Qed.

Lemma truncateWallet_short wallet :
  (String.length wallet <= 10)%nat -> server.truncateWallet wallet = wallet.
Proof.
  intros H. unfold server.truncateWallet.
  destruct (Nat.leb_spec (String.length wallet) 10); [reflexivity | lia].
Qed.

Lemma truncateWallet_long wallet :
  (10 < String.length wallet)%nat ->
  server.truncateWallet wallet
  = (String.substring 0 6 wallet ++ "..."
     ++ String.substring (String.length wallet - 4) 4 wallet)%string.
Proof.
  intros H. unfold server.truncateWallet.
  destruct (Nat.leb_spec (String.length wallet) 10); [lia | reflexivity].
Qed.

(** [truncateWallet] leaves an address of at most 10 bytes as it is and cuts
    a longer one to 13 bytes: its first 6, three dots and its last 4.  What
    it returns is never longer than 13 bytes, and truncating twice is
    truncating once. *)
Theorem truncateWallet_is_short_and_stable :
  forall wallet : string,
    let short := server.truncateWallet wallet in
    (String.length short <= 13)%nat /\
    ((String.length wallet <= 10)%nat -> short = wallet) /\
    ((10 < String.length wallet)%nat ->
       String.length short = 13%nat /\
       String.substring 0 6 short = String.substring 0 6 wallet /\
       String.substring 6 3 short = "..."%string /\
       String.substring 9 4 short
         = String.substring (String.length wallet - 4) 4 wallet) /\
    server.truncateWallet short = short.
Proof.
  intros wallet short. subst short.
  destruct (Nat.leb_spec (String.length wallet) 10) as [Hle|Hgt].
  - rewrite !(truncateWallet_short wallet Hle).
    repeat split; lia.
  - rewrite !(truncateWallet_long wallet Hgt).
    set (a := String.substring 0 6 wallet).
    set (b := String.substring (String.length wallet - 4) 4 wallet).
    assert (Ha : String.length a = 6%nat)
      by (apply length_substring; lia).
    assert (Hb : String.length b = 4%nat)
      by (apply length_substring; lia).
    assert (Hlen : String.length (a ++ "..." ++ b) = 13%nat).
    { rewrite !length_append, Ha, Hb. reflexivity. }
    assert (H6 : String.substring 0 6 (a ++ "..." ++ b) = a).
    { rewrite <- Ha at 1. apply substring_0_append. }
    assert (H3 : String.substring 6 3 (a ++ "..." ++ b) = "..."%string).
    { change 6%nat with (6 + 0)%nat. rewrite <- Ha at 1.
      rewrite substring_skip_append. destruct b; reflexivity. }
    assert (H9 : String.substring 9 4 (a ++ "..." ++ b) = b).
    { change 9%nat with (6 + 3)%nat. rewrite <- Ha at 1.
      rewrite substring_skip_append.
      change (String.substring 0 4 b = b).
      rewrite <- Hb at 1. apply substring_all. }
    repeat split; try lia; try assumption.
    rewrite truncateWallet_long by lia.
    rewrite Hlen. change (13 - 4)%nat with 9%nat.
    rewrite H6, H9. reflexivity.
Qed.

(** ** The middlewares without payments *)

Lemma plain_middlewares_step key now tb :
  let a := memory.Allow key now tb in
  (snd (server.simpleRateLimitMiddleware key now tb) = snd a /\
   is_forwarded (fst (server.simpleRateLimitMiddleware key now tb)) = fst a) /\
  (snd (middleware.RateLimitMiddleware key now tb) = snd a /\
   is_forwarded (fst (middleware.RateLimitMiddleware key now tb)) = fst a) /\
  (snd (middleware.GinRateLimitMiddleware key now tb) = snd a /\
   is_forwarded (fst (middleware.GinRateLimitMiddleware key now tb)) = fst a).
Proof.
  unfold server.simpleRateLimitMiddleware, middleware.RateLimitMiddleware,
    middleware.GinRateLimitMiddleware.
  cbn [limAllow memory_Limiter].
  destruct (memory.Allow key now tb) as [[|] tb1]; cbn; repeat split.
Qed.

Lemma serve_plain_run mw :
  (forall key now tb,
     snd (mw key now tb) = snd (memory.Allow key now tb) /\
     is_forwarded (fst (mw key now tb)) = fst (memory.Allow key now tb)) ->
  forall reqs tb,
    snd (serve_plain mw reqs tb) = snd (run memory_step (allow_ops reqs) tb) /\
    forwarded (fst (serve_plain mw reqs tb))
    = admitted (fst (run memory_step (allow_ops reqs) tb)) /\
    map is_forwarded (fst (serve_plain mw reqs tb))
    = fst (allow_run "" (map snd reqs) tb).
Proof.
  intros Hmw. induction reqs as [|[key now] rest IH]; intros tb.
  - repeat split.
  - cbn [serve_plain allow_ops map run memory_step fst snd allow_run].
    fold (allow_ops rest).
    destruct (Hmw key now tb) as [Hs Hf].
    assert (Hkey : memory.Allow "" now tb = memory.Allow key now tb)
      by reflexivity.
    rewrite Hkey.
    destruct (mw key now tb) as [o tb1].
    destruct (memory.Allow key now tb) as [b tb1'].
    cbn [fst snd] in Hs, Hf. subst tb1' b.
    destruct (IH tb1) as (I1 & I2 & I3).
    destruct (serve_plain mw rest tb1) as [os tb2].
    destruct (run memory_step (allow_ops rest) tb1) as [obs tb2'].
    destruct (allow_run "" (map snd rest) tb1) as [oks tb3].
    cbn [fst snd] in *. subst tb2'.
    split; [reflexivity|]. split.
    + unfold forwarded in *. cbn [List.filter admitted].
      destruct (is_forwarded o); cbn [length]; rewrite I2; reflexivity.
    + cbn [map]. rewrite I3. reflexivity.
Qed.

Lemma serve_plain_Forall mw (P : server.PlainOutcome -> Prop) :
  (forall key now tb, P (fst (mw key now tb))) ->
  forall reqs tb, Forall P (fst (serve_plain mw reqs tb)).
Proof.
  intros Hmw. induction reqs as [|[key now] rest IH]; intros tb.
  - constructor.
  - cbn [serve_plain]. specialize (Hmw key now tb).
    destruct (mw key now tb) as [o tb1]. specialize (IH tb1).
    destruct (serve_plain mw rest tb1) as [os tb2].
    constructor; assumption.
Qed.

Lemma paid_allow_ops reqs : paid (allow_ops reqs) = 0.
Proof.
  induction reqs as [|[key now] rest IH]; [reflexivity|].
  cbn [allow_ops map paid]. exact IH.
Qed.

Lemma allow_ops_not_refill reqs : Forall refill_nonneg (allow_ops reqs).
Proof.
  induction reqs as [|[key now] rest IH]; constructor; [exact I | exact IH].
Qed.

(** The three middlewares without payments are one limiter front: served the
    same requests over the in-process bucket they forward the same requests
    and leave the same bucket, whatever the keys; they differ in the answer
    to a request they do not forward: 429 with Retry-After 1 from
    [simpleRateLimitMiddleware] and [RateLimitMiddleware], 402 from
    [GinRateLimitMiddleware].  And they enforce the rate: with clock
    readings that do not go backwards, on a bucket with a non-negative count
    and rate, the requests forwarded are at most the tokens at the start
    plus the rate times the time the requests span. *)
Theorem plain_middlewares_enforce_the_rate :
  forall (reqs : list (string * Z)) (tb : memory.TokenBucket),
    0 <= memory.tokens tb ->
    0 <= memory.refillRate tb ->
    clock_forward (memory.lastRefillTime tb) (allow_ops reqs) ->
    let s := serve_plain server.simpleRateLimitMiddleware reqs tb in
    let h := serve_plain middleware.RateLimitMiddleware reqs tb in
    let g := serve_plain middleware.GinRateLimitMiddleware reqs tb in
    snd h = snd s /\ snd g = snd s /\
    map is_forwarded (fst h) = map is_forwarded (fst s) /\
    map is_forwarded (fst g) = map is_forwarded (fst s) /\
    Forall (fun o => o = server.Forwarded \/
                     o = server.ReplyJSON 429 [("Retry-After", "1")]%string
                           [("error", "Too Many Requests")]%string) (fst s) /\
    Forall (fun o => o = server.Forwarded \/
                     o = server.ReplyText 429 [("Retry-After", "1")]%string
                           "Too Many Requests") (fst h) /\
    Forall (fun o => o = server.Forwarded \/
                     o = server.ReplyJSON 402 []
                           [("error", "Rate limit exceeded");
                            ("message", "Pay to refill your token bucket")
                           ]%string) (fst g) /\
    inject_Z (Z.of_nat (forwarded (fst s)))
      <= memory.tokens tb
         + Seconds (memory.lastRefillTime (snd s) - memory.lastRefillTime tb)
           * memory.refillRate tb.
Proof.
  intros reqs tb Ht Hr Hclock s h g. subst s h g.
  assert (Fs : Forall (fun o => o = server.Forwarded \/
                     o = server.ReplyJSON 429 [("Retry-After", "1")]%string
                           [("error", "Too Many Requests")]%string)
                 (fst (serve_plain server.simpleRateLimitMiddleware reqs tb))).
  { apply serve_plain_Forall. intros key now tb0.
    unfold server.simpleRateLimitMiddleware. cbn [limAllow memory_Limiter].
    destruct (memory.Allow key now tb0) as [[|] tb1]; cbn; auto. }
  assert (Fh : Forall (fun o => o = server.Forwarded \/
                     o = server.ReplyText 429 [("Retry-After", "1")]%string
                           "Too Many Requests")
                 (fst (serve_plain middleware.RateLimitMiddleware reqs tb))).
  { apply serve_plain_Forall. intros key now tb0.
    unfold middleware.RateLimitMiddleware. cbn [limAllow memory_Limiter].
    destruct (memory.Allow key now tb0) as [[|] tb1]; cbn; auto. }
  assert (Fg : Forall (fun o => o = server.Forwarded \/
                     o = server.ReplyJSON 402 []
                           [("error", "Rate limit exceeded");
                            ("message", "Pay to refill your token bucket")
                           ]%string)
                 (fst (serve_plain middleware.GinRateLimitMiddleware reqs tb))).
  { apply serve_plain_Forall. intros key now tb0.
    unfold middleware.GinRateLimitMiddleware. cbn [limAllow memory_Limiter].
    destruct (memory.Allow key now tb0) as [[|] tb1]; cbn; auto. }
  revert Fs Fh Fg.
  destruct (serve_plain_run server.simpleRateLimitMiddleware
              (fun k n b => proj1 (plain_middlewares_step k n b)) reqs tb)
    as (S1 & S2 & S3).
  destruct (serve_plain_run middleware.RateLimitMiddleware
              (fun k n b => proj1 (proj2 (plain_middlewares_step k n b)))
              reqs tb) as (H1 & _ & H3).
  destruct (serve_plain_run middleware.GinRateLimitMiddleware
              (fun k n b => proj2 (proj2 (plain_middlewares_step k n b)))
              reqs tb) as (G1 & _ & G3).
  rewrite H1, G1, S1, H3, G3, S3, S2. intros Fs Fh Fg.
  repeat split; try assumption.
  destruct (memory_run_account (allow_ops reqs) tb Ht Hr Hclock
              (allow_ops_not_refill reqs)) as [_ Hb].
  cbv zeta in Hb. rewrite paid_allow_ops in Hb. lra.
Qed.

(** Four requests at once on a full bucket of 2 at 1 token per second: at
    most two are forwarded. *)
Lemma plain_middleware_on_a_burst :
  let reqs := [("10.0.0.1"%string, 0%Z); ("10.0.0.2"%string, 0%Z);
               ("10.0.0.1"%string, 0%Z); ("10.0.0.2"%string, 0%Z)] in
  inject_Z (Z.of_nat (forwarded (fst
    (serve_plain server.simpleRateLimitMiddleware reqs
       (memory.NewTokenBucket 2 1 0))))) <= 2.
Proof.
  refine (Qle_trans _ _ _
    (proj2 (proj2 (proj2 (proj2 (proj2 (proj2 (proj2
      (plain_middlewares_enforce_the_rate
         [("10.0.0.1"%string, 0%Z); ("10.0.0.2"%string, 0%Z);
          ("10.0.0.1"%string, 0%Z); ("10.0.0.2"%string, 0%Z)]
         (memory.NewTokenBucket 2 1 0) _ _ _)))))))) _).
  - vm_compute. discriminate.
  - vm_compute. discriminate.
  - cbn. lia.
  - vm_compute. discriminate.
Defined.
